(** * Zemini audio rug: serial decoder, pressure state machines, audio routing

    A shallow embedding of the JavaScript sources
    - [audio-engine.js]: class [AudioEngine] and class [SerialHandler],
    - [script.js]: class [AudioRugApp],
    together with the properties of the design document that can be
    decided on them.

    Conventions.
    - A JavaScript string is the list of its UTF-16 code units ([list N]).
    - A JavaScript object used as a dictionary and a [Map] are [gmap]s.
      The registry of effects is a plain object: a read of it by name also
      finds the properties every object inherits.
    - An [async] method is run by the event loop in parts, and other code
      can run between them.  Of the start of a looped voice, in the engine
      and in the sample player, both parts are given, the one up to the
      first [await] and the one from the last,
      beside the call as one step, which is the two in a row and stands
      for a call nothing else runs into.  The other [async] methods of the
      engine are one step each, taking the outcome of what they await
      (recorder construction) as an argument.  Of the recording methods
      of the application the part before the first [await] is modelled.
    - Console output and calls into collaborators (the observer callback,
      the DOM, the sample player) are returned or logged as events.
    - The sample player of the application (module [Perform]) runs those
      events on the engine.  Its [Map] of playing regions is iterated in
      insertion order and is an association list. *)

From Stdlib Require Import ZArith NArith QArith List Bool String Ascii Lia.
From stdpp Require Import gmap strings list fin_maps.

Local Open Scope Z_scope.

(** ** SerialHandler (audio-engine.js, second class of the file) *)

Module Serial.

(** Code units of the characters the parser looks at. *)
Definition LF : N := 10%N.
Definition COMMA : N := 44%N.
Definition PLUS : N := 43%N.
Definition MINUS : N := 45%N.
Definition ZERO : N := 48%N.
Definition LOWER_X : N := 120%N.
Definition UPPER_X : N := 88%N.

(** The code units of a literal, for examples. *)
Definition js (s : string) : list N :=
  map N_of_ascii (list_ascii_of_string s).

(** [String.prototype.split] with a one-character separator: a string with
    [n] separators gives [n + 1] pieces; the empty string gives one empty
    piece. *)
Fixpoint split (sep : N) (s : list N) : list (list N) :=
  match s with
  | [] => [[]]
  | c :: rest =>
      if N.eqb c sep then [] :: split sep rest
      else match split sep rest with
           | tok :: toks => (c :: tok) :: toks
           | [] => [[c]]
           end
  end.

(** White space and line terminators of ECMAScript, as [trim] and the
    prefix skipping of [parseInt] understand them. *)
Definition isWhiteSpace (c : N) : bool :=
  ((9 <=? c) && (c <=? 13) || (c =? 32) || (c =? 160) || (c =? 5760)
   || (8192 <=? c) && (c <=? 8202) || (c =? 8232) || (c =? 8233)
   || (c =? 8239) || (c =? 8287) || (c =? 12288) || (c =? 65279))%N.

Fixpoint trimStart (s : list N) : list N :=
  match s with
  | c :: rest => if isWhiteSpace c then trimStart rest else s
  | [] => []
  end.

Definition trimEnd (s : list N) : list N := rev (trimStart (rev s)).

Definition trim (s : list N) : list N := trimEnd (trimStart s).

(** Value of a code unit as a digit in the given radix, if it is one. *)
Definition digitValue (radix : Z) (c : N) : option Z :=
  let v :=
    if ((48 <=? c) && (c <=? 57))%N then Some (Z.of_N c - 48)
    else if ((97 <=? c) && (c <=? 122))%N then Some (Z.of_N c - 97 + 10)
    else if ((65 <=? c) && (c <=? 90))%N then Some (Z.of_N c - 65 + 10)
    else None in
  match v with
  | Some d => if d <? radix then Some d else None
  | None => None
  end.

(** The longest prefix of digits, as digit values. *)
Fixpoint digitsPrefix (radix : Z) (s : list N) : list Z :=
  match s with
  | c :: rest =>
      match digitValue radix c with
      | Some d => d :: digitsPrefix radix rest
      | None => []
      end
  | [] => []
  end.

Definition mathInt (radix : Z) (ds : list Z) : Z :=
  fold_left (fun acc d => acc * radix + d) ds 0.

(** The radix [parseInt] settles on and what is left to read: a [0x] or
    [0X] prefix is dropped and selects radix 16. *)
Definition stripPrefix (s : list N) : Z * list N :=
  match s with
  | c0 :: c1 :: rest =>
      if N.eqb c0 ZERO && (N.eqb c1 LOWER_X || N.eqb c1 UPPER_X)
      then (16, rest) else (10, s)
  | _ => (10, s)
  end.

(** [parseInt(s)] without a radix argument: leading white space is skipped,
    one sign is read, the radix is settled, and the longest digit prefix is
    the value; [None] is [NaN] (no digit).

    The result is the exact integer.  JavaScript rounds it to a double (an
    infinity past about 309 digits); the rounding is monotone and fixes
    every integer up to 2^53, so after the clamp to [0,255] applied by the
    only caller both give the same number. *)
Definition parseInt (s : list N) : option Z :=
  let s1 := trimStart s in
  let '(sign, s2) :=
    match s1 with
    | c :: rest =>
        if N.eqb c MINUS then (-1, rest)
        else if N.eqb c PLUS then (1, rest)
        else (1, s1)
    | [] => (1, [])
    end in
  let '(radix, s3) := stripPrefix s2 in
  match digitsPrefix radix s3 with
  | [] => None
  | ds => Some (sign * mathInt radix ds)
  end.

(** [x || 0] on the result of [parseInt]: [NaN] and both zeros give 0. *)
Definition orZero (x : option Z) : Z :=
  match x with
  | Some v => v
  | None => 0
  end.

(** [Math.max(0, Math.min(255, pressure))]. *)
Definition clamp (pressure : Z) : Z := Z.max 0 (Z.min 255 pressure).

(** The callback of [values.map] in [parseSerialData]. *)
Definition decodeValue (val : list N) : Z :=
  let trimmed := trim val in
  let pressure := orZero (parseInt trimmed) in
  clamp pressure.

(** What a call leaves outside the handler: a frame handed to the observer,
    or the warning for a malformed line with the number of values found. *)
Inductive output : Type :=
| Frame (pressureMatrix : list Z)
| Malformed (got : nat).

(** The frames among the outputs. *)
Definition framesOf (out : list output) : list (list Z) :=
  omap (fun o => match o with Frame f => Some f | Malformed _ => None end) out.

(** The fields of the handler the decoder uses.  [onDataReceived] tells
    whether an observer callback is registered ([null] in the
    constructor). *)
Record SerialHandler : Type := {
  readBuffer : list N;
  onDataReceived : bool
}.

Definition parseSerialData (h : SerialHandler) (line : list N) : list output :=
  let values := split COMMA line in
  if Nat.eqb (length values) 100 then
    let pressureMatrix := map decodeValue values in
    if onDataReceived h then [Frame pressureMatrix] else []
  else [Malformed (length values)].

(** [lines.pop()]: the last piece and the pieces before it. *)
Definition pop (lines : list (list N)) : list (list N) * list N :=
  (removelast lines, default [] (last lines)).

(** The body of [lines.forEach] in [processIncomingData]. *)
Definition processLine (h : SerialHandler) (line : list N) : list output :=
  let line := trim line in
  match line with
  | [] => []
  | _ => parseSerialData h line
  end.

Definition processIncomingData (h : SerialHandler) (data : list N)
  : SerialHandler * list output :=
  let buffer := readBuffer h ++ data in
  let '(lines, rest) := pop (split LF buffer) in
  ({| readBuffer := rest; onDataReceived := onDataReceived h |},
   flat_map (processLine h) lines).

(** A token is non-numeric when, after white space and one sign, it does
    not begin with a decimal digit. *)
Definition afterSign (s : list N) : list N :=
  match trimStart s with
  | c :: rest => if N.eqb c MINUS || N.eqb c PLUS then rest else c :: rest
  | [] => []
  end.

Definition isDecimalDigit (c : N) : bool := ((48 <=? c) && (c <=? 57))%N.

Definition nonNumeric (tok : list N) : Prop :=
  match afterSign tok with
  | c :: _ => isDecimalDigit c = false
  | [] => True
  end.

(** The code unit of a decimal digit. *)
Definition digitChar (d : Z) : N := Z.to_N (48 + d).

(** A decimal numeral, an optional minus sign and decimal digits, and the
    integer it denotes. *)
Definition numeral (negative : bool) (ds : list Z) : list N :=
  (if negative then [MINUS] else []) ++ map digitChar ds.

Definition numeralValue (negative : bool) (ds : list Z) : Z :=
  (if negative then -1 else 1) * mathInt 10 ds.

Definition decimalDigits (ds : list Z) : Prop :=
  ds ≠ [] ∧ Forall (fun d => 0 <= d <= 9) ds.

(** What the design document says of the value [v] a frame holds for a
    token: it lies in [0,255]; it is 0 for a token that is not numeric; and
    for a decimal numeral it is the number itself when that lies in
    [0,255], 0 when it is below and 255 when it is above. *)
Definition readsAs (tok : list N) (v : Z) : Prop :=
  0 <= v <= 255
  ∧ (nonNumeric tok → v = 0)
  ∧ ∀ negative ds, decimalDigits ds → tok = numeral negative ds →
      let n := numeralValue negative ds in
      (n < 0 → v = 0) ∧ (0 <= n <= 255 → v = n) ∧ (255 < n → v = 255).

(** The observer of the examples is registered and the buffer is empty. *)
Definition listening : SerialHandler :=
  {| readBuffer := []; onDataReceived := true |}.

(** A line of 100 values: 7, then 99 times 300. *)
Definition sampleLine : list N :=
  js "7" ++ concat (replicate 99 (js ",300")).

(** The text of complete lines, each followed by its line feed. *)
Definition unlines (lines : list (list N)) : list N :=
  flat_map (fun line => line ++ [LF]) lines.

(** A string of white space only. *)
Definition allWhiteSpace (s : list N) : Prop :=
  Forall (fun c => isWhiteSpace c = true) s.

(** The code unit of a hexadecimal digit, in lower case. *)
Definition hexChar (d : Z) : N :=
  if d <? 10 then Z.to_N (48 + d) else Z.to_N (87 + d).

Definition hexDigits (hs : list Z) : Prop :=
  Forall (fun d => 0 <= d <= 15) hs.

End Serial.

(** ** AudioEngine (audio-engine.js, first class of the file) *)

Module Engine.

(** The nodes of the Web Audio graph that carry a parameter the engine
    reads or writes, with the current [value] of that parameter; a
    parameter is a plain cell.  Numbers are finite and kept exact. *)
Inductive AudioNode : Type :=
| GainNode (gain : Q)
| DelayNode (delayTime : Q)
| OscillatorNode (frequency : Q)
| BiquadFilterNode (frequency : Q)
| ConvolverNode
| WaveShaperNode.

(** An entry of [webAudioEffects]: [{ active, nodes }]. *)
Record Effect : Type := {
  active : bool;
  nodes : gmap string AudioNode
}.

(** An entry of [activeLoopedSources]: [{ source, effectName, dryGain,
    wetGain }]; the source is the identity of the buffer source node, the
    gains are the [gain.value] of the two gain nodes. *)
Record Voice : Type := {
  source : nat;
  effectName : option string;
  dryGain : Q;
  wetGain : Q
}.

Record AudioEngine : Type := {
  webAudioEffects : gmap string Effect;
  (** edges [effectsInput -> nodes.input] of the named effects *)
  effectsInputTo : gset string;
  (** edges [nodes.output -> effectsOutput] of the named effects *)
  effectsOutputFrom : gset string;
  activeLoopedSources : gmap Z Voice;
  (** buffer sources started and not stopped, each with the grid index it
      was started for *)
  playing : gmap nat Z;
  nextNode : nat;
  performanceRecorder : option nat;
  (** media recorders in state 'recording' on the master bus *)
  capturing : gset nat;
  nextRecorder : nat
}.

Definition setEffects (f : gmap string Effect) (e : AudioEngine) : AudioEngine :=
  {| webAudioEffects := f; effectsInputTo := effectsInputTo e;
     effectsOutputFrom := effectsOutputFrom e;
     activeLoopedSources := activeLoopedSources e; playing := playing e;
     nextNode := nextNode e; performanceRecorder := performanceRecorder e;
     capturing := capturing e; nextRecorder := nextRecorder e |}.

Definition setBus (i o : gset string) (e : AudioEngine) : AudioEngine :=
  {| webAudioEffects := webAudioEffects e; effectsInputTo := i;
     effectsOutputFrom := o;
     activeLoopedSources := activeLoopedSources e; playing := playing e;
     nextNode := nextNode e; performanceRecorder := performanceRecorder e;
     capturing := capturing e; nextRecorder := nextRecorder e |}.

Definition setVoices (m : gmap Z Voice) (p : gmap nat Z) (n : nat)
    (e : AudioEngine) : AudioEngine :=
  {| webAudioEffects := webAudioEffects e; effectsInputTo := effectsInputTo e;
     effectsOutputFrom := effectsOutputFrom e;
     activeLoopedSources := m; playing := p;
     nextNode := n; performanceRecorder := performanceRecorder e;
     capturing := capturing e; nextRecorder := nextRecorder e |}.

Definition setRecorder (r : option nat) (c : gset nat) (n : nat)
    (e : AudioEngine) : AudioEngine :=
  {| webAudioEffects := webAudioEffects e; effectsInputTo := effectsInputTo e;
     effectsOutputFrom := effectsOutputFrom e;
     activeLoopedSources := activeLoopedSources e; playing := playing e;
     nextNode := nextNode e; performanceRecorder := r;
     capturing := c; nextRecorder := n |}.

(** [createEffectNodes]: the named nodes of each effect with the values set
    at creation (a gain node starts at 1).  An unknown name gives an empty
    object. *)
Definition createEffectNodes (name : string) : gmap string AudioNode :=
  if String.eqb name "pitchshifter" then
    list_to_map [("input", GainNode 1); ("delay1", DelayNode 0.015);
                 ("delay2", DelayNode 0.12); ("feedback1", GainNode 0.6);
                 ("feedback2", GainNode 0.5); ("mixer", GainNode 1);
                 ("output", GainNode 1.2)]
  else if String.eqb name "ringmod" then
    list_to_map [("input", GainNode 1); ("oscillator", OscillatorNode 30);
                 ("modGain", GainNode 0); ("output", GainNode 0.5)]
  else if String.eqb name "freezer" then
    list_to_map [("input", GainNode 1); ("convolver", ConvolverNode);
                 ("output", GainNode 0.8)]
  else if String.eqb name "vibrato" then
    list_to_map [("input", GainNode 1); ("delay", DelayNode 0.01);
                 ("lfo", OscillatorNode 5); ("lfoGain", GainNode 0.005);
                 ("output", GainNode 1.0)]
  else if String.eqb name "filterdelay" then
    list_to_map [("input", GainNode 1); ("filter", BiquadFilterNode 2000);
                 ("delay", DelayNode 0.2); ("feedback", GainNode 0.3);
                 ("output", GainNode 0.8)]
  else if String.eqb name "octaver" then
    list_to_map [("input", GainNode 1); ("waveshaper", WaveShaperNode);
                 ("filter", BiquadFilterNode 1000); ("output", GainNode 0.8)]
  else ∅.

Definition effects : list string :=
  ["pitchshifter"; "ringmod"; "freezer"; "vibrato"; "filterdelay"; "octaver"]%string.

(** [createWebAudioEffects] on the fresh registry. *)
Definition createWebAudioEffects : gmap string Effect :=
  list_to_map
    (map (fun name => (name, {| active := false; nodes := createEffectNodes name |}))
         effects).

(** The engine after its constructor and [loadAllRNBOEffects]. *)
Definition initial : AudioEngine :=
  {| webAudioEffects := createWebAudioEffects;
     effectsInputTo := ∅; effectsOutputFrom := ∅;
     activeLoopedSources := ∅; playing := ∅; nextNode := 0%nat;
     performanceRecorder := None; capturing := ∅; nextRecorder := 0%nat |}.

(** [effectsInput.disconnect(inputNode); outputNode.disconnect(effectsOutput)]
    inside its own [try]: disconnecting an edge that does not exist throws,
    which skips the second call. *)
Definition disconnectFromBus (name : string) (e : AudioEngine) : AudioEngine :=
  if decide (name ∈ effectsInputTo e) then
    if decide (name ∈ effectsOutputFrom e) then
      setBus (effectsInputTo e ∖ {[name]}) (effectsOutputFrom e ∖ {[name]}) e
    else setBus (effectsInputTo e ∖ {[name]}) (effectsOutputFrom e) e
  else e.

Definition setActive (b : bool) (eff : Effect) : Effect :=
  {| active := b; nodes := nodes eff |}.

(** [webAudioEffects] is a plain object ([{}] in the constructor), so
    reading a property of it finds, besides the registered effects, what
    every object inherits from [Object.prototype]: its methods, and the
    prototype itself under [__proto__].  All of them are truthy and none
    has a property [active] or [nodes]. *)
Definition objectPrototype : list string :=
  ["constructor"; "hasOwnProperty"; "isPrototypeOf"; "propertyIsEnumerable";
   "toLocaleString"; "toString"; "valueOf"; "__proto__";
   "__defineGetter__"; "__defineSetter__"; "__lookupGetter__";
   "__lookupSetter__"]%string.

Definition inherited (name : string) : bool :=
  existsb (String.eqb name) objectPrototype.

(** [applyEffect].  A name that is not registered reads [undefined] and is
    answered [false], unless it is inherited: then [!effect] is false and
    the [try] block is entered.  Turning on, [isActive && !effect.active]
    holds and [effect.nodes.input] throws the TypeError that the [catch]
    answers with [false]; turning off, neither branch is taken and the
    call returns [true].  Nothing is changed in either case. *)
Definition applyEffect (name : string) (isActive : bool) (e : AudioEngine)
  : AudioEngine * bool :=
  match webAudioEffects e !! name with
  | None => (e, inherited name && negb isActive)
  | Some effect =>
      if isActive && negb (active effect) then
        match nodes effect !! "input"%string, nodes effect !! "output"%string with
        | Some _, Some _ =>
            let e1 := setBus ({[name]} ∪ effectsInputTo e)
                             ({[name]} ∪ effectsOutputFrom e) e in
            (setEffects (<[name := setActive true effect]> (webAudioEffects e1)) e1,
             true)
        | _, _ => (e, false)
        end
      else if negb isActive && active effect then
        let e1 :=
          match nodes effect !! "input"%string, nodes effect !! "output"%string with
          | Some _, Some _ => disconnectFromBus name e
          | _, _ => e
          end in
        (setEffects (<[name := setActive false effect]> (webAudioEffects e1)) e1,
         true)
      else (e, true)
  end.

(** [isEffectActive], as a truth value: for an inherited name the method
    returns [undefined], the missing [active]. *)
Definition isEffectActive (name : string) (e : AudioEngine) : bool :=
  match webAudioEffects e !! name with
  | Some effect => active effect
  | None => false
  end.

(** Both bus edges of the effect are present. *)
Definition connected (name : string) (e : AudioEngine) : Prop :=
  name ∈ effectsInputTo e ∧ name ∈ effectsOutputFrom e.

(** Neither bus edge of the effect is present. *)
Definition disconnected (name : string) (e : AudioEngine) : Prop :=
  (name ∉ effectsInputTo e) ∧ (name ∉ effectsOutputFrom e).

(** The three audio parameters the engine touches. *)
Inductive AudioParam : Type := Gain | DelayTime | Frequency.

(** [node.<param>.value]; [None] when the node has no such parameter, where
    JavaScript throws a TypeError. *)
Definition readParam (p : AudioParam) (n : AudioNode) : option Q :=
  match p, n with
  | Gain, GainNode v => Some v
  | DelayTime, DelayNode v => Some v
  | Frequency, OscillatorNode v => Some v
  | Frequency, BiquadFilterNode v => Some v
  | _, _ => None
  end.

(** [node.<param>.value = value]. *)
Definition writeParam (p : AudioParam) (value : Q) (n : AudioNode)
  : option AudioNode :=
  match p, n with
  | Gain, GainNode _ => Some (GainNode value)
  | DelayTime, DelayNode _ => Some (DelayNode value)
  | Frequency, OscillatorNode _ => Some (OscillatorNode value)
  | Frequency, BiquadFilterNode _ => Some (BiquadFilterNode value)
  | _, _ => None
  end.

(** The [switch (effectName)] shared by [getEffectParameter] and
    [setEffectParameter]: the node and parameter a parameter id stands for,
    and the literal the getter falls back to when the node is missing. *)
Definition paramTarget (name paramId : string) : option (string * AudioParam * Q) :=
  let isId := String.eqb paramId in
  if String.eqb name "pitchshifter" then
    if isId "delay1" then Some ("delay1", DelayTime, 0.015%Q)
    else if isId "delay2" then Some ("delay2", DelayTime, 0.12%Q)
    else if isId "feedback1" then Some ("feedback1", Gain, 0.6%Q)
    else if isId "feedback2" then Some ("feedback2", Gain, 0.5%Q)
    else if isId "output" then Some ("output", Gain, 1.2%Q)
    else None
  else if String.eqb name "ringmod" then
    if isId "frequency" then Some ("oscillator", Frequency, 30%Q)
    else if isId "depth" then Some ("modGain", Gain, 0%Q)
    else if isId "output" then Some ("output", Gain, 0.5%Q)
    else None
  else if String.eqb name "freezer" then
    if isId "output" then Some ("output", Gain, 0.8%Q)
    else None
  else if String.eqb name "vibrato" then
    if isId "rate" then Some ("lfo", Frequency, 5%Q)
    else if isId "depth" then Some ("lfoGain", Gain, 0.005%Q)
    else if isId "output" then Some ("output", Gain, 1.0%Q)
    else None
  else if String.eqb name "filterdelay" then
    if isId "frequency" then Some ("filter", Frequency, 2000%Q)
    else if isId "delayTime" then Some ("delay", DelayTime, 0.2%Q)
    else if isId "feedback" then Some ("feedback", Gain, 0.3%Q)
    else if isId "output" then Some ("output", Gain, 0.8%Q)
    else None
  else if String.eqb name "octaver" then
    if isId "frequency" then Some ("filter", Frequency, 1000%Q)
    else if isId "output" then Some ("output", Gain, 0.8%Q)
    else None
  else None.

(** [getEffectParameter] and [setEffectParameter] begin with
    [if (!effect || !effect.nodes)]: a name that is not registered, an
    inherited one included, has no [nodes] and is answered at once. *)
Definition getEffectParameter (name paramId : string) (e : AudioEngine) : Q :=
  match webAudioEffects e !! name with
  | None => 0%Q
  | Some effect =>
      match paramTarget name paramId with
      | None => 0%Q
      | Some (nodeName, p, fallback) =>
          match nodes effect !! nodeName with
          | None => fallback
          | Some n =>
              match readParam p n with
              | Some v => v
              | None => 0%Q        (* TypeError, caught *)
              end
          end
      end
  end.

Definition setNodes (ns : gmap string AudioNode) (eff : Effect) : Effect :=
  {| active := active eff; nodes := ns |}.

Definition setEffectParameter (name paramId : string) (value : Q) (e : AudioEngine)
  : AudioEngine * bool :=
  match webAudioEffects e !! name with
  | None => (e, false)
  | Some effect =>
      match paramTarget name paramId with
      | None => (e, true)
      | Some (nodeName, p, _) =>
          match nodes effect !! nodeName with
          | None => (e, true)
          | Some n =>
              match writeParam p value n with
              | Some n' =>
                  (setEffects
                     (<[name := setNodes (<[nodeName := n']> (nodes effect)) effect]>
                        (webAudioEffects e)) e,
                   true)
              | None => (e, false)   (* TypeError, caught *)
              end
          end
      end
  end.

(** [othersUsingEffect] of [stopLoopedSampleWithEffect]: the entries of the
    map whose [effectName] is strictly equal to the given one. *)
Definition othersUsingEffect (name : option string) (m : gmap Z Voice) : nat :=
  size (filter (fun kv => effectName kv.2 = name) m).

(** The property key an effect name is looked up under: [null] is the key
    ["null"]. *)
Definition effectKey (name : option string) : string :=
  match name with
  | Some n => n
  | None => "null"
  end.

Definition stopLoopedSampleWithEffect (gridIndex : Z) (e : AudioEngine)
  : AudioEngine :=
  match activeLoopedSources e !! gridIndex with
  | Some v =>
      (* source.stop(0) and the disconnects of the voice's nodes *)
      let e1 := setVoices (activeLoopedSources e) (delete (source v) (playing e))
                          (nextNode e) e in
      let others := othersUsingEffect (effectName v) (activeLoopedSources e1) in
      let e2 :=
        if (others <=? 1)%nat
        then fst (applyEffect (effectKey (effectName v)) false e1)
        else e1 in
      setVoices (delete gridIndex (activeLoopedSources e2)) (playing e2)
                (nextNode e2) e2
  | None => e
  end.

(** How the [try] block of [startLoopedSampleWithEffect] ends: it reaches
    [return true], or an exception leaves it before the effect is touched
    (resuming the context, reading or decoding the blob, building the
    nodes), or after (starting the source). *)
Inductive Setup : Type :=
| Completes
| ThrowsBeforeEffect
| ThrowsAfterEffect.

(** The [catch] block: [if (effectName) this.applyEffect(effectName, false)];
    [null] and the empty string are falsy. *)
Definition rollback (name : option string) (e : AudioEngine) : AudioEngine :=
  match name with
  | Some n => if String.eqb n "" then e else fst (applyEffect n false e)
  | None => e
  end.

(** [startLoopedSampleWithEffect] as one step: the call when nothing else
    runs between its first line and its return.  The method awaits the
    blob and its decoding after the teardown and before it builds the
    voice; [startLoopedSampleWithEffectBegin] and
    [startLoopedSampleWithEffectEnd] below are the two parts, and this
    definition is the second applied to the result of the first. *)
Definition startLoopedSampleWithEffect (gridIndex : Z) (setup : Setup)
    (name : option string) (volume : Q) (e : AudioEngine) : AudioEngine * bool :=
  let e0 :=
    if decide (is_Some (activeLoopedSources e !! gridIndex))
    then stopLoopedSampleWithEffect gridIndex e
    else e in
  match setup with
  | ThrowsBeforeEffect => (rollback name e0, false)
  | _ =>
      let src := nextNode e0 in
      let '(e1, dry, wet) :=
        match name with
        | None => (e0, 1.0%Q, 0.0%Q)
        | Some n =>
            let '(e', effectActivated) := applyEffect n true e0 in
            if effectActivated then (e', 0.3%Q, 0.7%Q) else (e', 1.0%Q, 0.0%Q)
        end in
      match setup with
      | Completes =>
          let voice := {| source := src; effectName := name;
                          dryGain := dry; wetGain := wet |} in
          (setVoices (<[gridIndex := voice]> (activeLoopedSources e1))
                     (<[src := gridIndex]> (playing e1)) (S src) e1,
           true)
      | _ =>
          (rollback name
             (setVoices (activeLoopedSources e1) (playing e1) (S src) e1),
           false)
      end
  end.

(** [startPerformanceRecording]; [recorderOk] tells whether the media
    recorder could be built and started.  The result is [true] when the
    promise of the blob is returned and [false] when the call throws. *)
Definition startPerformanceRecording (recorderOk : bool) (e : AudioEngine)
  : AudioEngine * bool :=
  if recorderOk then
    let mediaRecorder := nextRecorder e in
    (setRecorder (Some mediaRecorder) ({[mediaRecorder]} ∪ capturing e)
                 (S mediaRecorder) e,
     true)
  else (e, false).

Definition stopPerformanceRecording (e : AudioEngine) : AudioEngine :=
  match performanceRecorder e with
  | Some r =>
      if decide (r ∈ capturing e)
      then setRecorder (performanceRecorder e) (capturing e ∖ {[r]})
                       (nextRecorder e) e
      else e
  | None => e
  end.

(** Calls on the voice interface of the engine. *)
Inductive Call : Type :=
| Start (gridIndex : Z) (setup : Setup) (name : option string) (volume : Q)
| Stop (gridIndex : Z).

Definition call (e : AudioEngine) (c : Call) : AudioEngine :=
  match c with
  | Start g setup name volume =>
      fst (startLoopedSampleWithEffect g setup name volume e)
  | Stop g => stopLoopedSampleWithEffect g e
  end.

Definition calls (cs : list Call) (e : AudioEngine) : AudioEngine :=
  fold_left call cs e.

(** A voice start (a start call that reaches [return true]) or a voice
    stop. *)
Inductive VoiceOp : Type :=
| StartVoice (gridIndex : Z) (name : option string) (volume : Q)
| StopVoice (gridIndex : Z).

Definition toCall (op : VoiceOp) : Call :=
  match op with
  | StartVoice g name volume => Start g Completes name volume
  | StopVoice g => Stop g
  end.

Definition voiceOps (ops : list VoiceOp) (e : AudioEngine) : AudioEngine :=
  calls (map toCall ops) e.

(** The slider ranges of [effectsConfig] in [setupEffectsControls]
    (script.js): the only place a range of a parameter is written down. *)
Definition sliderRange (name paramId : string) : option (Q * Q) :=
  let isId := String.eqb paramId in
  if String.eqb name "pitchshifter" then
    if isId "delay1" then Some (0.005, 0.05)%Q
    else if isId "delay2" then Some (0.05, 0.2)%Q
    else if isId "feedback1" then Some (0, 0.8)%Q
    else if isId "feedback2" then Some (0, 0.8)%Q
    else if isId "output" then Some (0, 3)%Q
    else None
  else if String.eqb name "ringmod" then
    if isId "frequency" then Some (1, 500)%Q
    else if isId "depth" then Some (0, 1)%Q
    else if isId "output" then Some (0, 2)%Q
    else None
  else if String.eqb name "freezer" then
    if isId "output" then Some (0, 2)%Q
    else None
  else if String.eqb name "vibrato" then
    if isId "rate" then Some (0.1, 20)%Q
    else if isId "depth" then Some (0, 0.02)%Q
    else if isId "output" then Some (0, 2)%Q
    else None
  else if String.eqb name "filterdelay" then
    if isId "frequency" then Some (100, 10000)%Q
    else if isId "delayTime" then Some (0.01, 1)%Q
    else if isId "feedback" then Some (0, 0.8)%Q
    else if isId "output" then Some (0, 2)%Q
    else None
  else if String.eqb name "octaver" then
    if isId "frequency" then Some (200, 2000)%Q
    else if isId "output" then Some (0, 2)%Q
    else None
  else None.

Definition outOfRange (name paramId : string) (value : Q) : Prop :=
  match sliderRange name paramId with
  | Some (lo, hi) => (value < lo)%Q ∨ (hi < value)%Q
  | None => False
  end.

(** Every registered effect has its two end nodes, and no effect is
    registered under the key of [null]. *)
Definition wellFormed (e : AudioEngine) : Prop :=
  webAudioEffects e !! "null"%string = None
  ∧ ∀ name effect, webAudioEffects e !! name = Some effect →
      is_Some (nodes effect !! "input"%string)
      ∧ is_Some (nodes effect !! "output"%string).

(** The flag and the two bus edges of every registered effect say whether
    the voices [m] hold a reference to it. *)
Definition consistentWith (m : gmap Z Voice) (e : AudioEngine) : Prop :=
  ∀ name effect, webAudioEffects e !! name = Some effect →
    (active effect = true ↔ (0 < othersUsingEffect (Some name) m)%nat)
    ∧ (name ∈ effectsInputTo e ↔ active effect = true)
    ∧ (name ∈ effectsOutputFrom e ↔ active effect = true).

Definition consistent (e : AudioEngine) : Prop :=
  consistentWith (activeLoopedSources e) e.

(** The effect-side outcome of the [try] block when it reaches the point
    where the gains are set. *)
Definition routed (name : option string) (e0 : AudioEngine) : AudioEngine :=
  match name with
  | None => e0
  | Some n => (applyEffect n true e0).1
  end.

Definition gains (name : option string) (e0 : AudioEngine) : Q * Q :=
  match name with
  | None => (1.0, 0.0)%Q
  | Some n => if (applyEffect n true e0).2 then (0.3, 0.7)%Q else (1.0, 0.0)%Q
  end.

(** The effect name the voice of a region carries, if the region has a
    voice. *)
Definition voiceName (e : AudioEngine) (g : Z) : option (option string) :=
  effectName <$> activeLoopedSources e !! g.

(** The sources that play are the sources of the registered voices, each
    for the region it is registered under, and node identities are fresh. *)
Definition voicesPlaying (e : AudioEngine) : Prop :=
  (∀ g v, activeLoopedSources e !! g = Some v → playing e !! source v = Some g)
  ∧ (∀ id g, playing e !! id = Some g →
       ∃ v, activeLoopedSources e !! g = Some v ∧ source v = id)
  ∧ (∀ id, is_Some (playing e !! id) → (id < nextNode e)%nat).

(** [resetAllEffectParameters]: every registered effect gets the nodes
    [createEffectNodes] makes for its name and keeps its flag.  The new
    nodes are fresh objects and nothing is connected to them: the bus has
    no edge to or from the nodes that are registered now. *)
Definition resetAllEffectParameters (e : AudioEngine) : AudioEngine :=
  setBus (effectsInputTo e ∖ dom (webAudioEffects e))
         (effectsOutputFrom e ∖ dom (webAudioEffects e))
         (setEffects
            (map_imap (fun name effect => Some (setNodes (createEffectNodes name) effect))
                      (webAudioEffects e))
            e).

(** [startLoopedSampleWithEffect] in the two parts the event loop runs it
    in.  The first part runs when the method is called, up to the first
    [await] that is reached (resuming the context, or reading the blob):
    the voice of the region, if there is one, is stopped. *)
Definition startLoopedSampleWithEffectBegin (gridIndex : Z) (e : AudioEngine)
  : AudioEngine :=
  if decide (is_Some (activeLoopedSources e !! gridIndex))
  then stopLoopedSampleWithEffect gridIndex e
  else e.

(** The second part runs when the blob has been read and decoded, on the
    engine as it is by then: the nodes are built, the effect is activated,
    the source is started and the voice is registered, or the [catch]
    block runs. *)
Definition startLoopedSampleWithEffectEnd (gridIndex : Z) (setup : Setup)
    (name : option string) (volume : Q) (e0 : AudioEngine) : AudioEngine * bool :=
  match setup with
  | ThrowsBeforeEffect => (rollback name e0, false)
  | _ =>
      let src := nextNode e0 in
      let '(e1, dry, wet) :=
        match name with
        | None => (e0, 1.0%Q, 0.0%Q)
        | Some n =>
            let '(e', effectActivated) := applyEffect n true e0 in
            if effectActivated then (e', 0.3%Q, 0.7%Q) else (e', 1.0%Q, 0.0%Q)
        end in
      match setup with
      | Completes =>
          let voice := {| source := src; effectName := name;
                          dryGain := dry; wetGain := wet |} in
          (setVoices (<[gridIndex := voice]> (activeLoopedSources e1))
                     (<[src := gridIndex]> (playing e1)) (S src) e1,
           true)
      | _ =>
          (rollback name
             (setVoices (activeLoopedSources e1) (playing e1) (S src) e1),
           false)
      end
  end.

(** The voice interface as the event loop runs it, one piece of
    synchronous code at a time: a start is called and runs up to its first
    [await], a start resumes when its sample is decoded and runs to its
    end, or a stop is called.  Anything can run between the two parts of a
    start. *)
Inductive Segment : Type :=
| StartCalled (gridIndex : Z)
| StartResumed (gridIndex : Z) (setup : Setup) (name : option string) (volume : Q)
| StopCalled (gridIndex : Z).

Definition segment (e : AudioEngine) (s : Segment) : AudioEngine :=
  match s with
  | StartCalled g => startLoopedSampleWithEffectBegin g e
  | StartResumed g setup name volume =>
      (startLoopedSampleWithEffectEnd g setup name volume e).1
  | StopCalled g => stopLoopedSampleWithEffect g e
  end.

Definition segments (ss : list Segment) (e : AudioEngine) : AudioEngine :=
  fold_left segment ss e.

(** A source that plays for a region without being the source of a
    registered voice. *)
Definition orphan (id : nat) (gridIndex : Z) (e : AudioEngine) : Prop :=
  playing e !! id = Some gridIndex ∧ (id < nextNode e)%nat
  ∧ ∀ g v, activeLoopedSources e !! g = Some v → source v ≠ id.

End Engine.

(** ** AudioRugApp (script.js) *)

Module App.

Inductive Mode : Type := RECORD | PERFORM.

Inductive RecordingState : Type := idle | recording.

(** JavaScript arrays read and written by index: a missing element reads as
    a falsy default, a write past the end extends the array. *)
Definition arrayGet {A} (d : A) (l : list A) (i : nat) : A :=
  default d (l !! i).

Definition arraySet {A} (d : A) (i : nat) (x : A) (l : list A) : list A :=
  if (i <? length l)%nat then <[i := x]> l
  else l ++ replicate (i - length l) d ++ [x].

(** A number or [NaN] ([None]); [Math.max] and [>] on them. *)
Definition mathMax (a b : option Z) : option Z :=
  match a, b with
  | Some x, Some y => Some (Z.max x y)
  | _, _ => None
  end.

Definition greater (a : option Z) (threshold : Z) : bool :=
  match a with
  | Some x => threshold <? x
  | None => false
  end.

(** A pending [setTimeout] of the debounce logic: when it is due and the
    variables its callback closes over. *)
Record Timer : Type := {
  deadline : Z;
  isPressed : bool;
  maxPressureInRegion : option Z
}.

(** Calls the state machines make into the rest of the application. *)
Inductive Event : Type :=
| GridCellPressureChange (gridIndex : nat) (pressed : bool) (pressure : option Z)
| RecordingStarted
| RecordingStopped.

Record AudioRugApp : Type := {
  currentMode : Mode;
  recordingState : RecordingState;
  isRecordingOnCooldown : bool;
  recordingReady : bool;
  pressureThreshold : Z;
  lastPressureState : bool;
  gridCellPressureState : list bool;
  gridCellDebounceTimers : list (option Timer);
  pressureDebounceMs : Z;
  (** [microphoneSelect.value] is not empty *)
  microphoneSelected : bool;
  (** the clock of the event loop, in milliseconds *)
  now : Z;
  (** the calls made so far, oldest first *)
  events : list Event
}.

Definition withMode (m : Mode) (a : AudioRugApp) : AudioRugApp :=
  {| currentMode := m; recordingState := recordingState a;
     isRecordingOnCooldown := isRecordingOnCooldown a;
     recordingReady := recordingReady a;
     pressureThreshold := pressureThreshold a;
     lastPressureState := lastPressureState a;
     gridCellPressureState := gridCellPressureState a;
     gridCellDebounceTimers := gridCellDebounceTimers a;
     pressureDebounceMs := pressureDebounceMs a;
     microphoneSelected := microphoneSelected a;
     now := now a; events := events a |}.

Definition withRecording (s : RecordingState) (cooldown ready : bool)
    (a : AudioRugApp) : AudioRugApp :=
  {| currentMode := currentMode a; recordingState := s;
     isRecordingOnCooldown := cooldown;
     recordingReady := ready;
     pressureThreshold := pressureThreshold a;
     lastPressureState := lastPressureState a;
     gridCellPressureState := gridCellPressureState a;
     gridCellDebounceTimers := gridCellDebounceTimers a;
     pressureDebounceMs := pressureDebounceMs a;
     microphoneSelected := microphoneSelected a;
     now := now a; events := events a |}.

Definition withThreshold (v : Z) (a : AudioRugApp) : AudioRugApp :=
  {| currentMode := currentMode a; recordingState := recordingState a;
     isRecordingOnCooldown := isRecordingOnCooldown a;
     recordingReady := recordingReady a;
     pressureThreshold := v;
     lastPressureState := lastPressureState a;
     gridCellPressureState := gridCellPressureState a;
     gridCellDebounceTimers := gridCellDebounceTimers a;
     pressureDebounceMs := pressureDebounceMs a;
     microphoneSelected := microphoneSelected a;
     now := now a; events := events a |}.

Definition withLastPressure (b : bool) (a : AudioRugApp) : AudioRugApp :=
  {| currentMode := currentMode a; recordingState := recordingState a;
     isRecordingOnCooldown := isRecordingOnCooldown a;
     recordingReady := recordingReady a;
     pressureThreshold := pressureThreshold a;
     lastPressureState := b;
     gridCellPressureState := gridCellPressureState a;
     gridCellDebounceTimers := gridCellDebounceTimers a;
     pressureDebounceMs := pressureDebounceMs a;
     microphoneSelected := microphoneSelected a;
     now := now a; events := events a |}.

Definition withGrid (states : list bool) (timers : list (option Timer))
    (a : AudioRugApp) : AudioRugApp :=
  {| currentMode := currentMode a; recordingState := recordingState a;
     isRecordingOnCooldown := isRecordingOnCooldown a;
     recordingReady := recordingReady a;
     pressureThreshold := pressureThreshold a;
     lastPressureState := lastPressureState a;
     gridCellPressureState := states;
     gridCellDebounceTimers := timers;
     pressureDebounceMs := pressureDebounceMs a;
     microphoneSelected := microphoneSelected a;
     now := now a; events := events a |}.

Definition withMicrophone (b : bool) (a : AudioRugApp) : AudioRugApp :=
  {| currentMode := currentMode a; recordingState := recordingState a;
     isRecordingOnCooldown := isRecordingOnCooldown a;
     recordingReady := recordingReady a;
     pressureThreshold := pressureThreshold a;
     lastPressureState := lastPressureState a;
     gridCellPressureState := gridCellPressureState a;
     gridCellDebounceTimers := gridCellDebounceTimers a;
     pressureDebounceMs := pressureDebounceMs a;
     microphoneSelected := b;
     now := now a; events := events a |}.

Definition withNow (t : Z) (a : AudioRugApp) : AudioRugApp :=
  {| currentMode := currentMode a; recordingState := recordingState a;
     isRecordingOnCooldown := isRecordingOnCooldown a;
     recordingReady := recordingReady a;
     pressureThreshold := pressureThreshold a;
     lastPressureState := lastPressureState a;
     gridCellPressureState := gridCellPressureState a;
     gridCellDebounceTimers := gridCellDebounceTimers a;
     pressureDebounceMs := pressureDebounceMs a;
     microphoneSelected := microphoneSelected a;
     now := t; events := events a |}.

Definition emit (ev : Event) (a : AudioRugApp) : AudioRugApp :=
  {| currentMode := currentMode a; recordingState := recordingState a;
     isRecordingOnCooldown := isRecordingOnCooldown a;
     recordingReady := recordingReady a;
     pressureThreshold := pressureThreshold a;
     lastPressureState := lastPressureState a;
     gridCellPressureState := gridCellPressureState a;
     gridCellDebounceTimers := gridCellDebounceTimers a;
     pressureDebounceMs := pressureDebounceMs a;
     microphoneSelected := microphoneSelected a;
     now := now a; events := events a ++ [ev] |}.

(** The state the constructor leaves, at time 0. *)
Definition constructed : AudioRugApp :=
  {| currentMode := RECORD; recordingState := idle;
     isRecordingOnCooldown := false;
     recordingReady := false;
     pressureThreshold := 25;
     lastPressureState := false;
     gridCellPressureState := replicate 9 false;
     gridCellDebounceTimers := replicate 9 None;
     pressureDebounceMs := 50;
     microphoneSelected := false;
     now := 0; events := [] |}.

Definition updateSensitivity (value : Z) (a : AudioRugApp) : AudioRugApp :=
  withThreshold value a.

(** [startRecording] up to its first [await]. *)
Definition startRecording (a : AudioRugApp) : AudioRugApp :=
  match recordingState a with
  | idle =>
      if isRecordingOnCooldown a then a
      else if microphoneSelected a then
        emit RecordingStarted
          (withRecording recording (isRecordingOnCooldown a) (recordingReady a) a)
      else a
  | recording => a
  end.

(** [stopRecording] up to its first [await]. *)
Definition stopRecording (a : AudioRugApp) : AudioRugApp :=
  match recordingState a with
  | recording => emit RecordingStopped (withRecording idle true false a)
  | idle => a
  end.

(** The [catch] block of [startRecording]: the engine could not record. *)
Definition recordingFailed (a : AudioRugApp) : AudioRugApp :=
  withRecording idle (isRecordingOnCooldown a) (recordingReady a) a.

(** The callback of the cooldown timeout set by [stopRecording]. *)
Definition cooldownElapsed (a : AudioRugApp) : AudioRugApp :=
  withRecording (recordingState a) false (recordingReady a) a.

Definition handleRecordingPressure (totalPressure : Z) (a : AudioRugApp)
  : AudioRugApp :=
  let pressed := pressureThreshold a <? totalPressure in
  let a1 :=
    if negb (recordingReady a) && negb pressed
    then withRecording (recordingState a) (isRecordingOnCooldown a) true a
    else a in
  let a2 :=
    if pressed && negb (lastPressureState a1) && recordingReady a1 then
      match recordingState a1 with
      | idle => if isRecordingOnCooldown a1 then a1 else startRecording a1
      | recording => stopRecording a1
      end
    else a1 in
  withLastPressure pressed a2.

Definition handleManualRecordToggle (a : AudioRugApp) : AudioRugApp :=
  if isRecordingOnCooldown a then a
  else match recordingState a with
       | idle => startRecording a
       | recording => stopRecording a
       end.

Record Region : Type := { minX : nat; maxX : nat; minY : nat; maxY : nat }.

Definition gridRegions : list Region :=
  [ {| minX := 0; maxX := 2; minY := 0; maxY := 2 |};
    {| minX := 3; maxX := 5; minY := 0; maxY := 2 |};
    {| minX := 6; maxX := 9; minY := 0; maxY := 2 |};
    {| minX := 0; maxX := 2; minY := 3; maxY := 5 |};
    {| minX := 3; maxX := 5; minY := 3; maxY := 5 |};
    {| minX := 6; maxX := 9; minY := 3; maxY := 5 |};
    {| minX := 0; maxX := 2; minY := 6; maxY := 9 |};
    {| minX := 3; maxX := 5; minY := 6; maxY := 9 |};
    {| minX := 6; maxX := 9; minY := 6; maxY := 9 |} ]%nat.

(** The indices [y * 10 + x] the two nested loops visit, in order. *)
Definition regionCells (r : Region) : list nat :=
  flat_map
    (fun y => map (fun x => (y * 10 + x)%nat) (seq (minX r) (maxX r + 1 - minX r)))
    (seq (minY r) (maxY r + 1 - minY r)).

(** [maxPressureInRegion] after the loops; an index past the end of the
    matrix reads [undefined], which turns the maximum into [NaN]. *)
Definition regionMax (pressureMatrix : list Z) (r : Region) : option Z :=
  fold_left (fun acc i => mathMax acc (pressureMatrix !! i)) (regionCells r) (Some 0).

(** The body of [gridRegions.forEach] in [checkGridCellsForPressure]: the
    pending timer of the region, if any, is cleared and a new one takes its
    slot. *)
Definition scheduleRegion (pressureMatrix : list Z) (a : AudioRugApp)
    (gr : nat * Region) : AudioRugApp :=
  let '(gridIndex, region) := gr in
  let maxPressure := regionMax pressureMatrix region in
  let pressed := greater maxPressure (pressureThreshold a) in
  let timer := {| deadline := now a + pressureDebounceMs a;
                  isPressed := pressed;
                  maxPressureInRegion := maxPressure |} in
  withGrid (gridCellPressureState a)
           (arraySet None gridIndex (Some timer) (gridCellDebounceTimers a)) a.

Definition checkGridCellsForPressure (pressureMatrix : list Z) (a : AudioRugApp)
  : AudioRugApp :=
  fold_left (scheduleRegion pressureMatrix) (imap pair gridRegions) a.

(** The callback given to [setTimeout], run for the timer in slot
    [gridIndex]. *)
Definition fireTimer (gridIndex : nat) (timer : Timer) (a : AudioRugApp)
  : AudioRugApp :=
  let a0 := withGrid (gridCellPressureState a)
                     (arraySet None gridIndex None (gridCellDebounceTimers a)) a in
  let currentIsPressed := arrayGet false (gridCellPressureState a0) gridIndex in
  if isPressed timer && negb currentIsPressed then
    emit (GridCellPressureChange gridIndex true (maxPressureInRegion timer))
      (withGrid (arraySet false gridIndex true (gridCellPressureState a0))
                (gridCellDebounceTimers a0) a0)
  else if negb (isPressed timer) && currentIsPressed then
    emit (GridCellPressureChange gridIndex false (maxPressureInRegion timer))
      (withGrid (arraySet false gridIndex false (gridCellPressureState a0))
                (gridCellDebounceTimers a0) a0)
  else a0.

(** The timer of a slot runs if it is due at time [t]. *)
Definition runIfDue (t : Z) (a : AudioRugApp) (gridIndex : nat) : AudioRugApp :=
  match arrayGet None (gridCellDebounceTimers a) gridIndex with
  | Some timer => if deadline timer <=? t then fireTimer gridIndex timer a else a
  | None => a
  end.

(** The event loop up to time [t]: the due timers run, in slot order (the
    pending timers were set by one call of [checkGridCellsForPressure], in
    that order and with one deadline). *)
Definition advance (t : Z) (a : AudioRugApp) : AudioRugApp :=
  withNow t
    (fold_left (runIfDue t) (seq 0 (length (gridCellDebounceTimers a))) a).

(** [clearAllActiveEffectsAndSamples], on the fields kept here. *)
Definition clearAllActiveEffectsAndSamples (a : AudioRugApp) : AudioRugApp :=
  withGrid (replicate (length (gridCellPressureState a)) false)
           (replicate (length (gridCellDebounceTimers a)) None) a.

Definition switchMode (mode : Mode) (a : AudioRugApp) : AudioRugApp :=
  let a1 := withMode mode a in
  let a2 :=
    match recordingState a1 with
    | recording => stopRecording a1
    | idle => a1
    end in
  let a3 := withRecording idle false true a2 in
  let a4 := clearAllActiveEffectsAndSamples a3 in
  withLastPressure false a4.

Definition totalPressure (pressureMatrix : list Z) : Z :=
  fold_left Z.add pressureMatrix 0.

Definition handleSerialData (pressureMatrix : list Z) (a : AudioRugApp)
  : AudioRugApp :=
  match currentMode a with
  | RECORD => handleRecordingPressure (totalPressure pressureMatrix) a
  | PERFORM => checkGridCellsForPressure pressureMatrix a
  end.

(** What can happen to the application, and when. *)
Inductive Input : Type :=
| SerialData (pressureMatrix : list Z)
| Sensitivity (value : Z)
| SwitchMode (mode : Mode)
| ManualRecordToggle
| MicrophoneChange (selected : bool)
| RecordingFailed
| CooldownElapsed.

Definition handle (i : Input) (a : AudioRugApp) : AudioRugApp :=
  match i with
  | SerialData m => handleSerialData m a
  | Sensitivity v => updateSensitivity v a
  | SwitchMode mode => switchMode mode a
  | ManualRecordToggle => handleManualRecordToggle a
  | MicrophoneChange b => withMicrophone b a
  | RecordingFailed => recordingFailed a
  | CooldownElapsed => cooldownElapsed a
  end.

(** An input arriving at time [t]: the timers due by then run first. *)
Definition step (a : AudioRugApp) (ti : Z * Input) : AudioRugApp :=
  handle ti.2 (advance ti.1 a).

Definition run (trace : list (Z * Input)) (a : AudioRugApp) : AudioRugApp :=
  fold_left step trace a.

(** The pressed state of a region as a frame shows it under a threshold. *)
Definition instantaneous (threshold : Z) (pressureMatrix : list Z) (gridIndex : nat)
  : bool :=
  match gridRegions !! gridIndex with
  | Some region => greater (regionMax pressureMatrix region) threshold
  | None => false
  end.

(** The evaluation as the design document words it: the instantaneous state
    is read again when the timer fires, from the latest frame and the
    threshold of that moment. *)
Definition fireTimerRereading (latest : list Z) (gridIndex : nat) (timer : Timer)
    (a : AudioRugApp) : AudioRugApp :=
  fireTimer gridIndex
    {| deadline := deadline timer;
       isPressed := instantaneous (pressureThreshold a) latest gridIndex;
       maxPressureInRegion := maxPressureInRegion timer |} a.

(** The performance recorder of the application: its flag and the engine it
    drives. *)
Record PerformanceSession : Type := {
  isPerformanceRecording : bool;
  audioEngine : Engine.AudioEngine
}.

(** The engine call is not awaited, so the flag is set whether or not the
    recorder could be built. *)
Definition startPerformanceRecording (recorderOk : bool) (s : PerformanceSession)
  : PerformanceSession :=
  {| isPerformanceRecording := true;
     audioEngine := fst (Engine.startPerformanceRecording recorderOk (audioEngine s)) |}.

Definition stopPerformanceRecording (s : PerformanceSession) : PerformanceSession :=
  if isPerformanceRecording s then
    {| isPerformanceRecording := false;
       audioEngine := Engine.stopPerformanceRecording (audioEngine s) |}
  else s.

Definition togglePerformanceRecording (recorderOk : bool) (s : PerformanceSession)
  : PerformanceSession :=
  if isPerformanceRecording s then stopPerformanceRecording s
  else startPerformanceRecording recorderOk s.

Definition session : PerformanceSession :=
  {| isPerformanceRecording := false; audioEngine := Engine.initial |}.

(** The two arrays have the nine slots the constructor gives them. *)
Definition wellFormed (a : AudioRugApp) : Prop :=
  length (gridCellPressureState a) = 9%nat
  ∧ length (gridCellDebounceTimers a) = 9%nat.

(** The timer a frame schedules for a region. *)
Definition scheduled (a : AudioRugApp) (pressureMatrix : list Z) (region : Region)
  : Timer :=
  {| deadline := now a + pressureDebounceMs a;
     isPressed := greater (regionMax pressureMatrix region) (pressureThreshold a);
     maxPressureInRegion := regionMax pressureMatrix region |}.

(** The timer of a slot that is due at time [t], if any. *)
Definition pendingDue (t : Z) (a : AudioRugApp) (g : nat) : option Timer :=
  match arrayGet None (gridCellDebounceTimers a) g with
  | Some timer => if deadline timer <=? t then Some timer else None
  | None => None
  end.

(** The call a firing timer makes: none when the state it captured is the
    committed state of its region. *)
Definition transition (a : AudioRugApp) (g : nat) (timer : Timer) : list Event :=
  if bool_decide (isPressed timer = arrayGet false (gridCellPressureState a) g)
  then []
  else [GridCellPressureChange g (isPressed timer) (maxPressureInRegion timer)].

(** The fields a timer callback leaves alone. *)
Definition sameSettings (a a' : AudioRugApp) : Prop :=
  currentMode a' = currentMode a
  ∧ recordingState a' = recordingState a
  ∧ isRecordingOnCooldown a' = isRecordingOnCooldown a
  ∧ recordingReady a' = recordingReady a
  ∧ pressureThreshold a' = pressureThreshold a
  ∧ lastPressureState a' = lastPressureState a
  ∧ pressureDebounceMs a' = pressureDebounceMs a
  ∧ microphoneSelected a' = microphoneSelected a
  ∧ now a' = now a.

(** The slots a frame has just filled, all with one deadline. *)
Definition freshlyScheduled (a : AudioRugApp) : Prop :=
  ∀ g timer, arrayGet None (gridCellDebounceTimers a) g = Some timer →
    deadline timer = now a + pressureDebounceMs a.

(** Frames in PERFORM mode, each with the time since the frame before. *)
Definition feed (frames : list (Z * list Z)) (a : AudioRugApp) : AudioRugApp :=
  fold_left (fun a gf => step a (now a + gf.1, SerialData gf.2)) frames a.

(** Region 0 goes above and below the threshold of 25, a frame every
    20 ms. *)
Definition above : list Z := 200 :: replicate 99 0.
Definition below : list Z := replicate 100 0.
Definition performing : AudioRugApp := switchMode PERFORM constructed.

(** The transition calls the timers of a frame make when they run, region
    by region: one for each region whose pressed state in the frame, under
    the threshold in force when the frame arrived, is not its committed
    state. *)
Definition transitions (a : AudioRugApp) (pressureMatrix : list Z) : list Event :=
  flat_map
    (fun g =>
       match gridRegions !! g with
       | Some region =>
           let pressed := instantaneous (pressureThreshold a) pressureMatrix g in
           if bool_decide (pressed = arrayGet false (gridCellPressureState a) g)
           then []
           else [GridCellPressureChange g pressed (regionMax pressureMatrix region)]
       | None => []
       end)
    (seq 0 9).

(** The mat is pressed in every frame of the trace, under the threshold in
    force when the frame arrives, and the trace has no mode switch.  Every
    other input is allowed, the record button included. *)
Fixpoint matPressedThroughout (trace : list (Z * Input)) (a : AudioRugApp)
  : Prop :=
  match trace with
  | [] => True
  | ti :: rest =>
      match ti.2 with
      | SerialData m => pressureThreshold (advance ti.1 a) < totalPressure m
      | SwitchMode _ => False
      | _ => True
      end
      ∧ matPressedThroughout rest (step a ti)
  end.

(** The gate is closed, in the mode the constructor sets. *)
Definition waiting (a : AudioRugApp) : Prop :=
  recordingReady a = false ∧ currentMode a = RECORD.

Definition toggles (recorderOks : list bool) (s : PerformanceSession)
  : PerformanceSession :=
  fold_left (fun s ok => togglePerformanceRecording ok s) recorderOks s.

(** Only the recorder the engine holds can be capturing, and none is while
    the flag is down. *)
Definition oneCapture (s : PerformanceSession) : Prop :=
  Engine.capturing (audioEngine s)
  ⊆ match Engine.performanceRecorder (audioEngine s) with
    | Some r => {[r]}
    | None => ∅
    end
  ∧ (isPerformanceRecording s = false → Engine.capturing (audioEngine s) = ∅).

(** The sensor indices read for the region of a slot; none for a slot
    without a region. *)
Definition cellsOf (gridIndex : nat) : list nat :=
  match gridRegions !! gridIndex with
  | Some region => regionCells region
  | None => []
  end.

(** The recording calls of a log, read in order: [Some true] while a start
    has not been answered by a stop, [Some false] otherwise, and [None]
    once a stop was called with no start since the stop before it. *)
Definition recorderProtocol (open : option bool) (ev : Event) : option bool :=
  match open, ev with
  | Some _, RecordingStarted => Some true
  | Some true, RecordingStopped => Some false
  | Some false, RecordingStopped => None
  | _, _ => open
  end.

(** Inputs that leave a running cooldown alone: all but the cooldown
    callback and a mode switch. *)
Definition keepsCooldown (i : Input) : Prop :=
  match i with
  | CooldownElapsed | SwitchMode _ => False
  | _ => True
  end.

(** Inputs that do not select a microphone. *)
Definition keepsMicrophoneOff (i : Input) : Prop :=
  match i with
  | MicrophoneChange selected => selected = false
  | _ => True
  end.

(** Total pressures handled one after the other in RECORD mode. *)
Definition recordingPressures (totals : list Z) (a : AudioRugApp) : AudioRugApp :=
  fold_left (fun a total => handleRecordingPressure total a) totals a.

(** What a call does to the recording machine: the calls [new] it adds to
    the log and how they relate to the state before and after. *)
Record recordingStep (a a' : AudioRugApp) (new : list Event) : Prop := {
  step_events : events a' = events a ++ new;
  step_started :
    new = [RecordingStarted] →
    recordingState a = idle ∧ isRecordingOnCooldown a = false
    ∧ microphoneSelected a = true ∧ recordingState a' = recording;
  step_stopped :
    new = [RecordingStopped] →
    recordingState a = recording ∧ recordingState a' = idle;
  step_silent :
    new = [] → recordingState a' = recording → recordingState a = recording;
  step_shape :
    new = [] ∨ new = [RecordingStarted] ∨ new = [RecordingStopped]
}.


(** Logs without recording calls, as the timers of the debounce logic
    produce them. *)
Definition gridEvents (evs : list Event) : Prop :=
  Forall (fun ev => ev ≠ RecordingStarted ∧ ev ≠ RecordingStopped) evs.


(** The transition calls of a region in a log, read in order: the pressed
    state of the last call, starting from unpressed, and [None] once a
    call repeated the state of the call before it. *)
Definition regionProtocol (g : nat) (last : option bool) (ev : Event) : option bool :=
  match last, ev with
  | Some b, GridCellPressureChange g' pressed _ =>
      if Nat.eqb g' g then (if Bool.eqb pressed b then None else Some pressed)
      else last
  | _, _ => last
  end.

(** Inputs other than a mode switch. *)
Definition keepsMode (i : Input) : Prop :=
  match i with
  | SwitchMode _ => False
  | _ => True
  end.

End App.

(** ** The sample player of AudioRugApp (script.js) *)

Module Perform.

(** A recorded sample: [{ id, name, blob, duration, timestamp }], of which
    the identifier and the blob (by identity, [None] when it is missing)
    are kept. *)
Record Sample : Type := {
  id : Z;
  blob : option nat
}.

(** The text of the status element of a grid cell. *)
Inductive Status : Type := Blank | PLAYING | NO_SAMPLE.

(** A child of [performGrid]: its data attributes [sample] (as [parseInt]
    reads it back) and [effect], whether it carries the class 'active',
    and the text of its status element. *)
Record Cell : Type := {
  sample : nat;
  effect : string;
  active : bool;
  status : Status
}.

(** An entry of [activeSampleSources]: [{ sampleIndex, effectName }]. *)
Record Tracked : Type := {
  sampleIndex : nat;
  effectName : string
}.

(** A JavaScript [Map] with number keys: the entries in insertion order. *)
Definition mapHas {A} (k : nat) (m : list (nat * A)) : bool :=
  existsb (fun kv => Nat.eqb kv.1 k) m.

Definition mapGet {A} (k : nat) (m : list (nat * A)) : option A :=
  snd <$> List.find (fun kv => Nat.eqb kv.1 k) m.

Definition mapSet {A} (k : nat) (v : A) (m : list (nat * A)) : list (nat * A) :=
  if mapHas k m
  then map (fun kv => if Nat.eqb kv.1 k then (k, v) else kv) m
  else m ++ [(k, v)].

Definition mapDelete {A} (k : nat) (m : list (nat * A)) : list (nat * A) :=
  List.filter (fun kv => negb (Nat.eqb kv.1 k)) m.

(** The part of the application that plays the samples: the state
    machines of the sections above, the sample list, the grid cells, the
    map of the cells that play, the effects switch and the engine. *)
Record Performer : Type := {
  machine : App.AudioRugApp;
  samples : list Sample;
  cells : list Cell;
  activeSampleSources : list (nat * Tracked);
  effectsEnabled : bool;
  audioEngine : Engine.AudioEngine
}.

Definition withMachine (m : App.AudioRugApp) (p : Performer) : Performer :=
  {| machine := m; samples := samples p; cells := cells p;
     activeSampleSources := activeSampleSources p;
     effectsEnabled := effectsEnabled p; audioEngine := audioEngine p |}.

Definition withSamples (s : list Sample) (p : Performer) : Performer :=
  {| machine := machine p; samples := s; cells := cells p;
     activeSampleSources := activeSampleSources p;
     effectsEnabled := effectsEnabled p; audioEngine := audioEngine p |}.

Definition withCells (c : list Cell) (p : Performer) : Performer :=
  {| machine := machine p; samples := samples p; cells := c;
     activeSampleSources := activeSampleSources p;
     effectsEnabled := effectsEnabled p; audioEngine := audioEngine p |}.

Definition withSources (m : list (nat * Tracked)) (p : Performer) : Performer :=
  {| machine := machine p; samples := samples p; cells := cells p;
     activeSampleSources := m;
     effectsEnabled := effectsEnabled p; audioEngine := audioEngine p |}.

Definition withEffectsEnabled (b : bool) (p : Performer) : Performer :=
  {| machine := machine p; samples := samples p; cells := cells p;
     activeSampleSources := activeSampleSources p;
     effectsEnabled := b; audioEngine := audioEngine p |}.

Definition withEngine (e : Engine.AudioEngine) (p : Performer) : Performer :=
  {| machine := machine p; samples := samples p; cells := cells p;
     activeSampleSources := activeSampleSources p;
     effectsEnabled := effectsEnabled p; audioEngine := e |}.

(** The sample index [updateGridSampleTitles] gives a cell, from the
    number of samples: the cell's own index with nine samples or more,
    the samples in turn with four to eight, and one sample per row with
    three or fewer. *)
Definition sampleIndexFor (length gridIndex : nat) : nat :=
  if (9 <=? length)%nat then gridIndex
  else if (3 <? length)%nat then
    if (gridIndex <? length)%nat then gridIndex else (gridIndex mod length)%nat
  else ((gridIndex / 3) mod Nat.max 1 length)%nat.

Definition setSample (i : nat) (c : Cell) : Cell :=
  {| sample := i; effect := effect c; active := active c; status := status c |}.

Definition setEffect (name : string) (c : Cell) : Cell :=
  {| sample := sample c; effect := name; active := active c; status := status c |}.

Definition setVisual (isActive : bool) (text : Status) (c : Cell) : Cell :=
  {| sample := sample c; effect := effect c; active := isActive; status := text |}.

Definition updateGridSampleTitles (p : Performer) : Performer :=
  withCells
    (imap (fun gridIndex cell =>
             setSample (sampleIndexFor (length (samples p)) gridIndex) cell)
          (cells p))
    p.

(** [updateSamplesList]: with no sample it returns before the grid is
    updated. *)
Definition updateSamplesList (p : Performer) : Performer :=
  match samples p with
  | [] => p
  | _ => updateGridSampleTitles p
  end.

(** The end of [stopRecording] when the recording is kept: the sample is
    pushed and the list is shown. *)
Definition sampleRecorded (s : Sample) (p : Performer) : Performer :=
  updateSamplesList (withSamples (samples p ++ [s]) p).

Definition deleteSample (sampleId : Z) (p : Performer) : Performer :=
  updateSamplesList
    (withSamples (List.filter (fun s => negb (Z.eqb (id s) sampleId)) (samples p)) p).

(** [clearSamples], once confirmed. *)
Definition clearSamples (p : Performer) : Performer :=
  updateSamplesList (withSamples [] p).

Definition updateGridCellVisual (gridIndex : nat) (isActive isError : bool)
    (p : Performer) : Performer :=
  match cells p !! gridIndex with
  | None => p
  | Some cell =>
      let cell' :=
        if isActive
        then setVisual true (if isError then NO_SAMPLE else PLAYING) cell
        else setVisual false Blank cell in
      withCells (<[gridIndex := cell']> (cells p)) p
  end.

Definition stopSampleWithEffect (gridIndex : nat) (p : Performer) : Performer :=
  if mapHas gridIndex (activeSampleSources p) then
    withSources (mapDelete gridIndex (activeSampleSources p))
      (withEngine
         (Engine.stopLoopedSampleWithEffect (Z.of_nat gridIndex) (audioEngine p)) p)
  else p.

(** A call of [startSampleWithEffect] that waits for the engine: the
    variables its continuation closes over, and the effect name that was
    passed to the engine. *)
Record Starting : Type := {
  gridIndex : nat;
  entry : Tracked;
  passed : option string
}.

(** [startSampleWithEffect] up to its [await]: the checks, and the part of
    the engine call that runs at once. *)
Definition startSampleWithEffectBegin (g i : nat) (name : string) (p : Performer)
  : Performer * option Starting :=
  match samples p !! i ≫= blob with
  | None => (updateGridCellVisual g true true p, None)
  | Some _ =>
      if mapHas g (activeSampleSources p) then (p, None)
      else
        (withEngine
           (Engine.startLoopedSampleWithEffectBegin (Z.of_nat g) (audioEngine p)) p,
         Some {| gridIndex := g;
                 entry := {| sampleIndex := i; effectName := name |};
                 passed := if effectsEnabled p then Some name else None |})
  end.

(** The rest of [startSampleWithEffect], when the engine call returns. *)
Definition startSampleWithEffectEnd (c : Starting) (setup : Engine.Setup)
    (p : Performer) : Performer :=
  let '(e, success) :=
    Engine.startLoopedSampleWithEffectEnd (Z.of_nat (gridIndex c)) setup
      (passed c) 1.0 (audioEngine p) in
  if success then
    updateGridCellVisual (gridIndex c) true false
      (withSources (mapSet (gridIndex c) (entry c) (activeSampleSources p))
         (withEngine e p))
  else
    withEngine
      (Engine.stopLoopedSampleWithEffect (Z.of_nat (gridIndex c))
         (audioEngine (updateGridCellVisual (gridIndex c) true true (withEngine e p))))
      (updateGridCellVisual (gridIndex c) true true (withEngine e p)).

(** [startSampleWithEffect] when nothing else runs while it waits. *)
Definition startSampleWithEffect (setup : Engine.Setup) (g i : nat) (name : string)
    (p : Performer) : Performer :=
  match startSampleWithEffectBegin g i name p with
  | (p1, Some c) => startSampleWithEffectEnd c setup p1
  | (p1, None) => p1
  end.

(** [handleGridCellPressureChange] up to the [await] of the start it may
    make. *)
Definition handleGridCellPressureChangeBegin (g : nat) (isPressed : bool)
    (p : Performer) : Performer * option Starting :=
  match cells p !! g with
  | None => (p, None)
  | Some cell =>
      let '(p1, starting) :=
        match App.currentMode (machine p) with
        | App.PERFORM =>
            if isPressed
            then startSampleWithEffectBegin g (sample cell) (effect cell) p
            else (stopSampleWithEffect g p, None)
        | App.RECORD => (p, None)
        end in
      (updateGridCellVisual g isPressed false p1, starting)
  end.

Definition handleGridCellPressureChange (setup : Engine.Setup) (g : nat)
    (isPressed : bool) (p : Performer) : Performer :=
  match handleGridCellPressureChangeBegin g isPressed p with
  | (p1, Some c) => startSampleWithEffectEnd c setup p1
  | (p1, None) => p1
  end.

Definition changeGridCellEffect (g : nat) (newEffect : string) (p : Performer)
  : Performer :=
  match cells p !! g with
  | None => p
  | Some _ =>
      let p1 :=
        if mapHas g (activeSampleSources p) then stopSampleWithEffect g p else p in
      match cells p1 !! g with
      | Some cell => withCells (<[g := setEffect newEffect cell]> (cells p1)) p1
      | None => p1
      end
  end.

(** [toggleEffects]: the switch is flipped and every cell that plays is
    stopped; the result lists, in the order of the map, the restarts that
    are set to run 50 ms later. *)
Definition toggleEffects (p : Performer) : Performer * list (nat * Tracked) :=
  let p1 := withEffectsEnabled (negb (effectsEnabled p)) p in
  (fold_left (fun q kv => stopSampleWithEffect kv.1 q) (activeSampleSources p1) p1,
   activeSampleSources p1).

(** The callback of a restart. *)
Definition restart (setup : Engine.Setup) (p : Performer) (kv : nat * Tracked)
  : Performer :=
  startSampleWithEffect setup kv.1 (sampleIndex kv.2) (effectName kv.2) p.

(** [clearAllActiveEffectsAndSamples]: the voices of the cells that play
    are stopped in the order of the map, the map is emptied, the state
    machine of the regions is reset and every cell is shown idle. *)
Definition clearAllActiveEffectsAndSamples (p : Performer) : Performer :=
  let e := fold_left
             (fun e kv => Engine.stopLoopedSampleWithEffect (Z.of_nat kv.1) e)
             (activeSampleSources p) (audioEngine p) in
  withCells (map (setVisual false Blank) (cells p))
    (withMachine (App.clearAllActiveEffectsAndSamples (machine p))
       (withSources [] (withEngine e p))).

(** [switchMode]: the state machines are switched as above, and the
    voices are cleared. *)
Definition switchMode (mode : App.Mode) (p : Performer) : Performer :=
  let p1 := clearAllActiveEffectsAndSamples p in
  withMachine (App.switchMode mode (machine p)) p1.

(** The calls of the debounce logic, handed to
    [handleGridCellPressureChange]; every start completes with the given
    outcome before the next call. *)
Definition dispatch (setup : Engine.Setup) (evs : list App.Event) (p : Performer)
  : Performer :=
  fold_left
    (fun p ev =>
       match ev with
       | App.GridCellPressureChange g isPressed _ =>
           handleGridCellPressureChange setup g isPressed p
       | _ => p
       end)
    evs p.

(** The application after its constructor and [completeInitialization],
    with nine cells that carry the given effects. *)
Definition loaded (effects : list string) : Performer :=
  {| machine := App.constructed;
     samples := [];
     cells := map (fun name => {| sample := 0; effect := name;
                                  active := false; status := Blank |}) effects;
     activeSampleSources := [];
     effectsEnabled := true;
     audioEngine := Engine.initial |}.

(** What the application tracks is what the engine plays: the keys of
    [activeSampleSources], each once, are the regions with a registered
    voice, and the voice of a tracked cell carries the effect of its entry
    or none. *)
Definition tracks (p : Performer) : Prop :=
  NoDup (map fst (activeSampleSources p))
  ∧ (∀ z, is_Some (Engine.activeLoopedSources (audioEngine p) !! z)
          ↔ ∃ g, z = Z.of_nat g ∧ mapHas g (activeSampleSources p) = true)
  ∧ ∀ g t v,
      mapGet g (activeSampleSources p) = Some t →
      Engine.activeLoopedSources (audioEngine p) !! Z.of_nat g = Some v →
      Engine.effectName v = None ∨ Engine.effectName v = Some (effectName t).

(** The operations of the user interface and of the sensor on the voices,
    each run to its end before the next. *)
Inductive Op : Type :=
| PressureChange (g : nat) (isPressed : bool) (setup : Engine.Setup)
| ChangeGridCellEffect (g : nat) (newEffect : string)
| ToggleEffects (setup : Engine.Setup)
| SwitchMode (mode : App.Mode)
| SampleRecorded (s : Sample)
| DeleteSample (sampleId : Z)
| ClearSamples.

Definition op (p : Performer) (o : Op) : Performer :=
  match o with
  | PressureChange g isPressed setup => handleGridCellPressureChange setup g isPressed p
  | ChangeGridCellEffect g newEffect => changeGridCellEffect g newEffect p
  | ToggleEffects setup =>
      let '(p1, restarts) := toggleEffects p in
      fold_left (restart setup) restarts p1
  | SwitchMode mode => switchMode mode p
  | SampleRecorded s => sampleRecorded s p
  | DeleteSample sampleId => deleteSample sampleId p
  | ClearSamples => clearSamples p
  end.

Definition ops (os : list Op) (p : Performer) : Performer := fold_left op os p.

(** A frame handled by the whole application. *)
Definition handleSerialData (pressureMatrix : list Z) (p : Performer) : Performer :=
  withMachine (App.handleSerialData pressureMatrix (machine p)) p.

(** The event loop of the whole application up to time [t]: the timers of
    the debounce logic that are due run, and the calls they make are
    handled in the order they are made, every start completing with the
    given outcome before the next call. *)
Definition advance (setup : Engine.Setup) (t : Z) (p : Performer) : Performer :=
  let m := App.advance t (machine p) in
  dispatch setup (drop (length (App.events (machine p))) (App.events m))
    (withMachine m p).

(** The cells that play are the regions committed as pressed. *)
Definition agrees (p : Performer) : Prop :=
  ∀ g, (g < 9)%nat →
    mapHas g (activeSampleSources p)
    = App.arrayGet false (App.gridCellPressureState (machine p)) g.

(** Every cell has a sample to play. *)
Definition playable (p : Performer) : Prop :=
  ∀ g cell, cells p !! g = Some cell → is_Some (samples p !! sample cell ≫= blob).

End Perform.

(** * Properties *)

(** ** Serial frame decoder *)

Module SerialFacts.
Import Serial.

Lemma clamp_range v : 0 <= clamp v <= 255.
Proof. unfold clamp. lia. Qed.

Lemma decodeValue_range tok : 0 <= decodeValue tok <= 255.
Proof. apply clamp_range. Qed.

(** [trimStart] removes a prefix. *)
Lemma trimStart_suffix s : ∃ p, s = p ++ trimStart s.
Proof.
  induction s as [|c s IH]; simpl.
  - by exists [].
  - destruct (isWhiteSpace c).
    + destruct IH as [p Hp]. exists (c :: p). simpl. by rewrite <- Hp.
    + by exists [].
Qed.

Lemma trimStart_head s c rest :
  trimStart s = c :: rest → isWhiteSpace c = false.
Proof.
  induction s as [|d s IH]; simpl; [done|].
  destruct (isWhiteSpace d) eqn:Hd; [done|].
  intros [= <- _]. done.
Qed.

Lemma trimStart_fixed c rest :
  isWhiteSpace c = false → trimStart (c :: rest) = c :: rest.
Proof. intros H. simpl. by rewrite H. Qed.

(** [trimEnd] keeps a prefix. *)
Lemma trimEnd_prefix s : ∃ q, s = trimEnd s ++ q.
Proof.
  unfold trimEnd. destruct (trimStart_suffix (rev s)) as [p Hp].
  exists (rev p). rewrite <- rev_app_distr, <- Hp. by rewrite rev_involutive.
Qed.

(** What [parseInt] reads of a trimmed token is a prefix of what follows
    the sign of the token. *)
Lemma afterSign_trim tok : ∃ q, afterSign tok = afterSign (trim tok) ++ q.
Proof.
  unfold trim, afterSign.
  destruct (trimEnd_prefix (trimStart tok)) as [q Hq].
  destruct (trimStart tok) as [|c rest] eqn:Hs.
  - by exists [].
  - pose proof (trimStart_head _ _ _ Hs) as Hc.
    destruct (trimEnd (c :: rest)) as [|c' rest'] eqn:He.
    + simpl. eexists. done.
    + simpl in Hq. injection Hq as <- Hrest.
      rewrite trimStart_fixed by done.
      destruct (N.eqb c MINUS || N.eqb c PLUS); exists q; by rewrite Hrest.
Qed.

Lemma digitValue_decimal c d :
  digitValue 10 c = Some d → isDecimalDigit c = true.
Proof.
  unfold digitValue, isDecimalDigit.
  destruct ((48 <=? c)%N && (c <=? 57)%N); [done|].
  destruct ((97 <=? c)%N && (c <=? 122)%N) eqn:H1.
  - destruct (Z.ltb_spec (Z.of_N c - 97 + 10) 10); [|done].
    apply andb_true_iff in H1 as [H1 _]. apply N.leb_le in H1. lia.
  - destruct ((65 <=? c)%N && (c <=? 90)%N) eqn:H2; [|done].
    destruct (Z.ltb_spec (Z.of_N c - 65 + 10) 10); [|done].
    apply andb_true_iff in H2 as [H2 _]. apply N.leb_le in H2. lia.
Qed.

Lemma parseInt_afterSign s :
  trimStart s = s →
  parseInt s =
    let sign := match s with
                | c :: _ => if N.eqb c MINUS then -1 else 1
                | [] => 1
                end in
    let '(radix, s3) := stripPrefix (afterSign s) in
    match digitsPrefix radix s3 with
    | [] => None
    | ds => Some (sign * mathInt radix ds)
    end.
Proof.
  intros Hs. unfold parseInt, afterSign. rewrite Hs.
  destruct s as [|c rest]; [done|].
  destruct (N.eqb c MINUS) eqn:Hm; [done|].
  destruct (N.eqb c PLUS) eqn:Hp; done.
Qed.

Lemma trim_trimStart tok : trimStart (trim tok) = trim tok.
Proof.
  unfold trim.
  destruct (trimEnd_prefix (trimStart tok)) as [q Hq].
  destruct (trimEnd (trimStart tok)) as [|c rest] eqn:He; [done|].
  destruct (trimStart tok) as [|c' rest'] eqn:Hs; [done|].
  simpl in Hq. injection Hq as -> _.
  apply trimStart_fixed. eapply trimStart_head. exact Hs.
Qed.

Lemma stripPrefix_not_zero c rest :
  N.eqb c ZERO = false → stripPrefix (c :: rest) = (10, c :: rest).
Proof. intros H. unfold stripPrefix. destruct rest; [done|]. by rewrite H. Qed.

(** A token without a leading decimal digit is read as zero. *)
Lemma decodeValue_nonNumeric tok : nonNumeric tok → decodeValue tok = 0.
Proof.
  unfold nonNumeric, decodeValue. intros Hnn.
  assert (parseInt (trim tok) = None) as ->; [|done].
  rewrite parseInt_afterSign by apply trim_trimStart.
  destruct (afterSign_trim tok) as [q Hq]. rewrite Hq in Hnn.
  destruct (afterSign (trim tok)) as [|c0 rest]; [done|].
  simpl in Hnn.
  rewrite stripPrefix_not_zero.
  - cbv zeta. simpl. destruct (digitValue 10 c0) eqn:Hv; [|done].
    apply digitValue_decimal in Hv. congruence.
  - apply N.eqb_neq. intros ->. done.
Qed.

Lemma digitChar_value d : 0 <= d <= 9 → digitValue 10 (digitChar d) = Some d.
Proof.
  intros Hd. unfold digitValue, digitChar.
  assert (((48 <=? Z.to_N (48 + d))%N && (Z.to_N (48 + d) <=? 57)%N) = true) as ->.
  { apply andb_true_iff; split; apply N.leb_le; lia. }
  rewrite Z2N.id by lia.
  replace (48 + d - 48) with d by lia.
  destruct (Z.ltb_spec d 10); [done|lia].
Qed.

Lemma digitsPrefix_digits ds :
  Forall (fun d => 0 <= d <= 9) ds → digitsPrefix 10 (map digitChar ds) = ds.
Proof.
  induction 1 as [|d ds Hd _ IH]; simpl; [done|].
  by rewrite digitChar_value, IH.
Qed.

Lemma digitChar_plain d :
  0 <= d <= 9 →
  isWhiteSpace (digitChar d) = false ∧ N.eqb (digitChar d) MINUS = false
  ∧ N.eqb (digitChar d) PLUS = false ∧ N.eqb (digitChar d) LOWER_X = false
  ∧ N.eqb (digitChar d) UPPER_X = false.
Proof.
  intros Hd. unfold digitChar.
  assert (d = 0 ∨ d = 1 ∨ d = 2 ∨ d = 3 ∨ d = 4 ∨ d = 5 ∨ d = 6 ∨ d = 7
          ∨ d = 8 ∨ d = 9) as Hc by lia.
  repeat destruct Hc as [-> | Hc]; try subst d; done.
Qed.

Lemma trimEnd_snoc s c :
  isWhiteSpace c = false → trimEnd (s ++ [c]) = s ++ [c].
Proof.
  intros Hc. unfold trimEnd. rewrite rev_app_distr. simpl.
  rewrite Hc. simpl. by rewrite rev_involutive.
Qed.

Lemma numeral_head negative ds :
  decimalDigits ds →
  ∃ c rest, numeral negative ds = c :: rest ∧ isWhiteSpace c = false.
Proof.
  intros [Hne Hds]. unfold numeral. destruct negative; simpl.
  - by eexists _, _.
  - destruct Hds as [|d ds Hd _]; [done|]. simpl.
    eexists _, _. split; [done|]. by apply digitChar_plain.
Qed.

Lemma numeral_trimStart negative ds :
  decimalDigits ds → trimStart (numeral negative ds) = numeral negative ds.
Proof.
  intros H. destruct (numeral_head negative ds H) as (c & rest & -> & Hc).
  by apply trimStart_fixed.
Qed.

Lemma numeral_trim negative ds :
  decimalDigits ds → trim (numeral negative ds) = numeral negative ds.
Proof.
  intros H. unfold trim. rewrite numeral_trimStart by done.
  destruct H as [Hne Hds]. unfold numeral.
  destruct (exists_last Hne) as (ds' & d & ->).
  rewrite map_app, app_assoc. simpl. apply trimEnd_snoc.
  apply Forall_app in Hds as [_ Hd]. apply Forall_inv in Hd.
  by apply digitChar_plain.
Qed.

Lemma numeral_afterSign negative ds :
  decimalDigits ds → afterSign (numeral negative ds) = map digitChar ds.
Proof.
  intros H. unfold afterSign. rewrite numeral_trimStart by done.
  destruct H as [Hne Hds]. unfold numeral. destruct negative; [done|].
  destruct Hds as [|d ds Hd _]; [done|]. simpl.
  destruct (digitChar_plain d Hd) as (_ & -> & -> & _). done.
Qed.

Lemma stripPrefix_digits ds :
  Forall (fun d => 0 <= d <= 9) ds →
  stripPrefix (map digitChar ds) = (10, map digitChar ds).
Proof.
  intros Hds. unfold stripPrefix.
  destruct Hds as [|d ds Hd Hds]; [done|]. simpl.
  destruct Hds as [|d' ds Hd' _]; [done|]. simpl.
  destruct (digitChar_plain d' Hd') as (_ & _ & _ & -> & ->).
  by rewrite andb_false_r.
Qed.

(** A decimal numeral is read as its value. *)
Lemma parseInt_numeral negative ds :
  decimalDigits ds →
  parseInt (numeral negative ds) = Some (numeralValue negative ds).
Proof.
  intros H. rewrite parseInt_afterSign by by apply numeral_trimStart.
  rewrite numeral_afterSign by done. destruct H as [Hne Hds].
  rewrite stripPrefix_digits by done. cbv zeta.
  rewrite digitsPrefix_digits by done.
  destruct ds as [|d ds]; [done|]. unfold numeralValue, numeral.
  destruct negative; simpl app; [done|].
  simpl map. destruct (digitChar_plain d (Forall_inv Hds)) as (_ & -> & _). done.
Qed.

Lemma decodeValue_numeral negative ds :
  decimalDigits ds →
  decodeValue (numeral negative ds) = clamp (numeralValue negative ds).
Proof.
  intros H. unfold decodeValue.
  by rewrite numeral_trim, parseInt_numeral.
Qed.

(** [split] at the first separator. *)
Lemma split_no_sep sep s : sep ∉ s → split sep s = [s].
Proof.
  induction s as [|c s IH]; [done|].
  intros Hn. apply not_elem_of_cons in Hn as [Hc Hs]. simpl.
  destruct (N.eqb_spec c sep); [congruence|]. by rewrite IH.
Qed.

Lemma split_app sep s1 s2 :
  sep ∉ s1 → split sep (s1 ++ sep :: s2) = s1 :: split sep s2.
Proof.
  induction s1 as [|c s1 IH]; simpl.
  - by rewrite N.eqb_refl.
  - intros Hn. apply not_elem_of_cons in Hn as [Hc Hs].
    destruct (N.eqb_spec c sep); [congruence|]. by rewrite IH.
Qed.

Lemma processIncomingData_two_lines h line1 line2 :
  readBuffer h = [] → LF ∉ line1 → LF ∉ line2 →
  processIncomingData h (line1 ++ LF :: line2 ++ [LF])
  = ({| readBuffer := []; onDataReceived := onDataReceived h |},
     processLine h line1 ++ processLine h line2).
Proof.
  intros Hb H1 H2. unfold processIncomingData. rewrite Hb. simpl app.
  rewrite split_app by done. rewrite split_app by done.
  simpl. by rewrite app_nil_r.
Qed.

Lemma Forall_map_all {A B} (f : A → B) (P : B → Prop) (l : list A) :
  (∀ x, P (f x)) → Forall P (map f l).
Proof. intros H. induction l; simpl; constructor; auto. Qed.

Lemma Forall2_map_all {A B} (f : A → B) (R : A → B → Prop) (l : list A) :
  (∀ x, R x (f x)) → Forall2 R l (map f l).
Proof. intros H. induction l; simpl; constructor; auto. Qed.

Lemma decodeValue_readsAs tok : readsAs tok (decodeValue tok).
Proof.
  split; [apply decodeValue_range|]. split; [apply decodeValue_nonNumeric|].
  intros negative ds Hds -> n. rewrite decodeValue_numeral by done.
  fold n. unfold clamp. lia.
Qed.

(** A line of 100 tokens gives one frame, value by value. *)
Lemma parseSerialData_100 h line :
  onDataReceived h = true → length (split COMMA line) = 100%nat →
  parseSerialData h line = [Frame (map decodeValue (split COMMA line))].
Proof.
  intros Hobs Hlen. unfold parseSerialData. by rewrite Hlen, Hobs.
Qed.

Lemma trim_not_nil_processLine h line :
  trim line = line → line ≠ [] → processLine h line = parseSerialData h line.
Proof.
  intros Ht Hne. unfold processLine. rewrite Ht. by destruct line.
Qed.

(** C2.  A line handed to [parseSerialData] while an observer is registered
    is split on commas.  If that gives exactly 100 tokens, the observer
    receives exactly one frame and no warning is issued; the frame has 100
    values, one for each token in order: each lies in [0,255], is 0 for a
    token that does not start with a number, and for a decimal numeral is
    the number itself when it lies in [0,255], 0 when it is negative and
    255 when it is larger.  If splitting gives another number of tokens, no
    frame is handed over and one malformed-line warning with that number is
    issued.  Whatever the outcome of the line, the line that follows it in
    the stream is processed: when that one has 100 tokens, what
    [processIncomingData] hands out for the two is the outcome of the
    first followed by the frame of the second, read in the same way. *)
Theorem parseSerialData_frame (h : SerialHandler) (line : list N) :
  onDataReceived h = true →
  let values := split COMMA line in
  let out := parseSerialData h line in
  ((length values = 100%nat
    ∧ ∃ frame, out = [Frame frame]
        ∧ length frame = 100%nat
        ∧ Forall2 readsAs values frame)
   ∨ (length values ≠ 100%nat
      ∧ framesOf out = [] ∧ out = [Malformed (length values)]))
  ∧ (∀ next, readBuffer h = [] → LF ∉ line → LF ∉ next →
       trim line = line → line ≠ [] →
       length (split COMMA (trim next)) = 100%nat →
       ∃ frame,
         (processIncomingData h (line ++ LF :: next ++ [LF])).2
         = out ++ [Frame frame]
         ∧ length frame = 100%nat
         ∧ Forall2 readsAs (split COMMA (trim next)) frame).
Proof.
  intros Hobs values out. split.
  - subst out. unfold parseSerialData. fold values. rewrite Hobs.
    destruct (Nat.eqb_spec (length values) 100) as [Hlen|Hlen].
    + left. split; [done|]. exists (map decodeValue values).
      split; [done|]. split; [by rewrite length_map|].
      apply Forall2_map_all, decodeValue_readsAs.
    + right. done.
  - intros next Hb H1 H2 Htrim Hne Hlen.
    exists (map decodeValue (split COMMA (trim next))).
    split; [|split; [by rewrite length_map, Hlen
                    |apply Forall2_map_all, decodeValue_readsAs]].
    rewrite processIncomingData_two_lines by done. cbn [snd].
    rewrite trim_not_nil_processLine by done. f_equal.
    unfold processLine.
    destruct (trim next) as [|c rest] eqn:Hnext; [by vm_compute in Hlen|].
    by apply parseSerialData_100.
Qed.

Lemma not_elem_of_checked (c : N) (l : list N) :
  forallb (fun x => negb (N.eqb x c)) l = true → c ∉ l.
Proof.
  induction l as [|x l IH]; simpl; [intros _; apply not_elem_of_nil|].
  intros H. apply andb_true_iff in H as [Hx Hl].
  apply not_elem_of_cons. split; [|by apply IH].
  intros ->. by rewrite N.eqb_refl in Hx.
Qed.

(** The value a frame holds for a token that is a decimal numeral. *)
Lemma readsAs_numeral negative ds v :
  decimalDigits ds → readsAs (numeral negative ds) v →
  v = Z.max 0 (Z.min 255 (numeralValue negative ds)).
Proof.
  intros Hds (_ & _ & Hnum).
  destruct (Hnum negative ds Hds eq_refl) as (Hlo & Hin & Hhi). lia.
Qed.

Lemma Forall2_replicate_l {A B} (R : A → B → Prop) (n : nat) (x : A) (y : B)
    (l : list B) :
  (∀ v, R x v → v = y) → Forall2 R (replicate n x) l → l = replicate n y.
Proof.
  intros Hy. revert l. induction n as [|n IH]; intros l H; simpl in *.
  - by inversion H.
  - inversion H as [|? v ? l' Hv Hl]; subst. f_equal; [by apply Hy|by apply IH].
Qed.

(** The frame the theorem gives for the line 7,300,...,300. *)
Lemma sampleLine_frame frame :
  Forall2 readsAs (split COMMA sampleLine) frame → frame = 7 :: replicate 99 255.
Proof.
  change (split COMMA sampleLine)
    with (numeral false [7] :: replicate 99 (numeral false [3; 0; 0])).
  intros H. inversion H as [|? v ? rest Hv Hrest]; subst. f_equal.
  - apply (readsAs_numeral false [7]) in Hv; [exact Hv|].
    split; [done|]. repeat constructor; lia.
  - eapply Forall2_replicate_l; [|exact Hrest].
    intros w Hw. apply (readsAs_numeral false [3; 0; 0]) in Hw; [exact Hw|].
    split; [done|]. repeat constructor; lia.
Qed.

Lemma parseSerialData_frame_witness :
  onDataReceived listening = true
  ∧ parseSerialData listening sampleLine = [Frame (7 :: replicate 99 255)]
  ∧ parseSerialData listening (js "1,2") = [Malformed 2]
  ∧ (processIncomingData listening (js "1,2" ++ LF :: sampleLine ++ [LF])).2
    = [Malformed 2; Frame (7 :: replicate 99 255)].
Proof.
  split; [reflexivity|].
  destruct (parseSerialData_frame listening sampleLine eq_refl) as [Hparse _].
  destruct (parseSerialData_frame listening (js "1,2") eq_refl) as [Hshort Hnext].
  assert (parseSerialData listening (js "1,2") = [Malformed 2]) as Hbad.
  { destruct Hshort as [(Hlen & _)|(_ & _ & Hout)]; [by vm_compute in Hlen|].
    exact Hout. }
  split; [|split; [exact Hbad|]].
  - destruct Hparse as [(_ & frame & Hout & _ & Hreads)|(Hlen & _)].
    + rewrite Hout. by rewrite (sampleLine_frame frame Hreads).
    + exfalso. apply Hlen. vm_compute. reflexivity.
  - destruct (Hnext sampleLine) as (frame & Hout & _ & Hreads);
      [reflexivity
      |apply not_elem_of_checked; vm_compute; reflexivity
      |apply not_elem_of_checked; vm_compute; reflexivity
      |vm_compute; reflexivity|done|vm_compute; reflexivity|].
    rewrite Hout, Hbad.
    replace (trim sampleLine) with sampleLine in Hreads
      by (vm_compute; reflexivity).
    by rewrite (sampleLine_frame frame Hreads).
Defined.

(** *** Line framing *)

Lemma pop_snoc (lines : list (list N)) (rest : list N) :
  pop (lines ++ [rest]) = (lines, rest).
Proof.
  unfold pop. by rewrite removelast_last, last_snoc.
Qed.

(** Cutting at a separator is undone by putting the separator back. *)
Lemma split_decompose sep s :
  ∃ lines rest,
    split sep s = lines ++ [rest]
    ∧ s = flat_map (fun line => line ++ [sep]) lines ++ rest
    ∧ Forall (fun line => sep ∉ line) lines ∧ sep ∉ rest.
Proof.
  induction s as [|c s (lines & rest & Hsplit & Hs & Hlines & Hrest)].
  - exists [], []. repeat split; [constructor|apply not_elem_of_nil].
  - simpl. destruct (N.eqb_spec c sep) as [->|Hc].
    + exists ([] :: lines), rest. rewrite Hsplit. simpl.
      repeat split; [by rewrite Hs at 1|constructor; [apply not_elem_of_nil|done]|done].
    + rewrite Hsplit. destruct lines as [|line lines]; simpl.
      * exists [], (c :: rest). simpl in Hs. subst s.
        repeat split; [constructor|]. apply not_elem_of_cons. by split.
      * exists ((c :: line) :: lines), rest. simpl.
        apply Forall_cons in Hlines as [Hline Hlines].
        repeat split; [by rewrite Hs at 1| |done].
        constructor; [|done]. apply not_elem_of_cons. by split.
Qed.

Lemma split_unlines sep lines rest :
  Forall (fun line => sep ∉ line) lines → sep ∉ rest →
  split sep (flat_map (fun line => line ++ [sep]) lines ++ rest) = lines ++ [rest].
Proof.
  intros Hlines Hrest. induction Hlines as [|line lines Hline _ IH]; simpl.
  - by apply split_no_sep.
  - rewrite <- !app_assoc. simpl. rewrite split_app by done. by rewrite IH.
Qed.

Lemma processLine_observer h h' line :
  onDataReceived h' = onDataReceived h → processLine h' line = processLine h line.
Proof.
  intros Hobs. unfold processLine, parseSerialData. by rewrite Hobs.
Qed.

(** X1.  [processIncomingData] cuts the buffered text followed by the new
    data at the line feeds: the complete lines, none of which holds a line
    feed, are processed once each and in order, and what follows the last
    line feed is kept as the new buffer.  Nothing of the stream is lost or
    read twice: the lines with their line feeds followed by the new buffer
    are the old buffer followed by the data. *)
Theorem processIncomingData_framing (h : SerialHandler) (data : list N) :
  let r := processIncomingData h data in
  ∃ lines,
    readBuffer h ++ data = unlines lines ++ readBuffer r.1
    ∧ Forall (fun line => LF ∉ line) lines
    ∧ (LF ∉ readBuffer r.1)
    ∧ r.2 = flat_map (processLine h) lines
    ∧ onDataReceived r.1 = onDataReceived h.
Proof.
  intros r. subst r. unfold processIncomingData.
  destruct (split_decompose LF (readBuffer h ++ data))
    as (lines & rest & Hsplit & Hs & Hlines & Hrest).
  rewrite Hsplit, pop_snoc. simpl. exists lines. done.
Qed.

(** X2.  The decoder does not depend on how the stream is cut into chunks:
    feeding two chunks one after the other leaves the same buffer and
    produces the same outputs, in the same order, as feeding them in one
    piece. *)
Theorem processIncomingData_chunks (h : SerialHandler) (data1 data2 : list N) :
  let r1 := processIncomingData h data1 in
  let r2 := processIncomingData r1.1 data2 in
  processIncomingData h (data1 ++ data2) = (r2.1, r1.2 ++ r2.2).
Proof.
  intros r1 r2. subst r1 r2. unfold processIncomingData.
  destruct (split_decompose LF (readBuffer h ++ data1))
    as (lines1 & rest1 & Hsplit1 & Hs1 & Hlines1 & Hrest1).
  rewrite Hsplit1, pop_snoc. cbn [fst snd readBuffer].
  destruct (split_decompose LF (rest1 ++ data2))
    as (lines2 & rest2 & Hsplit2 & Hs2 & Hlines2 & Hrest2).
  rewrite Hsplit2, pop_snoc. cbn [fst snd readBuffer onDataReceived].
  rewrite app_assoc, Hs1, <- app_assoc, Hs2, app_assoc, <- flat_map_app.
  rewrite split_unlines by (by try apply Forall_app).
  rewrite pop_snoc, flat_map_app. reflexivity.
Qed.

(** *** White space *)

Lemma trimStart_ws_app pre s :
  allWhiteSpace pre → trimStart (pre ++ s) = trimStart s.
Proof.
  induction 1 as [|c pre Hc _ IH]; simpl; [done|]. by rewrite Hc.
Qed.

Lemma trimStart_ws s : allWhiteSpace s → trimStart s = [].
Proof.
  intros H. rewrite <- (app_nil_r s). by rewrite trimStart_ws_app.
Qed.

Lemma trimStart_app_ws s post :
  allWhiteSpace post →
  trimStart (s ++ post) = match trimStart s with
                          | [] => []
                          | t => t ++ post
                          end.
Proof.
  intros Hpost. induction s as [|c s IH]; simpl.
  - by apply trimStart_ws.
  - destruct (isWhiteSpace c); done.
Qed.

Lemma allWhiteSpace_rev s : allWhiteSpace s → allWhiteSpace (rev s).
Proof. apply List.Forall_rev. Qed.

Lemma trimEnd_app_ws s post :
  allWhiteSpace post → trimEnd (s ++ post) = trimEnd s.
Proof.
  intros Hpost. unfold trimEnd. rewrite rev_app_distr.
  rewrite trimStart_ws_app by by apply allWhiteSpace_rev. done.
Qed.

Lemma trim_outer_whitespace pre s post :
  allWhiteSpace pre → allWhiteSpace post → trim (pre ++ s ++ post) = trim s.
Proof.
  intros Hpre Hpost. unfold trim. rewrite trimStart_ws_app by done.
  rewrite trimStart_app_ws by done.
  destruct (trimStart s) as [|c t] eqn:Hs; [done|].
  by apply trimEnd_app_ws.
Qed.

Lemma trim_ws s : allWhiteSpace s → trim s = [].
Proof. intros H. unfold trim. by rewrite trimStart_ws. Qed.

(** X3.  White space around a line does not count: a line wrapped in white
    space (the carriage return of a CR LF line ending, indentation) is
    processed as the line itself, and a line of white space only is
    skipped without a frame and without a warning. *)
Theorem processLine_outer_whitespace (h : SerialHandler) (pre line post : list N) :
  allWhiteSpace pre → allWhiteSpace post →
  processLine h (pre ++ line ++ post) = processLine h line
  ∧ processLine h pre = [].
Proof.
  intros Hpre Hpost. unfold processLine.
  rewrite trim_outer_whitespace by done. split; [reflexivity|].
  by rewrite trim_ws.
Qed.

Lemma processLine_outer_whitespace_witness :
  processLine listening (js "  " ++ sampleLine ++ [13%N])
  = processLine listening sampleLine
  ∧ processLine listening (js "  ") = [].
Proof.
  apply (processLine_outer_whitespace listening (js "  ") sampleLine [13%N]);
    repeat constructor.
Defined.

(** *** Tokens *)

(** [trimEnd] keeps everything up to the last character that is not white
    space. *)
Lemma trimStart_keep l x r :
  isWhiteSpace x = false →
  ∃ l1 l2, l = l1 ++ l2 ∧ trimStart (l ++ x :: r) = l2 ++ x :: r.
Proof.
  intros Hx. induction l as [|c l (l1 & l2 & -> & IH)]; simpl.
  - exists [], []. by rewrite Hx.
  - destruct (isWhiteSpace c).
    + by exists (c :: l1), l2.
    + by exists [], (c :: l1 ++ l2).
Qed.

Lemma trimEnd_keep a x b :
  isWhiteSpace x = false →
  ∃ b1 b2, b = b1 ++ b2 ∧ trimEnd (a ++ x :: b) = a ++ x :: b1.
Proof.
  intros Hx. unfold trimEnd. rewrite rev_app_distr. simpl rev at 1.
  rewrite <- app_assoc. simpl app at 2.
  destruct (trimStart_keep (rev b) x (rev a) Hx) as (l1 & l2 & Hl & ->).
  exists (rev l2), (rev l1). split.
  - rewrite <- rev_app_distr, <- Hl. by rewrite rev_involutive.
  - rewrite rev_app_distr. simpl. rewrite rev_involutive, <- app_assoc. done.
Qed.

Lemma digitValue_not_decimal c :
  isDecimalDigit c = false → digitValue 10 c = None.
Proof.
  intros Hc. destruct (digitValue 10 c) eqn:Hv; [|done].
  apply digitValue_decimal in Hv. congruence.
Qed.

Lemma digitsPrefix_stop ds q :
  Forall (fun d => 0 <= d <= 9) ds →
  match q with c :: _ => isDecimalDigit c = false | [] => True end →
  digitsPrefix 10 (map digitChar ds ++ q) = ds.
Proof.
  intros Hds Hq. induction Hds as [|d ds Hd _ IH]; simpl.
  - destruct q as [|c q]; [done|]. simpl. by rewrite digitValue_not_decimal.
  - by rewrite digitChar_value, IH.
Qed.

Lemma digitChar_zero d : 0 <= d <= 9 → N.eqb (digitChar d) ZERO = true → d = 0.
Proof.
  intros Hd H. apply N.eqb_eq in H. unfold digitChar, ZERO in H. lia.
Qed.

Lemma stripPrefix_numeral ds q :
  decimalDigits ds →
  (ds = [0] → match q with
              | c :: _ => c ≠ LOWER_X ∧ c ≠ UPPER_X
              | [] => True
              end) →
  stripPrefix (map digitChar ds ++ q) = (10, map digitChar ds ++ q).
Proof.
  intros [Hne Hds] Hq. destruct Hds as [|d ds Hd Hds]; [done|].
  unfold stripPrefix. simpl.
  destruct (N.eqb (digitChar d) ZERO) eqn:Hz.
  - apply digitChar_zero in Hz; [|done]. subst d.
    destruct Hds as [|d' ds Hd' _]; simpl.
    + destruct q as [|c q]; [done|]. destruct (Hq eq_refl) as [Hl Hu].
      apply N.eqb_neq in Hl, Hu. by rewrite Hl, Hu.
    + destruct (digitChar_plain d' Hd') as (_ & _ & _ & -> & ->). done.
  - by destruct (map digitChar ds ++ q).
Qed.

(** What [parseInt] reads of a numeral followed by something that is not a
    digit. *)
Lemma parseInt_numeral_prefix negative ds q :
  decimalDigits ds →
  match q with c :: _ => isDecimalDigit c = false | [] => True end →
  (ds = [0] → match q with
              | c :: _ => c ≠ LOWER_X ∧ c ≠ UPPER_X
              | [] => True
              end) →
  parseInt (numeral negative ds ++ q) = Some (numeralValue negative ds).
Proof.
  intros Hds Hq Hx.
  destruct (numeral_head negative ds Hds) as (c0 & rest0 & Hnum & Hc0).
  assert (trimStart (numeral negative ds ++ q) = numeral negative ds ++ q) as Htrim.
  { rewrite Hnum. simpl. by rewrite Hc0. }
  rewrite parseInt_afterSign by done.
  assert (afterSign (numeral negative ds ++ q) = map digitChar ds ++ q) as ->.
  { unfold afterSign. rewrite Htrim. unfold numeral.
    destruct negative; [done|]. destruct Hds as [Hne Hall].
    destruct Hall as [|d ds Hd _]; [done|]. simpl.
    destruct (digitChar_plain d Hd) as (_ & -> & -> & _). done. }
  rewrite stripPrefix_numeral by done. cbv zeta.
  destruct Hds as [Hne Hall]. rewrite digitsPrefix_stop by done.
  destruct ds as [|d ds]; [done|]. unfold numeralValue, numeral.
  destruct negative; simpl app; [done|].
  simpl map. destruct (digitChar_plain d (Forall_inv Hall)) as (_ & -> & _). done.
Qed.

Lemma numeral_last negative ds :
  decimalDigits ds →
  ∃ a x, numeral negative ds = a ++ [x] ∧ isWhiteSpace x = false.
Proof.
  intros [Hne Hds]. unfold numeral.
  destruct (exists_last Hne) as (ds' & d & ->).
  rewrite map_app, app_assoc. simpl. eexists _, _. split; [done|].
  apply Forall_app in Hds as [_ Hd]. apply Forall_inv in Hd.
  by apply digitChar_plain.
Qed.

(** X4.  A value is read as [parseInt] reads it: white space before the
    number is skipped and reading stops at the first character that is
    not a digit, so that a decimal numeral followed by anything else (a
    fraction, a unit, white space, stray characters) counts as the numeral
    alone, clamped to [0,255].  (A lone 0 followed by x or X is the start
    of a hexadecimal number and is excluded here.) *)
Theorem decodeValue_leading_numeral (pre : list N) (negative : bool)
    (ds : list Z) (c : N) (rest : list N) :
  allWhiteSpace pre → decimalDigits ds → isDecimalDigit c = false →
  (ds = [0] → c ≠ LOWER_X ∧ c ≠ UPPER_X) →
  decodeValue (pre ++ numeral negative ds ++ c :: rest)
  = clamp (numeralValue negative ds).
Proof.
  intros Hpre Hds Hc Hx. unfold decodeValue, trim.
  rewrite trimStart_ws_app by done.
  destruct (numeral_head negative ds Hds) as (c0 & rest0 & Hnum & Hc0).
  assert (trimStart (numeral negative ds ++ c :: rest)
          = numeral negative ds ++ c :: rest) as ->.
  { rewrite Hnum. simpl. by rewrite Hc0. }
  destruct (numeral_last negative ds Hds) as (a & x & Hlast & Hxw).
  rewrite Hlast, <- app_assoc. simpl app at 2.
  destruct (trimEnd_keep a x (c :: rest) Hxw) as (b1 & b2 & Hb & ->).
  replace (a ++ x :: b1) with (numeral negative ds ++ b1)
    by (rewrite Hlast, <- app_assoc; done).
  rewrite parseInt_numeral_prefix; [done|done| |].
  - destruct b1 as [|c' b1]; [done|]. by injection Hb as <- _.
  - intros Hz. destruct b1 as [|c' b1]; [done|]. injection Hb as <- _. auto.
Qed.

Lemma decodeValue_leading_numeral_witness :
  decodeValue (js " 12.7") = 12 ∧ decodeValue (js "-3 ") = 0
  ∧ decodeValue (js "300mV") = 255.
Proof.
  split; [|split].
  - apply (decodeValue_leading_numeral (js " ") false [1; 2] 46%N (js "7"));
      [repeat constructor|split; [done|repeat constructor; lia]|done|done].
  - apply (decodeValue_leading_numeral [] true [3] 32%N []);
      [constructor|split; [done|repeat constructor; lia]|done|done].
  - apply (decodeValue_leading_numeral [] false [3; 0; 0] 109%N (js "V"));
      [constructor|split; [done|repeat constructor; lia]|done|done].
Defined.

Lemma hexChar_value d : 0 <= d <= 15 → digitValue 16 (hexChar d) = Some d.
Proof.
  intros Hd.
  assert (d = 0 ∨ d = 1 ∨ d = 2 ∨ d = 3 ∨ d = 4 ∨ d = 5 ∨ d = 6 ∨ d = 7
          ∨ d = 8 ∨ d = 9 ∨ d = 10 ∨ d = 11 ∨ d = 12 ∨ d = 13 ∨ d = 14
          ∨ d = 15) as Hcases by lia.
  repeat destruct Hcases as [-> | Hcases]; try subst d; reflexivity.
Qed.

Lemma hexChar_plain d : 0 <= d <= 15 → isWhiteSpace (hexChar d) = false.
Proof.
  intros Hd.
  assert (d = 0 ∨ d = 1 ∨ d = 2 ∨ d = 3 ∨ d = 4 ∨ d = 5 ∨ d = 6 ∨ d = 7
          ∨ d = 8 ∨ d = 9 ∨ d = 10 ∨ d = 11 ∨ d = 12 ∨ d = 13 ∨ d = 14
          ∨ d = 15) as Hcases by lia.
  repeat destruct Hcases as [-> | Hcases]; try subst d; reflexivity.
Qed.

Lemma digitsPrefix_hex hs :
  hexDigits hs → digitsPrefix 16 (map hexChar hs) = hs.
Proof.
  induction 1 as [|d hs Hd _ IH]; simpl; [done|].
  by rewrite hexChar_value, IH.
Qed.

(** X5.  A value that begins with 0x or 0X is read as a hexadecimal number:
    its digits are taken in base 16 and the result is clamped; with no
    digit after the prefix the value is not a number and counts as 0. *)
Theorem decodeValue_hexadecimal (x : N) (hs : list Z) :
  x = LOWER_X ∨ x = UPPER_X → hexDigits hs →
  decodeValue (ZERO :: x :: map hexChar hs)
  = match hs with
    | [] => 0
    | _ => clamp (mathInt 16 hs)
    end.
Proof.
  intros Hx Hhs. unfold decodeValue, trim.
  assert (isWhiteSpace x = false) as Hxw by (destruct Hx as [-> | ->]; done).
  assert (trimStart (ZERO :: x :: map hexChar hs) = ZERO :: x :: map hexChar hs)
    as -> by done.
  assert (trimEnd (ZERO :: x :: map hexChar hs) = ZERO :: x :: map hexChar hs)
    as ->.
  { destruct (decide (hs = [])) as [->|Hne].
    - apply (trimEnd_snoc [ZERO] x Hxw).
    - destruct (exists_last Hne) as (hs' & d & ->).
      rewrite map_app. simpl map.
      change (ZERO :: x :: map hexChar hs' ++ [hexChar d])
        with ((ZERO :: x :: map hexChar hs') ++ [hexChar d]).
      apply trimEnd_snoc, hexChar_plain.
      apply Forall_app in Hhs as [_ Hd]. by apply Forall_inv in Hd. }
  rewrite parseInt_afterSign by done.
  assert (afterSign (ZERO :: x :: map hexChar hs) = ZERO :: x :: map hexChar hs)
    as -> by done.
  assert (stripPrefix (ZERO :: x :: map hexChar hs) = (16, map hexChar hs)) as ->.
  { unfold stripPrefix. destruct Hx as [-> | ->]; done. }
  cbv zeta. rewrite digitsPrefix_hex by done.
  destruct hs as [|d hs]; [done|]. simpl "*".
  change (N.eqb ZERO MINUS) with false. cbv iota.
  by rewrite Z.mul_1_l.
Qed.

Lemma decodeValue_hexadecimal_witness :
  decodeValue (js "0x1f") = 31 ∧ decodeValue (js "0X") = 0.
Proof.
  split.
  - apply (decodeValue_hexadecimal LOWER_X [1; 15]);
      [by left|repeat constructor; lia].
  - apply (decodeValue_hexadecimal UPPER_X []); [by right|constructor].
Defined.

End SerialFacts.

(** ** Audio routing engine *)

Module EngineFacts.
Import Engine.

(** *** applyEffect *)

Lemma applyEffect_unknown name isActive e :
  webAudioEffects e !! name = None →
  applyEffect name isActive e = (e, inherited name && negb isActive).
Proof. intros H. unfold applyEffect. by rewrite H. Qed.

Lemma applyEffect_unknown_on name e :
  webAudioEffects e !! name = None → applyEffect name true e = (e, false).
Proof. intros H. rewrite applyEffect_unknown by done. by rewrite andb_false_r. Qed.

Lemma applyEffect_unknown_state name isActive e :
  webAudioEffects e !! name = None → (applyEffect name isActive e).1 = e.
Proof. intros H. by rewrite applyEffect_unknown. Qed.

Lemma applyEffect_same name isActive e effect :
  webAudioEffects e !! name = Some effect → active effect = isActive →
  applyEffect name isActive e = (e, true).
Proof.
  intros H Ha. unfold applyEffect. rewrite H, Ha. by destruct isActive.
Qed.

(** The voices, the sources and the recorder are out of reach of
    [applyEffect]. *)
Lemma applyEffect_voices name isActive e :
  let e' := (applyEffect name isActive e).1 in
  activeLoopedSources e' = activeLoopedSources e
  ∧ playing e' = playing e ∧ nextNode e' = nextNode e.
Proof.
  unfold applyEffect, disconnectFromBus.
  repeat case_match; simpl; done.
Qed.

(** What [applyEffect] does to the registry: at most the flag of the named
    effect changes. *)
Lemma applyEffect_registry name isActive e other :
  let e' := (applyEffect name isActive e).1 in
  match webAudioEffects e !! other with
  | Some eff =>
      ∃ eff', webAudioEffects e' !! other = Some eff' ∧ nodes eff' = nodes eff
              ∧ (other ≠ name → active eff' = active eff)
  | None => webAudioEffects e' !! other = None
  end.
Proof.
  unfold applyEffect.
  destruct (webAudioEffects e !! name) as [effect|] eqn:Hn; simpl.
  2:{ destruct (webAudioEffects e !! other); eauto. }
  destruct (decide (other = name)) as [->|Hne].
  - rewrite Hn. unfold disconnectFromBus.
    repeat case_match; simpl; rewrite ?lookup_insert_eq, ?Hn; naive_solver.
  - assert (∀ x, <[name := x]> (webAudioEffects e) !! other
                 = webAudioEffects e !! other) as Hins.
    { intros x. by apply lookup_insert_ne. }
    unfold disconnectFromBus.
    destruct (webAudioEffects e !! other) as [eff|] eqn:Ho;
      repeat case_match; simpl; rewrite ?Hins, ?Ho; naive_solver.
Qed.

(** The bus edges of the other effects stay as they are. *)
Lemma applyEffect_bus_other name isActive e other :
  other ≠ name →
  let e' := (applyEffect name isActive e).1 in
  (other ∈ effectsInputTo e' ↔ other ∈ effectsInputTo e)
  ∧ (other ∈ effectsOutputFrom e' ↔ other ∈ effectsOutputFrom e).
Proof.
  intros Hne. unfold applyEffect, disconnectFromBus.
  repeat case_match; simpl;
    rewrite ?elem_of_union, ?elem_of_difference, ?elem_of_singleton; tauto.
Qed.

(** *** Counting the voices of an effect *)

Lemma othersUsingEffect_insert name m g v :
  m !! g = None →
  othersUsingEffect name (<[g := v]> m)
  = if decide (effectName v = name) then S (othersUsingEffect name m)
    else othersUsingEffect name m.
Proof.
  intros Hg. unfold othersUsingEffect. case_decide as Hv.
  - rewrite map_filter_insert_True by done.
    apply map_size_insert_None. apply map_lookup_filter_None. by left.
  - rewrite map_filter_insert_False by done. by rewrite delete_id.
Qed.

Lemma othersUsingEffect_delete name m g v :
  m !! g = Some v →
  othersUsingEffect name m
  = if decide (effectName v = name) then S (othersUsingEffect name (delete g m))
    else othersUsingEffect name (delete g m).
Proof.
  intros Hg. rewrite <- (insert_delete_id m g v Hg) at 1.
  apply othersUsingEffect_insert, lookup_delete_eq.
Qed.

Lemma othersUsingEffect_pos name m :
  (0 < othersUsingEffect name m)%nat
  ↔ (∃ g v, m !! g = Some v ∧ effectName v = name).
Proof.
  unfold othersUsingEffect. split.
  - intros Hpos.
    destruct (map_choose (filter (λ kv : Z * Voice, effectName kv.2 = name) m))
      as (g & v & Hgv).
    { apply map_size_non_empty_iff. lia. }
    apply map_lookup_filter_Some in Hgv as [? ?]. eauto.
  - intros (g & v & Hg & Hv).
    assert (filter (λ kv : Z * Voice, effectName kv.2 = name) m ≠ ∅) as Hne.
    { intros Hempty.
      assert (filter (λ kv : Z * Voice, effectName kv.2 = name) m !! g = Some v) as Hl
        by by apply map_lookup_filter_Some.
      rewrite Hempty in Hl. by rewrite lookup_empty in Hl. }
    apply map_size_non_empty_iff in Hne. lia.
Qed.

(** *** The reference-count invariant *)

Lemma applyEffect_wellFormed name isActive e :
  wellFormed e → wellFormed (applyEffect name isActive e).1.
Proof.
  intros [Hnull Hnodes]. split.
  - pose proof (applyEffect_registry name isActive e "null") as H.
    by rewrite Hnull in H.
  - intros other eff' Hl.
    pose proof (applyEffect_registry name isActive e other) as H.
    destruct (webAudioEffects e !! other) as [eff|] eqn:Ho.
    + destruct H as (eff'' & Hl' & Hn & _). simpl in Hl'.
      rewrite Hl in Hl'. injection Hl' as <-. rewrite Hn. eauto.
    + simpl in H. congruence.
Qed.

(** Activating an effect that the new voices refer to. *)
Lemma applyEffect_on_consistent name e m m' :
  wellFormed e → consistentWith m e →
  (0 < othersUsingEffect (Some name) m')%nat →
  (∀ other, other ≠ name →
     othersUsingEffect (Some other) m' = othersUsingEffect (Some other) m) →
  consistentWith m' (applyEffect name true e).1.
Proof.
  intros [_ Hnodes] Hc Hpos Hsame other eff' Hl.
  destruct (decide (other = name)) as [->|Hne].
  - unfold applyEffect in Hl |- *.
    destruct (webAudioEffects e !! name) as [effect|] eqn:Hn; [|simpl in Hl; congruence].
    destruct (Hnodes _ _ Hn) as [[ni Hi] [no Ho]].
    destruct (Hc _ _ Hn) as (Hcount & Hin & Hout).
    rewrite Hi, Ho in Hl |- *.
    destruct (active effect) eqn:Ha; simpl in Hl |- *.
    + rewrite Hn in Hl. injection Hl as <-. rewrite Ha. tauto.
    + rewrite lookup_insert_eq in Hl. injection Hl as <-. simpl.
      split; [tauto|]. rewrite !elem_of_union, !elem_of_singleton. intuition.
  - pose proof (applyEffect_registry name true e other) as Hr.
    pose proof (applyEffect_bus_other name true e other Hne) as [Hbi Hbo].
    destruct (webAudioEffects e !! other) as [eff|] eqn:Ho.
    + destruct Hr as (eff'' & Hl' & _ & Hact). simpl in Hl'.
      rewrite Hl in Hl'. injection Hl' as <-.
      destruct (Hc _ _ Ho) as (Hcount & Hin & Hout).
      rewrite Hact, Hsame by done. simpl in Hbi, Hbo. rewrite Hbi, Hbo. tauto.
    + simpl in Hr. congruence.
Qed.

(** Deactivating an effect that the new voices no longer refer to. *)
Lemma applyEffect_off_consistent name e m m' :
  wellFormed e → consistentWith m e →
  othersUsingEffect (Some name) m' = 0%nat →
  (∀ other, other ≠ name →
     othersUsingEffect (Some other) m' = othersUsingEffect (Some other) m) →
  consistentWith m' (applyEffect name false e).1.
Proof.
  intros [_ Hnodes] Hc Hzero Hsame other eff' Hl.
  destruct (decide (other = name)) as [->|Hne].
  - unfold applyEffect in Hl |- *.
    destruct (webAudioEffects e !! name) as [effect|] eqn:Hn; [|simpl in Hl; congruence].
    destruct (Hnodes _ _ Hn) as [[ni Hi] [no Ho]].
    destruct (Hc _ _ Hn) as (Hcount & Hin & Hout).
    rewrite Hi, Ho in Hl |- *. rewrite Hzero.
    destruct (active effect) eqn:Ha; simpl in Hl |- *.
    + rewrite lookup_insert_eq in Hl. injection Hl as <-. simpl.
      unfold disconnectFromBus.
      rewrite decide_True by tauto. rewrite decide_True by tauto. simpl.
      split; [split; [done|lia]|].
      rewrite !elem_of_difference, !elem_of_singleton.
      split; (split; [by intros [_ ?]|done]).
    + rewrite Hn in Hl. injection Hl as <-. rewrite Ha.
      split; [split; [done|lia]|]. tauto.
  - pose proof (applyEffect_registry name false e other) as Hr.
    pose proof (applyEffect_bus_other name false e other Hne) as [Hbi Hbo].
    destruct (webAudioEffects e !! other) as [eff|] eqn:Ho.
    + destruct Hr as (eff'' & Hl' & _ & Hact). simpl in Hl'.
      rewrite Hl in Hl'. injection Hl' as <-.
      destruct (Hc _ _ Ho) as (Hcount & Hin & Hout).
      rewrite Hact, Hsame by done. simpl in Hbi, Hbo. rewrite Hbi, Hbo. tauto.
    + simpl in Hr. congruence.
Qed.

(** Voices that come and go without changing which effects are referred
    to. *)
Lemma consistentWith_same_use e m m' :
  consistentWith m e →
  (∀ name, is_Some (webAudioEffects e !! name) →
     ((0 < othersUsingEffect (Some name) m')%nat
      ↔ (0 < othersUsingEffect (Some name) m)%nat)) →
  consistentWith m' e.
Proof.
  intros Hc Hsame name effect Hl.
  destruct (Hc _ _ Hl) as (Hcount & Hin & Hout).
  rewrite Hsame by eauto. tauto.
Qed.

Lemma consistentWith_setVoices m mv p n e :
  consistentWith m (setVoices mv p n e) ↔ consistentWith m e.
Proof. done. Qed.

Lemma wellFormed_setVoices mv p n e :
  wellFormed (setVoices mv p n e) ↔ wellFormed e.
Proof. done. Qed.

Lemma stopLoopedSampleWithEffect_voices g e :
  activeLoopedSources (stopLoopedSampleWithEffect g e)
  = delete g (activeLoopedSources e).
Proof.
  unfold stopLoopedSampleWithEffect.
  destruct (activeLoopedSources e !! g) as [v|] eqn:Hg.
  - simpl. case_match; [|done].
    by destruct (applyEffect_voices (effectKey (effectName v)) false
                   (setVoices (activeLoopedSources e) (delete (source v) (playing e))
                      (nextNode e) e)) as (-> & _ & _).
  - by rewrite delete_id.
Qed.

Lemma stopLoopedSampleWithEffect_wellFormed g e :
  wellFormed e → wellFormed (stopLoopedSampleWithEffect g e).
Proof.
  intros Hw. unfold stopLoopedSampleWithEffect.
  destruct (activeLoopedSources e !! g) as [v|]; [|done].
  apply wellFormed_setVoices. case_match; [|done].
  by apply applyEffect_wellFormed.
Qed.

Lemma stopLoopedSampleWithEffect_consistent g e :
  wellFormed e → consistent e → consistent (stopLoopedSampleWithEffect g e).
Proof.
  intros Hw Hc. unfold consistent. rewrite stopLoopedSampleWithEffect_voices.
  unfold stopLoopedSampleWithEffect.
  destruct (activeLoopedSources e !! g) as [v|] eqn:Hg.
  2:{ by rewrite delete_id. }
  apply consistentWith_setVoices. simpl.
  set (e1 := setVoices _ _ _ e).
  assert (∀ name, othersUsingEffect name (activeLoopedSources e)
                  = if decide (effectName v = name)
                    then S (othersUsingEffect name (delete g (activeLoopedSources e)))
                    else othersUsingEffect name (delete g (activeLoopedSources e)))
    as Hdel by (intros; by apply othersUsingEffect_delete).
  destruct (Nat.leb_spec (othersUsingEffect (effectName v) (activeLoopedSources e)) 1)
    as [Hle|Hgt].
  - destruct (effectName v) as [n|] eqn:Hv; simpl.
    + apply (applyEffect_off_consistent n e1 (activeLoopedSources e)); try done.
      * rewrite (Hdel (Some n)), decide_True in Hle by done. lia.
      * intros other Hne. rewrite (Hdel (Some other)), decide_False; congruence.
    + destruct Hw as [Hnull _].
      rewrite applyEffect_unknown by done. simpl.
      apply (consistentWith_same_use e (activeLoopedSources e)); [done|].
      intros name _. by rewrite (Hdel (Some name)), decide_False.
  - apply (consistentWith_same_use e (activeLoopedSources e)); [done|].
    intros name _. rewrite (Hdel (Some name)).
    case_decide as Hn; [|done].
    rewrite (Hdel (effectName v)), decide_True in Hgt by done.
    rewrite <- Hn. lia.
Qed.

(** *** Starting a voice *)

(** The engine a start call builds on: the voice of the region, if there is
    one, has been stopped. *)
Lemma teardown_stop g e :
  (if decide (is_Some (activeLoopedSources e !! g))
   then stopLoopedSampleWithEffect g e else e)
  = stopLoopedSampleWithEffect g e.
Proof.
  case_decide as H; [done|]. unfold stopLoopedSampleWithEffect.
  destruct (activeLoopedSources e !! g); [|done]. by destruct H.
Qed.

Lemma start_completes g name volume e :
  let e0 := stopLoopedSampleWithEffect g e in
  startLoopedSampleWithEffect g Completes name volume e
  = (setVoices
       (<[g := {| source := nextNode e0; effectName := name;
                  dryGain := (gains name e0).1; wetGain := (gains name e0).2 |}]>
          (activeLoopedSources e0))
       (<[nextNode e0 := g]> (playing e0)) (S (nextNode e0)) (routed name e0),
     true).
Proof.
  unfold startLoopedSampleWithEffect. rewrite teardown_stop. simpl.
  destruct name as [n|]; simpl; [|done].
  destruct (applyEffect_voices n true (stopLoopedSampleWithEffect g e))
    as (Hm & Hp & Hn).
  destruct (applyEffect n true (stopLoopedSampleWithEffect g e)) as [e' ok].
  simpl in *. destruct ok; simpl; by rewrite Hm, Hp.
Qed.

Lemma start_throws_before g name volume e :
  startLoopedSampleWithEffect g ThrowsBeforeEffect name volume e
  = (rollback name (stopLoopedSampleWithEffect g e), false).
Proof. unfold startLoopedSampleWithEffect. by rewrite teardown_stop. Qed.

Lemma start_throws_after g name volume e :
  let e0 := stopLoopedSampleWithEffect g e in
  startLoopedSampleWithEffect g ThrowsAfterEffect name volume e
  = (rollback name
       (setVoices (activeLoopedSources e0) (playing e0) (S (nextNode e0))
                  (routed name e0)),
     false).
Proof.
  unfold startLoopedSampleWithEffect. rewrite teardown_stop. simpl.
  destruct name as [n|]; simpl; [|done].
  destruct (applyEffect_voices n true (stopLoopedSampleWithEffect g e))
    as (Hm & Hp & Hn).
  destruct (applyEffect n true (stopLoopedSampleWithEffect g e)) as [e' ok].
  simpl in *. destruct ok; simpl; by rewrite Hm, Hp.
Qed.

Lemma routed_wellFormed name e : wellFormed e → wellFormed (routed name e).
Proof. destruct name; [apply applyEffect_wellFormed|done]. Qed.

Lemma start_wellFormed g name volume e :
  wellFormed e →
  wellFormed (startLoopedSampleWithEffect g Completes name volume e).1.
Proof.
  intros Hw. rewrite start_completes. simpl.
  apply wellFormed_setVoices, routed_wellFormed.
  by apply stopLoopedSampleWithEffect_wellFormed.
Qed.

Lemma start_consistent g name volume e :
  wellFormed e → consistent e →
  consistent (startLoopedSampleWithEffect g Completes name volume e).1.
Proof.
  intros Hw Hc. rewrite start_completes. simpl.
  pose proof (stopLoopedSampleWithEffect_wellFormed g e Hw) as Hw0.
  pose proof (stopLoopedSampleWithEffect_consistent g e Hw Hc) as Hc0.
  pose proof (stopLoopedSampleWithEffect_voices g e) as Hm0.
  set (e0 := stopLoopedSampleWithEffect g e) in *.
  assert (activeLoopedSources e0 !! g = None) as Hg
    by (rewrite Hm0; apply lookup_delete_eq).
  unfold consistent. simpl. apply consistentWith_setVoices.
  set (voice := {| source := nextNode e0; effectName := name |}).
  assert (∀ other, othersUsingEffect other (<[g := voice]> (activeLoopedSources e0))
                   = if decide (name = other)
                     then S (othersUsingEffect other (activeLoopedSources e0))
                     else othersUsingEffect other (activeLoopedSources e0)) as Hins
    by (intros; by apply othersUsingEffect_insert).
  destruct name as [n|]; simpl.
  - apply (applyEffect_on_consistent n e0 (activeLoopedSources e0)); try done.
    + rewrite Hins, decide_True by done. lia.
    + intros other Hne. rewrite Hins, decide_False; congruence.
  - apply (consistentWith_same_use e0 (activeLoopedSources e0)); [done|].
    intros other _. by rewrite Hins, decide_False.
Qed.

(** *** Sequences of voice starts and stops *)

Lemma initial_registry name effect :
  webAudioEffects initial !! name = Some effect →
  name ∈ effects ∧ effect = {| active := false; nodes := createEffectNodes name |}.
Proof.
  intros Hl. apply elem_of_list_to_map_2 in Hl.
  apply list_elem_of_In, in_map_iff in Hl as (n & [= <- <-] & Hn).
  split; [by apply list_elem_of_In|done].
Qed.

Lemma effects_cases name :
  name ∈ effects →
  name = "pitchshifter"%string ∨ name = "ringmod"%string
  ∨ name = "freezer"%string ∨ name = "vibrato"%string
  ∨ name = "filterdelay"%string ∨ name = "octaver"%string.
Proof.
  unfold effects. rewrite !elem_of_cons, elem_of_nil. tauto.
Qed.

Lemma initial_wellFormed : wellFormed initial.
Proof.
  split; [by vm_compute|].
  intros name effect Hl. apply initial_registry in Hl as [Hn ->].
  apply effects_cases in Hn.
  repeat destruct Hn as [->|Hn]; try subst name;
    split; eexists; vm_compute; reflexivity.
Qed.

Lemma initial_consistent : consistent initial.
Proof.
  intros name effect Hl. apply initial_registry in Hl as [Hn ->].
  assert (othersUsingEffect (Some name) (activeLoopedSources initial) = 0%nat) as ->.
  { unfold othersUsingEffect. simpl. by rewrite map_filter_empty, map_size_empty. }
  simpl. split; [split; [done|lia]|]. rewrite !elem_of_empty. by split.
Qed.

Lemma voiceOps_invariant ops e :
  wellFormed e → consistent e →
  wellFormed (voiceOps ops e) ∧ consistent (voiceOps ops e).
Proof.
  unfold voiceOps, calls. revert e.
  induction ops as [|op ops IH]; intros e Hw Hc; [done|].
  change (fold_left call (map toCall (op :: ops)) e)
    with (fold_left call (map toCall ops) (call e (toCall op))).
  apply IH; destruct op as [g name volume|g]; unfold call, toCall.
  - by apply start_wellFormed.
  - by apply stopLoopedSampleWithEffect_wellFormed.
  - by apply start_consistent.
  - by apply stopLoopedSampleWithEffect_consistent.
Qed.

Lemma voiceOps_app ops1 ops2 e :
  voiceOps (ops1 ++ ops2) e = voiceOps ops2 (voiceOps ops1 e).
Proof. unfold voiceOps, calls. by rewrite map_app, fold_left_app. Qed.

Lemma voiceOps_cons op ops e :
  voiceOps (op :: ops) e = voiceOps ops (call e (toCall op)).
Proof. done. Qed.

(** The registry keeps its keys. *)
Lemma applyEffect_registered name isActive e other :
  is_Some (webAudioEffects e !! other) →
  is_Some (webAudioEffects (applyEffect name isActive e).1 !! other).
Proof.
  intros [eff Hl]. pose proof (applyEffect_registry name isActive e other) as H.
  rewrite Hl in H. destruct H as (eff' & -> & _). eauto.
Qed.

Lemma stopLoopedSampleWithEffect_registered g e other :
  is_Some (webAudioEffects e !! other) →
  is_Some (webAudioEffects (stopLoopedSampleWithEffect g e) !! other).
Proof.
  intros H. unfold stopLoopedSampleWithEffect.
  destruct (activeLoopedSources e !! g) as [v|]; [|done]. simpl.
  case_match; [|done]. by apply applyEffect_registered.
Qed.

Lemma call_registered c e other :
  is_Some (webAudioEffects e !! other) →
  is_Some (webAudioEffects (call e c) !! other).
Proof.
  intros H. destruct c as [g setup name volume|g]; simpl.
  2:{ by apply stopLoopedSampleWithEffect_registered. }
  pose proof (stopLoopedSampleWithEffect_registered g e other H) as H0.
  assert (∀ e', is_Some (webAudioEffects e' !! other) →
                is_Some (webAudioEffects (rollback name e') !! other)) as Hroll.
  { intros e' H'. unfold rollback. destruct name as [n|]; [|done].
    case_match; [done|]. by apply applyEffect_registered. }
  assert (is_Some (webAudioEffects (routed name (stopLoopedSampleWithEffect g e))
                   !! other)) as Hrouted.
  { destruct name; simpl; [by apply applyEffect_registered|done]. }
  destruct setup.
  - by rewrite start_completes.
  - rewrite start_throws_before. by apply Hroll.
  - rewrite start_throws_after. by apply Hroll.
Qed.

Lemma calls_registered cs e other :
  is_Some (webAudioEffects e !! other) →
  is_Some (webAudioEffects (calls cs e) !! other).
Proof.
  unfold calls. revert e. induction cs as [|c cs IH]; intros e H; [done|].
  simpl. by apply IH, call_registered.
Qed.

Lemma effects_registered name :
  name ∈ effects → is_Some (webAudioEffects initial !! name).
Proof.
  intros Hn. apply effects_cases in Hn.
  repeat destruct Hn as [->|Hn]; try subst name; eexists; vm_compute; reflexivity.
Qed.

Lemma voiceName_start g name volume e g' :
  voiceName (startLoopedSampleWithEffect g Completes name volume e).1 g'
  = if decide (g' = g) then Some name else voiceName e g'.
Proof.
  unfold voiceName. rewrite start_completes. simpl.
  rewrite stopLoopedSampleWithEffect_voices.
  case_decide as Hg.
  - subst. by rewrite lookup_insert_eq.
  - rewrite lookup_insert_ne by done. by rewrite lookup_delete_ne.
Qed.

Lemma voiceName_stop g e g' :
  voiceName (stopLoopedSampleWithEffect g e) g'
  = if decide (g' = g) then None else voiceName e g'.
Proof.
  unfold voiceName. rewrite stopLoopedSampleWithEffect_voices.
  case_decide as Hg.
  - subst. by rewrite lookup_delete_eq.
  - by rewrite lookup_delete_ne.
Qed.

Lemma voiceName_starts regions name volume e g' :
  voiceName (voiceOps (map (fun g => StartVoice g name volume) regions) e) g'
  = if decide (g' ∈ regions) then Some name else voiceName e g'.
Proof.
  revert e. induction regions as [|g regions IH]; intros e.
  - rewrite decide_False; [done|]. apply not_elem_of_nil.
  - simpl map. rewrite voiceOps_cons, IH.
    change (call e (toCall (StartVoice g name volume)))
      with ((startLoopedSampleWithEffect g Completes name volume e).1).
    rewrite voiceName_start.
    destruct (decide (g' ∈ regions)) as [Hin|Hnin].
    + rewrite decide_True; [done|]. rewrite elem_of_cons; tauto.
    + case_decide as Hg.
      * subst. rewrite decide_True; [done|]. rewrite elem_of_cons; tauto.
      * rewrite decide_False; [done|]. rewrite elem_of_cons. tauto.
Qed.

Lemma voiceName_stops gs e g' :
  voiceName (voiceOps (map StopVoice gs) e) g'
  = if decide (g' ∈ gs) then None else voiceName e g'.
Proof.
  revert e. induction gs as [|g gs IH]; intros e.
  - rewrite decide_False; [done|]. apply not_elem_of_nil.
  - simpl map. rewrite voiceOps_cons, IH.
    change (call e (toCall (StopVoice g))) with (stopLoopedSampleWithEffect g e).
    rewrite voiceName_stop.
    destruct (decide (g' ∈ gs)) as [Hin|Hnin].
    + rewrite decide_True; [done|]. rewrite elem_of_cons; tauto.
    + case_decide as Hg.
      * subst. rewrite decide_True; [done|]. rewrite elem_of_cons; tauto.
      * rewrite decide_False; [done|]. rewrite elem_of_cons. tauto.
Qed.

Lemma othersUsingEffect_voiceName name e :
  (0 < othersUsingEffect name (activeLoopedSources e))%nat
  ↔ (∃ g, voiceName e g = Some name).
Proof.
  rewrite othersUsingEffect_pos. unfold voiceName. split.
  - intros (g & v & Hg & Hv). exists g. by rewrite Hg, <- Hv.
  - intros (g & Hg). destruct (activeLoopedSources e !! g) as [v|] eqn:Hl; [|done].
    injection Hg as Hg. eauto.
Qed.

Lemma isEffectActive_consistent name e :
  consistent e → is_Some (webAudioEffects e !! name) →
  (isEffectActive name e = true ↔ (∃ g, voiceName e g = Some (Some name)))
  ∧ (isEffectActive name e = true ↔ connected name e)
  ∧ (isEffectActive name e = false ↔ disconnected name e).
Proof.
  intros Hc [effect Hl]. destruct (Hc _ _ Hl) as (Hcount & Hin & Hout).
  unfold isEffectActive, connected, disconnected. rewrite Hl.
  rewrite <- othersUsingEffect_voiceName.
  split; [done|]. rewrite Hin, Hout. split; [tauto|].
  destruct (active effect); split; try tauto; try done.
Qed.

(** The reference count when calls do not overlap.  After every sequence
    of voice starts and stops from the freshly loaded engine, each call
    running to its end before the next, each of the six effects is active
    exactly when at least
    one registered voice refers to it, and then both of its bus edges are
    present; with no such voice neither edge is.  In particular, after
    voices are started on distinct regions with one effect (from a state
    where no other region uses it) and all but one of them are stopped, in
    any order, the effect is still active and connected, and stopping the
    last one deactivates and disconnects it. *)
Theorem effect_reference_count (ops : list VoiceOp) (name : string) :
  name ∈ effects →
  let e := voiceOps ops initial in
  let users := othersUsingEffect (Some name) (activeLoopedSources e) in
  (isEffectActive name e = true ↔ (0 < users)%nat)
  ∧ (connected name e ↔ (0 < users)%nat)
  ∧ (disconnected name e ↔ users = 0%nat)
  ∧ ∀ regions keep stopped volume,
      NoDup regions → regions ≡ₚ keep :: stopped →
      (∀ g, voiceName e g = Some (Some name) → g ∈ regions) →
      let e1 := voiceOps (map (fun g => StartVoice g (Some name) volume) regions
                          ++ map StopVoice stopped) e in
      let e2 := stopLoopedSampleWithEffect keep e1 in
      isEffectActive name e1 = true ∧ connected name e1
      ∧ isEffectActive name e2 = false ∧ ¬ connected name e2.
Proof.
  intros Hname e users.
  assert (∀ ops', let e' := voiceOps ops' initial in
            (isEffectActive name e' = true ↔ (∃ g, voiceName e' g = Some (Some name)))
            ∧ (isEffectActive name e' = true ↔ connected name e')
            ∧ (isEffectActive name e' = false ↔ disconnected name e')) as Hinv.
  { intros ops' e'.
    destruct (voiceOps_invariant ops' initial initial_wellFormed initial_consistent)
      as [_ Hc].
    apply isEffectActive_consistent; [done|].
    by apply calls_registered, effects_registered. }
  destruct (Hinv ops) as (Hact & Hconn & Hdis). fold e in Hact, Hconn, Hdis.
  assert ((0 < users)%nat ↔ (∃ g, voiceName e g = Some (Some name))) as Husers
    by apply othersUsingEffect_voiceName.
  split; [by rewrite Husers|]. split; [by rewrite <- Hconn, Husers|]. split.
  { rewrite <- Hdis. rewrite <- not_true_iff_false, Hact, <- Husers. lia. }
  intros regions keep stopped volume Hnodup Hperm Hothers e1 e2.
  assert (NoDup (keep :: stopped)) as Hnd by by rewrite <- Hperm.
  apply NoDup_cons in Hnd as [Hkeep _].
  assert (∀ g, voiceName e1 g
               = if decide (g ∈ stopped) then None
                 else if decide (g ∈ regions) then Some (Some name)
                      else voiceName e g) as Hnames.
  { intros g. unfold e1. by rewrite voiceOps_app, voiceName_stops, voiceName_starts. }
  assert (e1 = voiceOps (ops ++ map (fun g => StartVoice g (Some name) volume) regions
                         ++ map StopVoice stopped) initial) as He1
    by (unfold e1, e; by rewrite <- voiceOps_app).
  assert (e2 = voiceOps ((ops ++ map (fun g => StartVoice g (Some name) volume) regions
                          ++ map StopVoice stopped) ++ [StopVoice keep]) initial) as He2
    by (unfold e2; by rewrite voiceOps_app, <- He1).
  destruct (Hinv (ops ++ map (fun g => StartVoice g (Some name) volume) regions
                  ++ map StopVoice stopped)) as (Hact1 & Hconn1 & _).
  rewrite <- He1 in Hact1, Hconn1.
  destruct (Hinv ((ops ++ map (fun g => StartVoice g (Some name) volume) regions
                   ++ map StopVoice stopped) ++ [StopVoice keep]))
    as (Hact2 & Hconn2 & _).
  rewrite <- He2 in Hact2, Hconn2.
  assert (isEffectActive name e1 = true) as Hon.
  { apply Hact1. exists keep. rewrite Hnames, decide_False by done.
    rewrite decide_True; [done|]. rewrite Hperm, elem_of_cons. tauto. }
  assert (isEffectActive name e2 = false) as Hoff.
  { apply not_true_iff_false. rewrite Hact2. intros (g & Hg).
    unfold e2 in Hg. rewrite voiceName_stop, Hnames in Hg.
    repeat case_decide; try done.
    - assert (g ∈ keep :: stopped) as Hin by by rewrite <- Hperm.
      rewrite elem_of_cons in Hin. tauto.
    - by apply Hothers in Hg. }
  split; [done|]. split; [by apply Hconn1|]. split; [done|].
  rewrite <- Hconn2, Hoff. done.
Qed.

Lemma effect_reference_count_witness :
  "ringmod"%string ∈ effects
  ∧ let e1 := voiceOps [StartVoice 0 (Some "ringmod"%string) 1;
                        StartVoice 1 (Some "ringmod"%string) 1;
                        StartVoice 2 (Some "ringmod"%string) 1;
                        StopVoice 2; StopVoice 0] initial in
    isEffectActive "ringmod" e1 = true
    ∧ isEffectActive "ringmod" (stopLoopedSampleWithEffect 1 e1) = false.
Proof.
  assert ("ringmod"%string ∈ effects) as Hname
    by (unfold effects; rewrite !elem_of_cons; tauto).
  split; [exact Hname|].
  destruct (effect_reference_count [] "ringmod" Hname) as (_ & _ & _ & Hscenario).
  destruct (Hscenario [0; 1; 2] 1 [2; 0] 1%Q) as (Hon & _ & Hoff & _).
  - repeat constructor; rewrite ?elem_of_cons, ?elem_of_nil; lia.
  - transitivity [1; 0; 2]; [apply perm_swap | apply perm_skip, perm_swap].
  - intros g Hg. by vm_compute in Hg.
  - split; [exact Hon|exact Hoff].
Defined.

(** [applyEffect] is idempotent.  For a registered effect whose flag
    already has the requested value the call returns [true] and leaves the
    whole engine, bus edges included, as it was; for a name that is not
    registered it leaves the engine as it was, and returns [false] when the
    effect is to be turned on or the name is not an inherited one; and in
    every case calling it a second time with the same arguments changes
    nothing more. *)
Lemma applyEffect_idempotent (name : string) (isActive : bool) (e : AudioEngine) :
  (∀ effect, webAudioEffects e !! name = Some effect → active effect = isActive →
     applyEffect name isActive e = (e, true))
  ∧ (webAudioEffects e !! name = None →
     (applyEffect name isActive e).1 = e
     ∧ (isActive = true ∨ inherited name = false →
        (applyEffect name isActive e).2 = false))
  ∧ (applyEffect name isActive (applyEffect name isActive e).1).1
    = (applyEffect name isActive e).1.
Proof.
  split; [apply applyEffect_same|]. split.
  { intros Hl. rewrite (applyEffect_unknown _ _ _ Hl). split; [done|].
    intros [-> | ->]; [apply andb_false_r|done]. }
  destruct (webAudioEffects e !! name) as [effect|] eqn:Hl.
  2:{ rewrite (applyEffect_unknown _ _ _ Hl). simpl.
      by rewrite (applyEffect_unknown _ _ _ Hl). }
  destruct (decide (active effect = isActive)) as [Ha|Ha].
  { rewrite (applyEffect_same _ _ _ _ Hl Ha). simpl.
    by rewrite (applyEffect_same _ _ _ _ Hl Ha). }
  unfold applyEffect at 2 3. rewrite Hl.
  destruct isActive, (active effect) eqn:Hact; try done; simpl.
  - destruct (nodes effect !! "input"%string) eqn:Hi;
      destruct (nodes effect !! "output"%string) eqn:Ho; simpl;
      try (unfold applyEffect; by rewrite Hl, Hact, Hi, ?Ho).
    rewrite (applyEffect_same name true _ (setActive true effect));
      [done | simpl; apply lookup_insert_eq | done].
  - rewrite (applyEffect_same name false _ (setActive false effect));
      [done | simpl; apply lookup_insert_eq | done].
Qed.

Lemma applyEffect_idempotent_witness :
  let e1 := (applyEffect "ringmod" true initial).1 in
  isEffectActive "ringmod" e1 = true
  ∧ applyEffect "ringmod" true e1 = (e1, true)
  ∧ webAudioEffects initial !! "reverb"%string = None
  ∧ applyEffect "reverb" true initial = (initial, false).
Proof.
  intros e1. split; [by vm_compute|]. split.
  - destruct (applyEffect_idempotent "ringmod" true e1) as (Hsame & _ & _).
    apply (Hsame {| active := true; nodes := createEffectNodes "ringmod" |});
      [vm_compute; reflexivity | reflexivity].
  - split; [by vm_compute|].
    destruct (applyEffect_idempotent "reverb" true initial) as (_ & Hunknown & _).
    destruct Hunknown as [Hstate Hresult]; [vm_compute; reflexivity|].
    rewrite (surjective_pairing (applyEffect "reverb" true initial)).
    rewrite Hstate, Hresult; [reflexivity|by left].
Defined.

(** *** Effect parameters *)

(** C9 as the design document states it fails: a parameter id the engine
    does not know is accepted ([true] is returned), and a value outside the
    range of the parameter's slider is stored as it is. *)
Lemma setEffectParameter_accepts :
  (setEffectParameter "ringmod" "resonance" 1 initial).2 = true
  ∧ outOfRange "ringmod" "output" 1000
  ∧ (setEffectParameter "ringmod" "output" 1000 initial).2 = true
  ∧ getEffectParameter "ringmod" "output" initial = 0.5%Q
  ∧ getEffectParameter "ringmod" "output"
      (setEffectParameter "ringmod" "output" 1000 initial).1 = 1000%Q.
Proof.
  split; [by vm_compute|]. split; [|by vm_compute].
  right. by vm_compute.
Qed.

(** C9, amended.  Neither operation can fail: both are total.  A name that
    is not registered is rejected: the setter returns [false] and changes
    nothing, the getter returns 0.  A parameter id the effect does not have
    changes nothing and reads as 0, but the setter returns [true].  No value
    is rejected for its size: when the parameter exists the setter returns
    [true] and the getter then returns the value that was set. *)
Theorem effect_parameter_access (name paramId : string) (value : Q)
    (e : AudioEngine) :
  (webAudioEffects e !! name = None →
     setEffectParameter name paramId value e = (e, false)
     ∧ getEffectParameter name paramId e = 0%Q)
  ∧ (∀ effect, webAudioEffects e !! name = Some effect →
       paramTarget name paramId = None →
       setEffectParameter name paramId value e = (e, true)
       ∧ getEffectParameter name paramId e = 0%Q)
  ∧ (∀ effect nodeName p fallback n,
       webAudioEffects e !! name = Some effect →
       paramTarget name paramId = Some (nodeName, p, fallback) →
       nodes effect !! nodeName = Some n → is_Some (readParam p n) →
       (setEffectParameter name paramId value e).2 = true
       ∧ getEffectParameter name paramId
           (setEffectParameter name paramId value e).1 = value).
Proof.
  unfold setEffectParameter, getEffectParameter.
  split; [by intros ->|]. split; [by intros effect -> ->|].
  intros effect nodeName p fallback n -> -> -> [v Hv].
  assert (∃ n', writeParam p value n = Some n' ∧ readParam p n' = Some value)
    as (n' & -> & Hr).
  { destruct p, n; simpl in Hv |- *; try done; eauto. }
  simpl. rewrite lookup_insert_eq. simpl. by rewrite lookup_insert_eq, Hr.
Qed.

Lemma effect_parameter_access_witness :
  webAudioEffects initial !! "reverb"%string = None
  ∧ setEffectParameter "reverb" "output" 1 initial = (initial, false)
  ∧ setEffectParameter "ringmod" "resonance" 1 initial = (initial, true)
  ∧ getEffectParameter "ringmod" "frequency"
      (setEffectParameter "ringmod" "frequency" 100000 initial).1 = 100000%Q.
Proof.
  destruct (effect_parameter_access "reverb" "output" 1 initial) as (Hunknown & _).
  destruct (effect_parameter_access "ringmod" "resonance" 1 initial)
    as (_ & Hparam & _).
  destruct (effect_parameter_access "ringmod" "frequency" 100000 initial)
    as (_ & _ & Hset).
  split; [by vm_compute|]. split.
  - apply Hunknown. by vm_compute.
  - split.
    + apply (Hparam {| active := false; nodes := createEffectNodes "ringmod" |});
        by vm_compute.
    + apply (Hset {| active := false; nodes := createEffectNodes "ringmod" |}
               "oscillator"%string Frequency 30%Q (OscillatorNode 30));
        try (vm_compute; reflexivity).
      eexists. reflexivity.
Defined.

(** *** One voice per region *)

Lemma stopLoopedSampleWithEffect_playing g e :
  playing (stopLoopedSampleWithEffect g e)
  = match activeLoopedSources e !! g with
    | Some v => delete (source v) (playing e)
    | None => playing e
    end
  ∧ nextNode (stopLoopedSampleWithEffect g e) = nextNode e.
Proof.
  unfold stopLoopedSampleWithEffect.
  destruct (activeLoopedSources e !! g) as [v|] eqn:Hg; [|done].
  simpl. case_match; [|done].
  by destruct (applyEffect_voices (effectKey (effectName v)) false
                 (setVoices (activeLoopedSources e) (delete (source v) (playing e))
                    (nextNode e) e)) as (_ & -> & ->).
Qed.

Lemma stopLoopedSampleWithEffect_voicesPlaying g e :
  voicesPlaying e → voicesPlaying (stopLoopedSampleWithEffect g e).
Proof.
  intros (Hreg & Hplay & Hfresh). unfold voicesPlaying.
  destruct (stopLoopedSampleWithEffect_playing g e) as [-> ->].
  rewrite stopLoopedSampleWithEffect_voices.
  destruct (activeLoopedSources e !! g) as [v|] eqn:Hg.
  2:{ by rewrite delete_id. }
  split; [|split].
  - intros g' v' Hl. apply lookup_delete_Some in Hl as [Hne Hl].
    rewrite lookup_delete_ne; [by apply Hreg|].
    intros Heq. apply Hreg in Hg, Hl. rewrite Heq in Hg. congruence.
  - intros id g' Hl. apply lookup_delete_Some in Hl as [Hne Hl].
    destruct (Hplay _ _ Hl) as (v' & Hv' & Hs). exists v'. split; [|done].
    rewrite lookup_delete_ne; [done|]. intros <-. congruence.
  - intros id [g' Hl]. apply lookup_delete_Some in Hl as [_ Hl]. eauto.
Qed.

Lemma rollback_voices name e :
  activeLoopedSources (rollback name e) = activeLoopedSources e
  ∧ playing (rollback name e) = playing e
  ∧ nextNode (rollback name e) = nextNode e.
Proof.
  unfold rollback. destruct name as [n|]; [|done]. case_match; [done|].
  apply applyEffect_voices.
Qed.

Lemma routed_voices name e :
  activeLoopedSources (routed name e) = activeLoopedSources e
  ∧ playing (routed name e) = playing e
  ∧ nextNode (routed name e) = nextNode e.
Proof. destruct name as [n|]; [apply applyEffect_voices|done]. Qed.

Lemma call_voicesPlaying c e : voicesPlaying e → voicesPlaying (call e c).
Proof.
  intros Hv. destruct c as [g setup name volume|g]; simpl.
  2:{ by apply stopLoopedSampleWithEffect_voicesPlaying. }
  pose proof (stopLoopedSampleWithEffect_voicesPlaying g e Hv)
    as (Hreg & Hplay & Hfresh).
  pose proof (stopLoopedSampleWithEffect_voices g e) as Hm0.
  set (e0 := stopLoopedSampleWithEffect g e) in *.
  assert (activeLoopedSources e0 !! g = None) as Hg
    by (rewrite Hm0; apply lookup_delete_eq).
  destruct setup.
  - rewrite start_completes. fold e0. unfold voicesPlaying. simpl.
    split; [|split].
    + intros g' v' Hl. apply lookup_insert_Some in Hl as [[<- <-]|[Hne Hl]].
      * apply lookup_insert_eq.
      * rewrite lookup_insert_ne; [by apply Hreg|].
        intros Heq. assert (source v' < nextNode e0)%nat; [|lia].
        apply Hfresh. rewrite (Hreg _ _ Hl). eauto.
    + intros id g' Hl. apply lookup_insert_Some in Hl as [[<- <-]|[Hne Hl]].
      * eexists. split; [apply lookup_insert_eq|done].
      * destruct (Hplay _ _ Hl) as (v' & Hv' & Hs). exists v'. split; [|done].
        rewrite lookup_insert_ne; [done|]. intros <-. congruence.
    + intros id [g' Hl]. apply lookup_insert_Some in Hl as [[<- _]|[_ Hl]]; [lia|].
      assert (id < nextNode e0)%nat; [eauto|lia].
  - rewrite start_throws_before. fold e0. unfold voicesPlaying. cbn [fst].
    by destruct (rollback_voices name e0) as (-> & -> & ->).
  - rewrite start_throws_after. fold e0. unfold voicesPlaying. cbn [fst].
    destruct (rollback_voices name
                (setVoices (activeLoopedSources e0) (playing e0) (S (nextNode e0))
                   (routed name e0))) as (-> & -> & ->).
    simpl. split; [done|]. split; [done|].
    intros id His. apply Hfresh in His. lia.
Qed.

Lemma calls_voicesPlaying cs e : voicesPlaying e → voicesPlaying (calls cs e).
Proof.
  unfold calls. revert e. induction cs as [|c cs IH]; intros e H; [done|].
  simpl. by apply IH, call_voicesPlaying.
Qed.

Lemma initial_voicesPlaying : voicesPlaying initial.
Proof.
  unfold voicesPlaying, initial. simpl.
  split; [|split]; intros *; rewrite lookup_empty; done.
Qed.

(** The registry entries of the effect keep their nodes through a stop. *)
Lemma stopLoopedSampleWithEffect_nodes g e name effect :
  webAudioEffects e !! name = Some effect →
  ∃ effect', webAudioEffects (stopLoopedSampleWithEffect g e) !! name = Some effect'
             ∧ nodes effect' = nodes effect.
Proof.
  intros Hl. unfold stopLoopedSampleWithEffect.
  destruct (activeLoopedSources e !! g) as [v|]; [|eauto]. simpl.
  case_match; [|eauto].
  pose proof (applyEffect_registry (effectKey (effectName v)) false
                (setVoices (activeLoopedSources e) (delete (source v) (playing e))
                   (nextNode e) e) name) as H'.
  simpl in H'. rewrite Hl in H'. destruct H' as (eff' & ? & ? & _). eauto.
Qed.

Lemma applyEffect_on_succeeds name e effect :
  webAudioEffects e !! name = Some effect →
  is_Some (nodes effect !! "input"%string) →
  is_Some (nodes effect !! "output"%string) →
  (applyEffect name true e).2 = true.
Proof.
  intros Hl [ni Hi] [no Ho]. unfold applyEffect. rewrite Hl, Hi, Ho.
  by destruct (active effect).
Qed.

(** One voice per region when calls do not overlap.  In every state the
    engine reaches by start calls (whatever their outcome) and stop calls,
    each running to its end before the next, the sources that play are
    exactly the sources
    of the registered voices, so no region has two voices.  A start call
    first tears down the voice registered for its region: its source no
    longer plays when the call returns.  A voice built with a null effect
    name has dry gain 1.0 and wet gain 0.0; a voice built with the name of
    a registered effect that has its input and output nodes, which is then
    activated, has dry gain 0.3 and wet gain 0.7. *)
Theorem one_voice_per_region (cs : list Call) (g : Z) (setup : Setup)
    (name : option string) (volume : Q) :
  let e := calls cs initial in
  let r := startLoopedSampleWithEffect g setup name volume e in
  (∀ g' id1 id2,
     playing e !! id1 = Some g' → playing e !! id2 = Some g' → id1 = id2)
  ∧ (∀ id g', playing e !! id = Some g' ↔
       ∃ v, activeLoopedSources e !! g' = Some v ∧ source v = id)
  ∧ (∀ v, activeLoopedSources e !! g = Some v → playing r.1 !! source v = None)
  ∧ (setup = Completes →
     r.2 = true
     ∧ ∃ v, activeLoopedSources r.1 !! g = Some v
       ∧ effectName v = name
       ∧ playing r.1 !! source v = Some g
       ∧ match name with
         | None => dryGain v = 1.0%Q ∧ wetGain v = 0.0%Q
         | Some n =>
             ∀ effect, webAudioEffects e !! n = Some effect →
               is_Some (nodes effect !! "input"%string) →
               is_Some (nodes effect !! "output"%string) →
               isEffectActive n r.1 = true
               ∧ dryGain v = 0.3%Q ∧ wetGain v = 0.7%Q
         end).
Proof.
  intros e r.
  pose proof (calls_voicesPlaying cs initial initial_voicesPlaying)
    as (Hreg & Hplay & Hfresh). fold e in Hreg, Hplay, Hfresh.
  split; [|split; [|split]].
  - intros g' id1 id2 H1 H2.
    destruct (Hplay _ _ H1) as (v1 & Hv1 & <-).
    destruct (Hplay _ _ H2) as (v2 & Hv2 & <-). congruence.
  - intros id g'. split; [apply Hplay|].
    intros (v & Hv & <-). by apply Hreg.
  - intros v Hv.
    pose proof (call_voicesPlaying (Start g setup name volume) e
                  (conj Hreg (conj Hplay Hfresh))) as (_ & Hplay' & _).
    change (call e (Start g setup name volume)) with r.1 in Hplay'.
    destruct (playing r.1 !! source v) as [g'|] eqn:Hp; [|done]. exfalso.
    destruct (Hplay' _ _ Hp) as (v' & Hv' & Hsrc).
    assert (playing (stopLoopedSampleWithEffect g e) !! source v = None) as Hstopped.
    { destruct (stopLoopedSampleWithEffect_playing g e) as [-> _].
      rewrite Hv. apply lookup_delete_eq. }
    pose proof (stopLoopedSampleWithEffect_voicesPlaying g e
                  (conj Hreg (conj Hplay Hfresh))) as (_ & _ & Hfresh0).
    assert (source v < nextNode (stopLoopedSampleWithEffect g e))%nat as Hlt.
    { destruct (stopLoopedSampleWithEffect_playing g e) as [_ ->].
      apply Hfresh. rewrite (Hreg _ _ Hv). eauto. }
    subst r. destruct setup.
    + rewrite start_completes in Hp. simpl in Hp.
      rewrite lookup_insert_ne in Hp by lia. congruence.
    + rewrite start_throws_before in Hp. simpl in Hp.
      destruct (rollback_voices name (stopLoopedSampleWithEffect g e))
        as (_ & Hp' & _).
      rewrite Hp' in Hp. congruence.
    + rewrite start_throws_after in Hp. simpl in Hp.
      destruct (rollback_voices name
                  (setVoices (activeLoopedSources (stopLoopedSampleWithEffect g e))
                     (playing (stopLoopedSampleWithEffect g e))
                     (S (nextNode (stopLoopedSampleWithEffect g e)))
                     (routed name (stopLoopedSampleWithEffect g e))))
        as (_ & Hp' & _).
      rewrite Hp' in Hp. simpl in Hp. congruence.
  - intros ->. subst r. rewrite start_completes. simpl. split; [done|].
    eexists. split; [apply lookup_insert_eq|]. simpl.
    split; [done|]. split; [apply lookup_insert_eq|].
    destruct name as [n|]; [|done].
    intros effect Hl Hi Ho.
    destruct (stopLoopedSampleWithEffect_nodes g e n effect Hl)
      as (effect' & Hl' & Hn).
    rewrite <- Hn in Hi, Ho.
    pose proof (applyEffect_on_succeeds n _ effect' Hl' Hi Ho) as Hok.
    simpl. rewrite Hok. split; [|done].
    unfold isEffectActive. simpl.
    unfold applyEffect in Hok |- *. rewrite Hl' in Hok |- *.
    destruct Hi as [ni Hi], Ho as [no Ho]. rewrite Hi, Ho.
    destruct (active effect') eqn:Ha; simpl.
    + by rewrite Hl'.
    + by rewrite lookup_insert_eq.
Qed.

Lemma one_voice_per_region_witness :
  let e := calls [Start 4 Completes (Some "vibrato"%string) 1] initial in
  let r := startLoopedSampleWithEffect 4 Completes (Some "freezer"%string) 1 e in
  (∃ v, activeLoopedSources e !! 4 = Some v ∧ playing r.1 !! source v = None)
  ∧ ∃ v, activeLoopedSources r.1 !! 4 = Some v
      ∧ dryGain v = 0.3%Q ∧ wetGain v = 0.7%Q.
Proof.
  intros e r.
  destruct (one_voice_per_region [Start 4 Completes (Some "vibrato"%string) 1]
              4 Completes (Some "freezer"%string) 1)
    as (_ & _ & Htorn & Hbuilt).
  fold e in Htorn, Hbuilt. fold r in Htorn, Hbuilt.
  split.
  - eexists. split; [vm_compute; reflexivity|].
    apply Htorn. vm_compute. reflexivity.
  - destruct (Hbuilt eq_refl) as (_ & v & Hv & _ & _ & Hgains).
    exists v. split; [exact Hv|].
    apply (Hgains {| active := false; nodes := createEffectNodes "freezer" |});
      [vm_compute; reflexivity | eexists; vm_compute; reflexivity
       | eexists; vm_compute; reflexivity].
Defined.

(** *** Failing starts *)

(** A start call whose [try] block is left by an exception returns
    [false], registers no voice and starts no source. *)
Lemma start_failure g setup name volume e :
  setup ≠ Completes →
  let r := startLoopedSampleWithEffect g setup name volume e in
  r.2 = false
  ∧ activeLoopedSources r.1 = delete g (activeLoopedSources e)
  ∧ playing r.1 = playing (stopLoopedSampleWithEffect g e).
Proof.
  intros Hs. destruct setup; [done| |].
  - rewrite start_throws_before. cbn [fst snd].
    destruct (rollback_voices name (stopLoopedSampleWithEffect g e))
      as (-> & -> & _).
    by rewrite stopLoopedSampleWithEffect_voices.
  - rewrite start_throws_after. cbn [fst snd].
    destruct (rollback_voices name
                (setVoices (activeLoopedSources (stopLoopedSampleWithEffect g e))
                   (playing (stopLoopedSampleWithEffect g e))
                   (S (nextNode (stopLoopedSampleWithEffect g e)))
                   (routed name (stopLoopedSampleWithEffect g e))))
      as (-> & -> & _).
    simpl. by rewrite stopLoopedSampleWithEffect_voices.
Qed.

(** C7, on the code.  Region 0 plays through "ringmod"; a start for region
    1 with the same effect fails while its sample is decoded.  The call
    returns [false], but its [catch] block has deactivated "ringmod" and
    taken it off the bus although the voice of region 0 is still
    registered, still plays and still sends 0.7 of its signal to the
    effects input. *)
Theorem failed_start_disconnects_shared_effect :
  let e1 := calls [Start 0 Completes (Some "ringmod"%string) 1] initial in
  let r := startLoopedSampleWithEffect 1 ThrowsBeforeEffect
             (Some "ringmod"%string) 1 e1 in
  isEffectActive "ringmod" e1 = true
  ∧ connected "ringmod" e1
  ∧ r.2 = false
  ∧ isEffectActive "ringmod" r.1 = false
  ∧ disconnected "ringmod" r.1
  ∧ othersUsingEffect (Some "ringmod"%string) (activeLoopedSources r.1) = 1%nat
  ∧ ∃ v, activeLoopedSources r.1 !! 0 = Some v
      ∧ effectName v = Some "ringmod"%string
      ∧ wetGain v = 0.7%Q
      ∧ playing r.1 !! source v = Some 0.
Proof.
  intros e1 r.
  split; [by vm_compute|].
  split; [split; by vm_compute|].
  split; [by vm_compute|].
  split; [by vm_compute|].
  split; [split; by vm_compute|].
  split; [by vm_compute|].
  eexists. split; [vm_compute; reflexivity|]. by vm_compute.
Qed.

(** *** Master capture *)

(** C8 as the design document states it fails on the engine: a capture is
    in progress and a second start is not rejected; it returns the promise
    of a second recording, and two recorders capture the master bus. *)
Lemma second_capture_not_rejected :
  let e1 := (startPerformanceRecording true initial).1 in
  let r := startPerformanceRecording true e1 in
  size (capturing e1) = 1%nat
  ∧ r.2 = true
  ∧ size (capturing r.1) = 2%nat
  ∧ performanceRecorder e1 = Some 0%nat
  ∧ performanceRecorder r.1 = Some 1%nat.
Proof. by vm_compute. Qed.
(** *** Resetting the parameters *)

Lemma paramTarget_effects name paramId target :
  paramTarget name paramId = Some target → name ∈ effects.
Proof.
  unfold paramTarget, effects.
  repeat match goal with
         | |- context [String.eqb name ?s] =>
             destruct (String.eqb_spec name s) as [->|_];
             [intros _; set_solver|]
         end.
  done.
Qed.

Lemma resetAllEffectParameters_lookup e name :
  webAudioEffects (resetAllEffectParameters e) !! name
  = setNodes (createEffectNodes name) <$> webAudioEffects e !! name.
Proof.
  unfold resetAllEffectParameters. cbn [webAudioEffects setBus setEffects].
  rewrite map_lookup_imap. by destruct (webAudioEffects e !! name).
Qed.

(** X6.  After [resetAllEffectParameters] every parameter of every
    registered effect reads as in a freshly loaded engine, whatever was set
    before; the active flags and the voices are kept.  The nodes that are
    registered after the reset are new and not connected to the bus, also
    those of an effect that is flagged active, and activating such an
    effect again connects nothing. *)
Theorem resetAllEffectParameters_defaults (e : AudioEngine) (name paramId : string)
    (effect : Effect) :
  webAudioEffects e !! name = Some effect →
  let e' := resetAllEffectParameters e in
  getEffectParameter name paramId e' = getEffectParameter name paramId initial
  ∧ isEffectActive name e' = active effect
  ∧ disconnected name e'
  ∧ activeLoopedSources e' = activeLoopedSources e
  ∧ (active effect = true → applyEffect name true e' = (e', true)).
Proof.
  intros Hname e'.
  assert (webAudioEffects e' !! name
          = Some (setNodes (createEffectNodes name) effect)) as Hreset.
  { subst e'. by rewrite resetAllEffectParameters_lookup, Hname. }
  split; [|split; [|split; [|split]]].
  - unfold getEffectParameter. rewrite Hreset.
    destruct (paramTarget name paramId) as [[[nodeName p] fallback]|] eqn:Htarget.
    + apply paramTarget_effects in Htarget.
      destruct (effects_registered name Htarget) as [effect0 Hinit].
      rewrite Hinit. apply initial_registry in Hinit as [_ ->]. done.
    + by destruct (webAudioEffects initial !! name).
  - unfold isEffectActive. by rewrite Hreset.
  - subst e'. unfold disconnected, resetAllEffectParameters.
    cbn [effectsInputTo effectsOutputFrom setBus].
    assert (name ∈ dom (webAudioEffects e)) by (apply elem_of_dom; eauto).
    split; intros Hin; apply elem_of_difference in Hin as [_ Hin]; done.
  - done.
  - intros Hactive. by apply (applyEffect_same _ _ _ _ Hreset).
Qed.

Lemma resetAllEffectParameters_defaults_witness :
  let e := (setEffectParameter "ringmod" "frequency" 440
              (applyEffect "ringmod" true initial).1).1 in
  getEffectParameter "ringmod" "frequency" e = 440%Q
  ∧ getEffectParameter "ringmod" "frequency" (resetAllEffectParameters e) = 30%Q
  ∧ isEffectActive "ringmod" (resetAllEffectParameters e) = true
  ∧ disconnected "ringmod" (resetAllEffectParameters e).
Proof.
  intros e. split; [vm_compute; reflexivity|].
  destruct (resetAllEffectParameters_defaults e "ringmod" "frequency"
              {| active := true;
                 nodes := <["oscillator"%string := OscillatorNode 440]>
                            (createEffectNodes "ringmod") |})
    as (Hget & Hactive & Hbus & _).
  - vm_compute. reflexivity.
  - split; [|split; [exact Hactive|exact Hbus]].
    rewrite Hget. vm_compute. reflexivity.
Defined.

(** *** Parameters are independent *)

(** Two parameter ids of an effect that stand for the same node are the
    same id. *)
Lemma paramTarget_injective name paramId paramId' nodeName p p' fallback fallback' :
  paramTarget name paramId = Some (nodeName, p, fallback) →
  paramTarget name paramId' = Some (nodeName, p', fallback') →
  paramId = paramId'.
Proof.
  unfold paramTarget.
  repeat match goal with
         | |- context [String.eqb name ?s] =>
             destruct (String.eqb_spec name s) as [->|_]
         end;
    repeat match goal with
           | |- context [String.eqb paramId ?s] =>
               destruct (String.eqb_spec paramId s) as [->|_]
           end;
    repeat match goal with
           | |- context [String.eqb paramId' ?s] =>
               destruct (String.eqb_spec paramId' s) as [->|_]
           end;
    congruence.
Qed.

Lemma setEffectParameter_fields name paramId value e :
  let e' := (setEffectParameter name paramId value e).1 in
  effectsInputTo e' = effectsInputTo e
  ∧ effectsOutputFrom e' = effectsOutputFrom e
  ∧ activeLoopedSources e' = activeLoopedSources e
  ∧ playing e' = playing e
  ∧ ∀ other,
      match webAudioEffects e !! other with
      | Some effect =>
          ∃ effect', webAudioEffects e' !! other = Some effect'
            ∧ active effect' = active effect
            ∧ (other ≠ name → nodes effect' = nodes effect)
            ∧ ∀ nodeName,
                (∀ p fallback, paramTarget name paramId ≠ Some (nodeName, p, fallback)) →
                nodes effect' !! nodeName = nodes effect !! nodeName
      | None => webAudioEffects e' !! other = None
      end.
Proof.
  unfold setEffectParameter.
  destruct (webAudioEffects e !! name) as [effect|] eqn:Hname;
    [|repeat split; try done; intros other;
      destruct (webAudioEffects e !! other) eqn:Ho; rewrite ?Ho; eauto].
  destruct (paramTarget name paramId) as [[[nodeName p] fallback]|] eqn:Htarget;
    [|repeat split; try done; intros other;
      destruct (webAudioEffects e !! other) eqn:Ho; rewrite ?Ho; eauto].
  destruct (nodes effect !! nodeName) as [n|] eqn:Hnode;
    [|repeat split; try done; intros other;
      destruct (webAudioEffects e !! other) eqn:Ho; rewrite ?Ho; eauto].
  destruct (writeParam p value n) as [n'|] eqn:Hwrite;
    [|repeat split; try done; intros other;
      destruct (webAudioEffects e !! other) eqn:Ho; rewrite ?Ho; eauto].
  cbn [fst]. repeat split; try done. intros other.
  cbn [webAudioEffects setEffects].
  destruct (decide (other = name)) as [->|Hne].
  - rewrite Hname, lookup_insert_eq. eexists. split; [done|].
    split; [done|]. split; [done|]. intros nodeName' Hnot.
    cbn [nodes setNodes]. rewrite lookup_insert_ne; [done|].
    intros ->. by apply (Hnot p fallback).
  - rewrite lookup_insert_ne by done.
    destruct (webAudioEffects e !! other) eqn:Ho; eauto.
Qed.

(** X7.  Setting a parameter changes that parameter only: every other
    parameter of every effect reads as before, and the active flags, the
    bus, the voices and the playing sources are as before. *)
Theorem setEffectParameter_frame (name paramId : string) (value : Q)
    (e : AudioEngine) (name' paramId' : string) :
  let e' := (setEffectParameter name paramId value e).1 in
  ((name', paramId') ≠ (name, paramId) →
   getEffectParameter name' paramId' e' = getEffectParameter name' paramId' e)
  ∧ isEffectActive name' e' = isEffectActive name' e
  ∧ effectsInputTo e' = effectsInputTo e
  ∧ effectsOutputFrom e' = effectsOutputFrom e
  ∧ activeLoopedSources e' = activeLoopedSources e
  ∧ playing e' = playing e.
Proof.
  intros e'.
  destruct (setEffectParameter_fields name paramId value e)
    as (Hi & Ho & Hv & Hp & Hreg).
  fold e' in Hi, Ho, Hv, Hp, Hreg. specialize (Hreg name').
  repeat split; try done.
  - intros Hne. unfold getEffectParameter.
    destruct (webAudioEffects e !! name') as [effect|] eqn:Hname';
      [|by rewrite Hreg].
    destruct Hreg as (effect' & -> & _ & Hother & Hnodes).
    destruct (paramTarget name' paramId') as [[[nodeName' p'] fallback']|] eqn:Ht;
      [|done].
    destruct (decide (name' = name)) as [->|Hn].
    + rewrite Hnodes; [done|]. intros p fallback Ht'. apply Hne.
      f_equal. eapply paramTarget_injective; eassumption.
    + by rewrite Hother.
  - unfold isEffectActive.
    destruct (webAudioEffects e !! name') as [effect|] eqn:Hname';
      [|by rewrite Hreg].
    by destruct Hreg as (effect' & -> & -> & _).
Qed.

Lemma setEffectParameter_frame_witness :
  let e' := (setEffectParameter "filterdelay" "feedback" 0.7 initial).1 in
  getEffectParameter "filterdelay" "feedback" e' = 0.7%Q
  ∧ getEffectParameter "filterdelay" "delayTime" e'
    = getEffectParameter "filterdelay" "delayTime" initial.
Proof.
  intros e'. split; [vm_compute; reflexivity|].
  apply (setEffectParameter_frame "filterdelay" "feedback" 0.7 initial
           "filterdelay" "delayTime").
  intros H. discriminate H.
Defined.

(** *** Starting and stopping *)

Lemma stopLoopedSampleWithEffect_absent g e :
  activeLoopedSources e !! g = None → stopLoopedSampleWithEffect g e = e.
Proof. intros H. unfold stopLoopedSampleWithEffect. by rewrite H. Qed.

Lemma add_remove (X : gset string) (x : string) :
  x ∉ X → ({[x]} ∪ X) ∖ {[x]} = X.
Proof.
  intros Hx. apply set_eq. intros y.
  rewrite elem_of_difference, elem_of_union, !elem_of_singleton.
  split; [tauto|]. intros Hy. split; [tauto|]. by intros ->.
Qed.

Lemma setActive_back effect :
  active effect = false → setActive false (setActive true effect) = effect.
Proof. destruct effect. simpl. by intros ->. Qed.

(** Activating an effect that is off and not on the bus, and deactivating
    it again. *)
Lemma applyEffect_on_off name e effect :
  webAudioEffects e !! name = Some effect → active effect = false →
  is_Some (nodes effect !! "input"%string) →
  is_Some (nodes effect !! "output"%string) →
  name ∉ effectsInputTo e → name ∉ effectsOutputFrom e →
  (applyEffect name false (applyEffect name true e).1).1 = e.
Proof.
  intros Hname Hoff [ni Hi] [no Ho] Hin Hout.
  unfold applyEffect at 2. rewrite Hname, Hoff, Hi, Ho. cbn [andb negb fst].
  unfold applyEffect. cbn [webAudioEffects setEffects setBus].
  rewrite lookup_insert_eq. cbn [active setActive nodes andb negb].
  rewrite Hi, Ho. unfold disconnectFromBus.
  cbn [effectsInputTo effectsOutputFrom setEffects setBus].
  rewrite decide_True by (apply elem_of_union; left; by apply elem_of_singleton).
  rewrite decide_True by (apply elem_of_union; left; by apply elem_of_singleton).
  cbn [fst webAudioEffects effectsInputTo effectsOutputFrom setEffects setBus
       activeLoopedSources playing nextNode performanceRecorder capturing
       nextRecorder].
  rewrite insert_insert_eq, setActive_back by done.
  rewrite insert_id by done.
  rewrite !add_remove by done.
  by destruct e.
Qed.

Lemma setVoices_setVoices m p n m' p' n' e :
  setVoices m p n (setVoices m' p' n' e) = setVoices m p n e.
Proof. done. Qed.

Lemma applyEffect_setVoices name isActive m p n e :
  applyEffect name isActive (setVoices m p n e)
  = (setVoices m p n (applyEffect name isActive e).1, (applyEffect name isActive e).2).
Proof.
  unfold applyEffect. cbn [webAudioEffects setVoices].
  destruct (webAudioEffects e !! name) as [effect|]; [|done].
  destruct (isActive && negb (active effect)).
  - by destruct (nodes effect !! "input"%string), (nodes effect !! "output"%string).
  - destruct (negb isActive && active effect); [|done].
    destruct (nodes effect !! "input"%string), (nodes effect !! "output"%string);
      try done.
    unfold disconnectFromBus. cbn [effectsInputTo effectsOutputFrom setVoices].
    repeat case_decide; done.
Qed.

Lemma stopLoopedSampleWithEffect_registered_voice g v m p n e :
  m !! g = Some v →
  stopLoopedSampleWithEffect g (setVoices m p n e)
  = setVoices (delete g m) (delete (source v) p) n
      (if (othersUsingEffect (effectName v) m <=? 1)%nat
       then (applyEffect (effectKey (effectName v)) false e).1
       else e).
Proof.
  intros Hg. unfold stopLoopedSampleWithEffect.
  change (activeLoopedSources (setVoices m p n e)) with m. rewrite Hg.
  change (setVoices m (delete (source v) (playing (setVoices m p n e)))
            (nextNode (setVoices m p n e)) (setVoices m p n e))
    with (setVoices m (delete (source v) p) n e).
  cbv zeta.
  change (activeLoopedSources (setVoices m (delete (source v) p) n e)) with m.
  destruct (othersUsingEffect (effectName v) m <=? 1)%nat; [|done].
  rewrite (applyEffect_setVoices (effectKey (effectName v)) false m
             (delete (source v) p) n e).
  done.
Qed.

(** X8.  Starting a voice on a free region and stopping it again leaves the
    engine as it was, but for the node identities used up: the registry,
    the flags, the bus, the voices and the playing sources are those from
    before the start, whether the effect was in use by other voices,
    unused, unknown or absent. *)
Theorem start_stop_round_trip (g : Z) (name : option string) (volume : Q)
    (e : AudioEngine) :
  wellFormed e → consistent e → voicesPlaying e →
  activeLoopedSources e !! g = None →
  stopLoopedSampleWithEffect g
    (startLoopedSampleWithEffect g Completes name volume e).1
  = setVoices (activeLoopedSources e) (playing e) (S (nextNode e)) e.
Proof.
  intros [Hnull Hwf] Hcons (_ & _ & Hfresh) Hfree.
  rewrite start_completes. cbn [fst].
  rewrite (stopLoopedSampleWithEffect_absent g e Hfree).
  destruct (routed_voices name e) as (Hrv & Hrp & Hrn).
  assert (playing e !! nextNode e = None) as Hnext.
  { destruct (playing e !! nextNode e) eqn:Hp; [|done].
    assert (nextNode e < nextNode e)%nat by (apply Hfresh; eauto). lia. }
  erewrite stopLoopedSampleWithEffect_registered_voice by apply lookup_insert_eq.
  cbn [source effectName].
  rewrite !delete_insert_id by done.
  rewrite othersUsingEffect_insert by done. cbn [effectName].
  rewrite decide_True by done.
  assert ((if (S (othersUsingEffect name (activeLoopedSources e)) <=? 1)%nat
           then (applyEffect (effectKey name) false (routed name e)).1
           else routed name e) = e) as ->; [|done].
  destruct name as [n|]; cbn [routed effectKey].
  - destruct (webAudioEffects e !! n) as [effect|] eqn:Hn.
    + destruct (Hcons n effect Hn) as (Huse & Hin & Hout).
      destruct (Hwf n effect Hn) as [Hi Ho].
      destruct (active effect) eqn:Hact.
      * rewrite (applyEffect_same _ _ _ _ Hn Hact). cbn [fst].
        assert (0 < othersUsingEffect (Some n) (activeLoopedSources e))%nat
          as Hpos by by apply Huse.
        destruct (Nat.leb_spec
                    (S (othersUsingEffect (Some n) (activeLoopedSources e))) 1);
          [lia|done].
      * assert (othersUsingEffect (Some n) (activeLoopedSources e) = 0%nat)
          as ->.
        { destruct (othersUsingEffect (Some n) (activeLoopedSources e)) eqn:Hc;
            [done|].
          assert (false = true) by (apply Huse; lia). done. }
        cbn [Nat.leb].
        rewrite (applyEffect_on_off n e effect); try done.
        -- intros H. apply Hin in H. done.
        -- intros H. apply Hout in H. done.
    + rewrite (applyEffect_unknown n true e Hn). cbn [fst].
      rewrite (applyEffect_unknown n false e Hn). by destruct (_ <=? _)%nat.
  - rewrite applyEffect_unknown by done. by destruct (_ <=? _)%nat.
Qed.

Lemma start_stop_round_trip_witness :
  stopLoopedSampleWithEffect 3
    (startLoopedSampleWithEffect 3 Completes (Some "octaver"%string) 1 initial).1
  = setVoices ∅ ∅ 1%nat initial.
Proof.
  apply (start_stop_round_trip 3 (Some "octaver"%string) 1 initial).
  - apply initial_wellFormed.
  - apply initial_consistent.
  - apply initial_voicesPlaying.
  - reflexivity.
Defined.

(** X9.  A voice whose effect name is not registered is played dry: the
    start succeeds, the voice is registered under that name with gains 1.0
    and 0.0 and its source plays, and the registry and the bus are what
    stopping the previous voice of the region left. *)
Theorem unknown_effect_plays_dry (g : Z) (name : string) (volume : Q)
    (e : AudioEngine) :
  webAudioEffects e !! name = None →
  let e0 := stopLoopedSampleWithEffect g e in
  let r := startLoopedSampleWithEffect g Completes (Some name) volume e in
  r.2 = true
  ∧ (∃ v, activeLoopedSources r.1 !! g = Some v
       ∧ effectName v = Some name
       ∧ dryGain v = 1.0%Q ∧ wetGain v = 0.0%Q
       ∧ playing r.1 !! source v = Some g)
  ∧ webAudioEffects r.1 = webAudioEffects e0
  ∧ effectsInputTo r.1 = effectsInputTo e0
  ∧ effectsOutputFrom r.1 = effectsOutputFrom e0.
Proof.
  intros Hname e0 r. subst r. rewrite start_completes. fold e0.
  assert (webAudioEffects e0 !! name = None) as Hname0.
  { destruct (webAudioEffects e0 !! name) as [effect|] eqn:H0; [|done].
    pose proof (applyEffect_registry name false e name) as Hreg.
    subst e0. unfold stopLoopedSampleWithEffect in H0.
    destruct (activeLoopedSources e !! g) as [v|]; [|congruence].
    cbn [webAudioEffects setVoices] in H0.
    destruct (_ <=? _)%nat in H0; cbn [webAudioEffects setVoices] in H0;
      [|congruence].
    pose proof (applyEffect_registry (effectKey (effectName v)) false
                  (setVoices (activeLoopedSources e)
                     (delete (source v) (playing e)) (nextNode e) e) name) as Hr.
    cbn [webAudioEffects setVoices] in Hr. rewrite Hname in Hr.
    cbv zeta in Hr. congruence. }
  cbn [fst snd routed gains]. rewrite (applyEffect_unknown_on name e0 Hname0).
  cbn [fst snd activeLoopedSources playing webAudioEffects effectsInputTo
       effectsOutputFrom setVoices].
  split; [done|]. split; [|done].
  eexists. split; [apply lookup_insert_eq|].
  cbn [effectName dryGain wetGain source]. repeat split.
  apply lookup_insert_eq.
Qed.

Lemma unknown_effect_plays_dry_witness :
  let r := startLoopedSampleWithEffect 2 Completes (Some "chorus"%string) 1 initial in
  r.2 = true
  ∧ ∃ v, activeLoopedSources r.1 !! 2 = Some v
      ∧ dryGain v = 1.0%Q ∧ wetGain v = 0.0%Q.
Proof.
  destruct (unknown_effect_plays_dry 2 "chorus" 1 initial eq_refl)
    as (Hok & (v & Hv & _ & Hdry & Hwet & _) & _).
  split; [exact Hok|]. exists v. split; [exact Hv|]. split; [exact Hdry|exact Hwet].
Defined.

(** *** Starts that overlap *)

Lemma start_two_parts g setup name volume e :
  startLoopedSampleWithEffect g setup name volume e
  = startLoopedSampleWithEffectEnd g setup name volume
      (startLoopedSampleWithEffectBegin g e).
Proof. reflexivity. Qed.

Lemma startLoopedSampleWithEffectBegin_stop g e :
  startLoopedSampleWithEffectBegin g e = stopLoopedSampleWithEffect g e.
Proof. apply teardown_stop. Qed.

Lemma startLoopedSampleWithEffectEnd_completes g name volume e0 :
  startLoopedSampleWithEffectEnd g Completes name volume e0
  = (setVoices
       (<[g := {| source := nextNode e0; effectName := name;
                  dryGain := (gains name e0).1; wetGain := (gains name e0).2 |}]>
          (activeLoopedSources e0))
       (<[nextNode e0 := g]> (playing e0)) (S (nextNode e0)) (routed name e0),
     true).
Proof.
  unfold startLoopedSampleWithEffectEnd. simpl.
  destruct name as [n|]; simpl; [|done].
  destruct (applyEffect_voices n true e0) as (Hm & Hp & Hn).
  destruct (applyEffect n true e0) as [e' ok].
  simpl in *. destruct ok; simpl; by rewrite Hm, Hp.
Qed.

Lemma startLoopedSampleWithEffectEnd_voices g setup name volume e0 :
  let r := startLoopedSampleWithEffectEnd g setup name volume e0 in
  match setup with
  | Completes =>
      r.2 = true
      ∧ ∃ voice, effectName voice = name ∧ source voice = nextNode e0
          ∧ activeLoopedSources r.1 = <[g := voice]> (activeLoopedSources e0)
          ∧ playing r.1 = <[nextNode e0 := g]> (playing e0)
          ∧ nextNode r.1 = S (nextNode e0)
  | _ =>
      r.2 = false
      ∧ activeLoopedSources r.1 = activeLoopedSources e0
      ∧ playing r.1 = playing e0
      ∧ (nextNode e0 <= nextNode r.1)%nat
  end.
Proof.
  intros r. subst r.
  destruct (routed_voices name e0) as (Hm & Hp & Hn).
  destruct setup.
  - rewrite startLoopedSampleWithEffectEnd_completes. cbn [fst snd].
    split; [done|]. eexists. split; [|split; [|done]]; done.
  - unfold startLoopedSampleWithEffectEnd. cbn [fst snd].
    by destruct (rollback_voices name e0) as (-> & -> & ->).
  - assert (startLoopedSampleWithEffectEnd g ThrowsAfterEffect name volume e0
            = (rollback name
                 (setVoices (activeLoopedSources e0) (playing e0) (S (nextNode e0))
                    (routed name e0)), false)) as ->.
    { unfold startLoopedSampleWithEffectEnd. simpl.
      destruct name as [n|]; simpl; [|done].
      destruct (applyEffect_voices n true e0) as (Hm' & Hp' & Hn').
      destruct (applyEffect n true e0) as [e' ok].
      simpl in *. destruct ok; simpl; by rewrite Hm', Hp'. }
    cbn [fst snd].
    destruct (rollback_voices name
                (setVoices (activeLoopedSources e0) (playing e0) (S (nextNode e0))
                   (routed name e0))) as (-> & -> & ->).
    cbn. split; [done|]. split; [done|]. split; [done|]. lia.
Qed.

Lemma stopLoopedSampleWithEffect_orphan id g0 g e :
  orphan id g0 e → orphan id g0 (stopLoopedSampleWithEffect g e).
Proof.
  intros (Hplay & Hlt & Hnot).
  destruct (stopLoopedSampleWithEffect_playing g e) as [Hp Hn].
  pose proof (stopLoopedSampleWithEffect_voices g e) as Hm.
  unfold orphan. rewrite Hp, Hn, Hm. split; [|split; [done|]].
  - destruct (activeLoopedSources e !! g) as [v|] eqn:Hv; [|done].
    rewrite lookup_delete_ne; [done|]. by apply (Hnot g).
  - intros g' v Hl. apply lookup_delete_Some in Hl as [_ Hl]. by apply (Hnot g').
Qed.

Lemma call_orphan id g0 c e : orphan id g0 e → orphan id g0 (call e c).
Proof.
  intros Ho. destruct c as [g setup name volume|g]; cbn [call].
  2:{ by apply stopLoopedSampleWithEffect_orphan. }
  pose proof (stopLoopedSampleWithEffect_orphan id g0 g e Ho)
    as (Hplay & Hlt & Hnot).
  set (e0 := stopLoopedSampleWithEffect g e) in *.
  destruct setup.
  - rewrite start_completes. fold e0. unfold orphan.
    cbn [fst activeLoopedSources playing nextNode setVoices].
    split; [|split; [lia|]].
    + rewrite lookup_insert_ne by lia. done.
    + intros g' v Hl. apply lookup_insert_Some in Hl as [[_ <-]|[_ Hl]].
      * cbn [source]. lia.
      * by apply (Hnot g').
  - rewrite start_throws_before. fold e0. unfold orphan. cbn [fst].
    by destruct (rollback_voices name e0) as (-> & -> & ->).
  - rewrite start_throws_after. fold e0. unfold orphan. cbn [fst].
    destruct (rollback_voices name
                (setVoices (activeLoopedSources e0) (playing e0) (S (nextNode e0))
                   (routed name e0))) as (-> & -> & ->).
    cbn [activeLoopedSources playing nextNode setVoices].
    split; [done|]. split; [lia|done].
Qed.

Lemma calls_orphan id g0 cs e : orphan id g0 e → orphan id g0 (calls cs e).
Proof.
  unfold calls. revert e. induction cs as [|c cs IH]; intros e H; [done|].
  simpl. by apply IH, call_orphan.
Qed.

(** X10.  Two starts for one region that overlap, the second called before
    the first has decoded its sample, leave two sources playing for the
    region.  Only the second is the source of the registered voice; the
    first is out of reach: whatever calls follow, starts or stops, on this
    region or others, it keeps playing. *)
Theorem overlapping_starts_leak_source (e : AudioEngine) (g : Z)
    (name1 name2 : option string) (volume1 volume2 : Q) (cs : list Call) :
  voicesPlaying e →
  let e1 := startLoopedSampleWithEffectBegin g
              (startLoopedSampleWithEffectBegin g e) in
  let e2 := (startLoopedSampleWithEffectEnd g Completes name1 volume1 e1).1 in
  let e3 := (startLoopedSampleWithEffectEnd g Completes name2 volume2 e2).1 in
  let first := nextNode e in
  playing e3 !! first = Some g
  ∧ playing e3 !! S first = Some g
  ∧ (∃ v, activeLoopedSources e3 !! g = Some v ∧ source v = S first)
  ∧ playing (calls cs e3) !! first = Some g.
Proof.
  intros Hv e1 e2 e3 first.
  assert (voicesPlaying e1 ∧ nextNode e1 = first) as [(Hreg & Hplay & Hfresh) Hn1].
  { subst e1 first. rewrite !startLoopedSampleWithEffectBegin_stop. split.
    - by do 2 apply stopLoopedSampleWithEffect_voicesPlaying.
    - destruct (stopLoopedSampleWithEffect_playing g
                  (stopLoopedSampleWithEffect g e)) as [_ ->].
      by destruct (stopLoopedSampleWithEffect_playing g e) as [_ ->]. }
  destruct (routed_voices name1 e1) as (Hm1 & Hp1 & Hr1).
  assert (activeLoopedSources e2
          = <[g := {| source := first; effectName := name1;
                      dryGain := (gains name1 e1).1;
                      wetGain := (gains name1 e1).2 |}]> (activeLoopedSources e1)
          ∧ playing e2 = <[first := g]> (playing e1)
          ∧ nextNode e2 = S first) as (Hm2 & Hp2 & Hn2).
  { subst e2. rewrite startLoopedSampleWithEffectEnd_completes.
    cbn [fst activeLoopedSources playing nextNode setVoices]. by rewrite Hn1. }
  destruct (routed_voices name2 e2) as (Hm2' & Hp2' & Hr2').
  assert (activeLoopedSources e3
          = <[g := {| source := S first; effectName := name2;
                      dryGain := (gains name2 e2).1;
                      wetGain := (gains name2 e2).2 |}]> (activeLoopedSources e2)
          ∧ playing e3 = <[S first := g]> (playing e2)
          ∧ nextNode e3 = S (S first)) as (Hm3 & Hp3 & Hn3).
  { subst e3. rewrite startLoopedSampleWithEffectEnd_completes.
    cbn [fst activeLoopedSources playing nextNode setVoices]. by rewrite Hn2. }
  assert (orphan first g e3) as Horphan.
  { unfold orphan. rewrite Hp3, Hp2, Hn3, Hm3, Hm2. split; [|split; [lia|]].
    - rewrite lookup_insert_ne by lia. apply lookup_insert_eq.
    - intros g' v Hl. rewrite insert_insert_eq in Hl.
      apply lookup_insert_Some in Hl as [[_ <-]|[_ Hl]].
      + cbn [source]. lia.
      + assert (source v < nextNode e1)%nat; [|lia].
        apply Hfresh. rewrite (Hreg _ _ Hl). eauto. }
  split; [apply Horphan|]. split; [|split].
  - rewrite Hp3. apply lookup_insert_eq.
  - eexists. split; [rewrite Hm3; apply lookup_insert_eq|done].
  - by apply (calls_orphan first g cs e3).
Qed.

Lemma overlapping_starts_leak_source_witness :
  let e1 := startLoopedSampleWithEffectBegin 0
              (startLoopedSampleWithEffectBegin 0 initial) in
  let e2 := (startLoopedSampleWithEffectEnd 0 Completes None 1 e1).1 in
  let e3 := (startLoopedSampleWithEffectEnd 0 Completes None 1 e2).1 in
  playing (calls [Stop 0; Stop 0] e3) !! 0%nat = Some 0
  ∧ activeLoopedSources (calls [Stop 0; Stop 0] e3) = ∅.
Proof.
  intros e1 e2 e3. split; [|vm_compute; reflexivity].
  apply (overlapping_starts_leak_source initial 0 None None 1 1 [Stop 0; Stop 0]).
  apply initial_voicesPlaying.
Defined.

(** *** Starts that overlap, on the freshly loaded engine *)

(** C6, on the code.  The cell of region 0 is pressed, released and pressed
    again while the sample of the first press is still being decoded: the
    second start is called before the first has registered its voice, so
    its teardown finds nothing to stop.  When both have resumed, two looped
    sources play for region 0 and one voice is registered; a stop for the
    region stops the registered source and leaves the other playing with no
    voice registered at all.  The same two starts one after the other
    leave one source. *)
Theorem overlapping_starts_two_voices :
  let ringmod := Some "ringmod"%string in
  let e := segments [StartCalled 0; StartCalled 0;
                     StartResumed 0 Completes ringmod 1;
                     StartResumed 0 Completes ringmod 1] initial in
  let stopped := segment e (StopCalled 0) in
  let inTurn := segments [StartCalled 0; StartResumed 0 Completes ringmod 1;
                          StartCalled 0; StartResumed 0 Completes ringmod 1]
                  initial in
  playing e !! 0%nat = Some 0
  ∧ playing e !! 1%nat = Some 0
  ∧ (source <$> activeLoopedSources e !! 0) = Some 1%nat
  ∧ activeLoopedSources stopped !! 0 = None
  ∧ playing stopped !! 0%nat = Some 0
  ∧ playing stopped !! 1%nat = None
  ∧ playing inTurn !! 0%nat = None
  ∧ playing inTurn !! 1%nat = Some 0.
Proof.
  intros ringmod e stopped inTurn.
  repeat (split; [vm_compute; reflexivity|]). vm_compute. reflexivity.
Qed.

(** C1, on the code.  Two starts for region 0 overlap as above, the first
    with "ringmod" and the second, the effect of the cell having been
    changed in between, with "vibrato".  The first to resume activates
    "ringmod" and registers its voice; the second registers its own voice
    under the same region, which replaces the entry.  "ringmod" is now
    active and on the bus with no registered voice referring to it, and
    stays so when the region is stopped and no voice is left. *)
Theorem overlapping_starts_break_reference_count :
  let e := segments [StartCalled 0; StartCalled 0;
                     StartResumed 0 Completes (Some "ringmod"%string) 1;
                     StartResumed 0 Completes (Some "vibrato"%string) 1] initial in
  let stopped := segment e (StopCalled 0) in
  isEffectActive "ringmod" e = true
  ∧ connected "ringmod" e
  ∧ othersUsingEffect (Some "ringmod"%string) (activeLoopedSources e) = 0%nat
  ∧ (effectName <$> activeLoopedSources e !! 0) = Some (Some "vibrato"%string)
  ∧ activeLoopedSources stopped !! 0 = None
  ∧ othersUsingEffect (Some "ringmod"%string) (activeLoopedSources stopped) = 0%nat
  ∧ isEffectActive "ringmod" stopped = true
  ∧ connected "ringmod" stopped.
Proof.
  intros e stopped.
  split; [by vm_compute|].
  split; [split; by vm_compute|].
  split; [by vm_compute|].
  split; [by vm_compute|].
  split; [by vm_compute|].
  split; [by vm_compute|].
  split; [by vm_compute|].
  split; by vm_compute.
Qed.

(** *** Names that are not registered *)

(** C10, on the code.  "constructor" is not a registered effect, but every
    object inherits a property of that name: turning it off is answered
    [true], where a name that is in no way a property of the registry,
    such as "reverb", is answered [false].  The engine is left as it was
    in both cases. *)
Theorem applyEffect_inherited_name :
  webAudioEffects initial !! "constructor"%string = None
  ∧ applyEffect "constructor" false initial = (initial, true)
  ∧ applyEffect "constructor" true initial = (initial, false)
  ∧ webAudioEffects initial !! "reverb"%string = None
  ∧ applyEffect "reverb" false initial = (initial, false).
Proof. repeat (split; [vm_compute; reflexivity|]). vm_compute. reflexivity. Qed.

End EngineFacts.

(** ** Pressure state machines *)

Module AppFacts.
Import App.

(** *** Arrays *)

Lemma arrayGet_arraySet {A} (d : A) (l : list A) (i j : nat) (x : A) :
  arrayGet d (arraySet d i x l) j = if decide (i = j) then x else arrayGet d l j.
Proof.
  unfold arrayGet, arraySet.
  destruct (Nat.ltb_spec i (length l)) as [Hlt|Hge].
  - case_decide as Hij.
    + subst. by rewrite list_lookup_insert_eq.
    + by rewrite list_lookup_insert_ne.
  - case_decide as Hij.
    + subst. rewrite lookup_app_r by done.
      rewrite lookup_app_r by (rewrite length_replicate; lia).
      rewrite length_replicate. by replace (j - length l - (j - length l))%nat with 0%nat by lia.
    + destruct (Nat.lt_ge_cases j (length l)) as [Hj|Hj].
      * by rewrite lookup_app_l.
      * rewrite (lookup_ge_None_2 l j) by done. simpl.
        rewrite lookup_app_r by done.
        destruct (Nat.lt_ge_cases (j - length l) (i - length l)) as [Hr|Hr].
        -- rewrite lookup_app_l by (by rewrite length_replicate).
           by rewrite lookup_replicate_2.
        -- rewrite lookup_app_r by (by rewrite length_replicate).
           rewrite length_replicate.
           destruct (j - length l - (i - length l))%nat as [|k] eqn:Hk; [lia|done].
Qed.

Lemma length_arraySet {A} (d : A) (l : list A) (i : nat) (x : A) :
  (i < length l)%nat → length (arraySet d i x l) = length l.
Proof.
  intros Hi. unfold arraySet.
  destruct (Nat.ltb_spec i (length l)); [apply length_insert|lia].
Qed.

(** *** Scheduling *)

Lemma scheduleRegion_spec pressureMatrix a g region :
  let a' := scheduleRegion pressureMatrix a (g, region) in
  gridCellDebounceTimers a'
  = arraySet None g (Some (scheduled a pressureMatrix region))
      (gridCellDebounceTimers a)
  ∧ gridCellPressureState a' = gridCellPressureState a
  ∧ events a' = events a ∧ now a' = now a
  ∧ pressureThreshold a' = pressureThreshold a
  ∧ pressureDebounceMs a' = pressureDebounceMs a
  ∧ currentMode a' = currentMode a.
Proof. done. Qed.

Lemma scheduled_ext a a' pressureMatrix region :
  now a' = now a → pressureThreshold a' = pressureThreshold a →
  pressureDebounceMs a' = pressureDebounceMs a →
  scheduled a' pressureMatrix region = scheduled a pressureMatrix region.
Proof. intros H1 H2 H3. unfold scheduled. by rewrite H1, H2, H3. Qed.

(** The regions from slot [k] on, scheduled one after the other. *)
Lemma scheduleRegions_spec pressureMatrix regions k a :
  let a' := fold_left (scheduleRegion pressureMatrix)
              (imap (fun i region => ((k + i)%nat, region)) regions) a in
  (∀ g, arrayGet None (gridCellDebounceTimers a') g
        = match (if decide (k ≤ g)%nat then regions !! (g - k)%nat else None) with
          | Some region => Some (scheduled a pressureMatrix region)
          | None => arrayGet None (gridCellDebounceTimers a) g
          end)
  ∧ ((k + length regions ≤ length (gridCellDebounceTimers a))%nat →
     length (gridCellDebounceTimers a') = length (gridCellDebounceTimers a))
  ∧ gridCellPressureState a' = gridCellPressureState a
  ∧ events a' = events a ∧ now a' = now a
  ∧ pressureThreshold a' = pressureThreshold a
  ∧ pressureDebounceMs a' = pressureDebounceMs a
  ∧ currentMode a' = currentMode a.
Proof.
  revert k a. induction regions as [|region regions IH]; intros k a.
  - simpl. split; [|done]. intros g. by case_decide.
  - rewrite imap_cons. cbn [fold_left].
    rewrite (imap_ext _ (fun i r => ((S k + i)%nat, r)))
      by (intros; simpl; f_equal; lia).
    destruct (scheduleRegion_spec pressureMatrix a (k + 0)%nat region)
      as (Htm & Hst & Hev & Hnow & Hthr & Hdeb & Hmode).
    set (a1 := scheduleRegion pressureMatrix a ((k + 0)%nat, region)) in *.
    destruct (IH (S k) a1) as (Htm' & Hlen' & Hst' & Hev' & Hnow' & Hthr' & Hdeb' & Hmode').
    split; [|split].
    + intros g. rewrite Htm'.
      assert (arrayGet None (gridCellDebounceTimers a1) g
              = if decide (k = g) then Some (scheduled a pressureMatrix region)
                else arrayGet None (gridCellDebounceTimers a) g) as Hg.
      { rewrite Htm, arrayGet_arraySet. replace (k + 0)%nat with k by lia. done. }
      destruct (decide (S k ≤ g)%nat) as [Hle|Hgt].
      * rewrite (decide_True (P := (k ≤ g)%nat)) by lia.
        replace (g - k)%nat with (S (g - S k)) by lia. cbn [lookup list_lookup].
        destruct (regions !! (g - S k)%nat) as [r|].
        -- by rewrite (scheduled_ext a a1).
        -- rewrite Hg. by rewrite decide_False by lia.
      * rewrite Hg. destruct (decide (k = g)) as [<-|Hne].
        -- rewrite decide_True by lia. by replace (k - k)%nat with 0%nat by lia.
        -- by rewrite (decide_False (P := (k ≤ g)%nat)) by lia.
    + intros Hk. simpl in Hk. rewrite Hlen'.
      * rewrite Htm. apply length_arraySet. lia.
      * rewrite Htm, length_arraySet by lia. lia.
    + repeat split; congruence.
Qed.

Lemma checkGridCellsForPressure_spec pressureMatrix a :
  let a' := checkGridCellsForPressure pressureMatrix a in
  (∀ g, arrayGet None (gridCellDebounceTimers a') g
        = match gridRegions !! g with
          | Some region => Some (scheduled a pressureMatrix region)
          | None => arrayGet None (gridCellDebounceTimers a) g
          end)
  ∧ (length (gridCellDebounceTimers a) = 9%nat →
     length (gridCellDebounceTimers a') = 9%nat)
  ∧ gridCellPressureState a' = gridCellPressureState a
  ∧ events a' = events a ∧ now a' = now a
  ∧ pressureThreshold a' = pressureThreshold a
  ∧ pressureDebounceMs a' = pressureDebounceMs a
  ∧ currentMode a' = currentMode a.
Proof.
  unfold checkGridCellsForPressure.
  pose proof (scheduleRegions_spec pressureMatrix gridRegions 0 a) as H.
  change (imap (fun i region => ((0 + i)%nat, region)) gridRegions)
    with (imap pair gridRegions) in H.
  destruct H as (Htm & Hlen & Hrest).
  split; [|split; [|exact Hrest]].
  - intros g. rewrite (Htm g). rewrite decide_True by lia.
    by replace (g - 0)%nat with g by lia.
  - intros H9. rewrite Hlen; [done|]. rewrite H9. simpl. lia.
Qed.

(** *** Firing *)

Lemma sameSettings_refl a : sameSettings a a.
Proof. by repeat split. Qed.

Lemma sameSettings_trans a1 a2 a3 :
  sameSettings a1 a2 → sameSettings a2 a3 → sameSettings a1 a3.
Proof. unfold sameSettings. intros H1 H2. intuition congruence. Qed.

Lemma fireTimer_spec g timer a :
  let a' := fireTimer g timer a in
  (∀ j, arrayGet false (gridCellPressureState a') j
        = if decide (g = j) then isPressed timer
          else arrayGet false (gridCellPressureState a) j)
  ∧ (∀ j, arrayGet None (gridCellDebounceTimers a') j
          = if decide (g = j) then None
            else arrayGet None (gridCellDebounceTimers a) j)
  ∧ events a' = events a ++ transition a g timer
  ∧ sameSettings a a'.
Proof.
  unfold fireTimer, transition. cbn [gridCellPressureState withGrid].
  destruct (isPressed timer) eqn:Hp,
    (arrayGet false (gridCellPressureState a) g) eqn:Hc;
    cbn [andb negb emit withGrid gridCellPressureState gridCellDebounceTimers
         events bool_decide];
    (split; [|split; [|split]]);
    try (intros j; rewrite ?arrayGet_arraySet; case_decide; congruence);
    try apply sameSettings_refl;
    rewrite ?bool_decide_eq_true_2, ?bool_decide_eq_false_2 by done;
    by rewrite ?app_nil_r.
Qed.

Lemma fireTimer_length g timer a :
  (g < length (gridCellPressureState a))%nat →
  (g < length (gridCellDebounceTimers a))%nat →
  length (gridCellPressureState (fireTimer g timer a))
  = length (gridCellPressureState a)
  ∧ length (gridCellDebounceTimers (fireTimer g timer a))
    = length (gridCellDebounceTimers a).
Proof.
  intros Hs Ht. unfold fireTimer.
  repeat case_match; cbn [emit withGrid gridCellPressureState gridCellDebounceTimers];
    rewrite ?length_arraySet; done.
Qed.

Lemma runIfDue_spec t a g :
  let a' := runIfDue t a g in
  (∀ j, arrayGet false (gridCellPressureState a') j
        = match pendingDue t a g with
          | Some timer => if decide (g = j) then isPressed timer
                          else arrayGet false (gridCellPressureState a) j
          | None => arrayGet false (gridCellPressureState a) j
          end)
  ∧ (∀ j, arrayGet None (gridCellDebounceTimers a') j
          = match pendingDue t a g with
            | Some timer => if decide (g = j) then None
                            else arrayGet None (gridCellDebounceTimers a) j
            | None => arrayGet None (gridCellDebounceTimers a) j
            end)
  ∧ events a' = events a ++ match pendingDue t a g with
                            | Some timer => transition a g timer
                            | None => []
                            end
  ∧ sameSettings a a'.
Proof.
  unfold runIfDue, pendingDue.
  destruct (arrayGet None (gridCellDebounceTimers a) g) as [timer|].
  2:{ rewrite app_nil_r. repeat split; done. }
  destruct (deadline timer <=? t).
  - apply fireTimer_spec.
  - rewrite app_nil_r. repeat split; done.
Qed.

Lemma runIfDue_length t a g :
  length (gridCellPressureState a) = length (gridCellDebounceTimers a) →
  length (gridCellPressureState (runIfDue t a g)) = length (gridCellPressureState a)
  ∧ length (gridCellDebounceTimers (runIfDue t a g))
    = length (gridCellDebounceTimers a).
Proof.
  intros Hlen. unfold runIfDue, arrayGet.
  destruct (gridCellDebounceTimers a !! g) as [[timer|]|] eqn:Hl; simpl; try done.
  case_match; [|done].
  apply lookup_lt_Some in Hl. apply fireTimer_length; lia.
Qed.

(** The due timers of the first [k] slots have run. *)
Lemma runDue_prefix t a k :
  let a' := fold_left (runIfDue t) (seq 0 k) a in
  (∀ j, arrayGet false (gridCellPressureState a') j
        = match (if decide (j < k)%nat then pendingDue t a j else None) with
          | Some timer => isPressed timer
          | None => arrayGet false (gridCellPressureState a) j
          end)
  ∧ (∀ j, arrayGet None (gridCellDebounceTimers a') j
          = match (if decide (j < k)%nat then pendingDue t a j else None) with
            | Some timer => None
            | None => arrayGet None (gridCellDebounceTimers a) j
            end)
  ∧ events a'
    = events a ++ flat_map (fun j => match pendingDue t a j with
                                     | Some timer => transition a j timer
                                     | None => []
                                     end) (seq 0 k)
  ∧ sameSettings a a'.
Proof.
  induction k as [|k IH].
  - simpl. rewrite app_nil_r. repeat split; done.
  - rewrite seq_S, fold_left_app. simpl fold_left.
    destruct IH as (Hst & Htm & Hev & Hsame).
    set (ak := fold_left (runIfDue t) (seq 0 k) a) in *.
    destruct (runIfDue_spec t ak k) as (Hst' & Htm' & Hev' & Hsame').
    assert (pendingDue t ak k = pendingDue t a k) as Hdue.
    { unfold pendingDue. rewrite Htm. rewrite decide_False by lia. done. }
    assert (∀ timer, transition ak k timer = transition a k timer) as Htr.
    { intros timer. unfold transition. rewrite Hst.
      rewrite decide_False by lia. done. }
    rewrite Hdue in Hst', Htm', Hev'.
    split; [|split; [|split]].
    + intros j. rewrite Hst', Hst.
      destruct (pendingDue t a k) eqn:Hk;
        repeat case_decide; subst; try lia;
        try (assert (j = k) as -> by lia); rewrite ?Hk; done.
    + intros j. rewrite Htm', Htm.
      destruct (pendingDue t a k) eqn:Hk;
        repeat case_decide; subst; try lia;
        try (assert (j = k) as -> by lia); rewrite ?Hk; done.
    + rewrite Hev', Hev, flat_map_app. simpl flat_map.
      rewrite app_nil_r, <- app_assoc.
      destruct (pendingDue t a k); [by rewrite Htr|done].
    + by eapply sameSettings_trans.
Qed.

Lemma pendingDue_beyond t a j :
  (length (gridCellDebounceTimers a) <= j)%nat → pendingDue t a j = None.
Proof.
  intros Hj. unfold pendingDue, arrayGet. by rewrite lookup_ge_None_2.
Qed.

(** The event loop up to time [t]: every due timer has committed the state
    it captured and made its call, in slot order; the other slots are as
    they were. *)
Lemma advance_spec t a :
  let a' := advance t a in
  (∀ j, arrayGet false (gridCellPressureState a') j
        = match pendingDue t a j with
          | Some timer => isPressed timer
          | None => arrayGet false (gridCellPressureState a) j
          end)
  ∧ (∀ j, arrayGet None (gridCellDebounceTimers a') j
          = match pendingDue t a j with
            | Some timer => None
            | None => arrayGet None (gridCellDebounceTimers a) j
            end)
  ∧ events a'
    = events a ++ flat_map (fun j => match pendingDue t a j with
                                     | Some timer => transition a j timer
                                     | None => []
                                     end)
                           (seq 0 (length (gridCellDebounceTimers a)))
  ∧ now a' = t
  ∧ pressureThreshold a' = pressureThreshold a
  ∧ pressureDebounceMs a' = pressureDebounceMs a
  ∧ currentMode a' = currentMode a.
Proof.
  unfold advance.
  destruct (runDue_prefix t a (length (gridCellDebounceTimers a)))
    as (Hst & Htm & Hev & Hsame).
  cbn [withNow gridCellPressureState gridCellDebounceTimers events now
       pressureThreshold pressureDebounceMs currentMode].
  split; [|split; [|split]].
  - intros j. rewrite Hst. case_decide; [done|].
    by rewrite pendingDue_beyond by lia.
  - intros j. rewrite Htm. case_decide; [done|].
    by rewrite pendingDue_beyond by lia.
  - done.
  - unfold sameSettings in Hsame. intuition.
Qed.

Lemma advance_wellFormed t a : wellFormed a → wellFormed (advance t a).
Proof.
  intros [Hs Ht]. unfold wellFormed, advance.
  cbn [withNow gridCellPressureState gridCellDebounceTimers].
  assert (∀ l (b : AudioRugApp), wellFormed b →
            wellFormed (fold_left (runIfDue t) l b)) as Hfold.
  { induction l as [|g l IH]; intros b Hb; [done|]. simpl. apply IH.
    destruct Hb as [Hbs Hbt].
    destruct (runIfDue_length t b g) as [Hs' Ht']; [congruence|].
    split; congruence. }
  by apply Hfold.
Qed.

Lemma handle_wellFormed i a : wellFormed a → wellFormed (handle i a).
Proof.
  intros [Hs Ht]. destruct i; simpl; try done.
  - unfold handleSerialData. destruct (currentMode a).
    + unfold handleRecordingPressure, startRecording, stopRecording.
      repeat case_match; done.
    + destruct (checkGridCellsForPressure_spec pressureMatrix a)
        as (_ & Hlen & Hst' & _).
      split; [congruence|by apply Hlen].
  - unfold switchMode, clearAllActiveEffectsAndSamples, stopRecording, wellFormed.
    repeat case_match; simpl; by rewrite !length_replicate.
  - unfold handleManualRecordToggle, startRecording, stopRecording.
    repeat case_match; done.
Qed.

Lemma run_wellFormed trace a : wellFormed a → wellFormed (run trace a).
Proof.
  unfold run. revert a. induction trace as [|ti trace IH]; intros a Ha; [done|].
  simpl. apply IH. unfold step. by apply handle_wellFormed, advance_wellFormed.
Qed.

Lemma constructed_wellFormed : wellFormed constructed.
Proof. done. Qed.

(** *** Debounce *)

Lemma performFrame_spec pressureMatrix a :
  wellFormed a → currentMode a = PERFORM →
  let a' := handleSerialData pressureMatrix a in
  wellFormed a' ∧ currentMode a' = PERFORM ∧ freshlyScheduled a'
  ∧ gridCellPressureState a' = gridCellPressureState a
  ∧ events a' = events a ∧ now a' = now a
  ∧ pressureDebounceMs a' = pressureDebounceMs a
  ∧ pressureThreshold a' = pressureThreshold a
  ∧ ∀ g region, gridRegions !! g = Some region →
      arrayGet None (gridCellDebounceTimers a') g
      = Some (scheduled a pressureMatrix region).
Proof.
  intros [Hs Ht] Hmode. unfold handleSerialData. rewrite Hmode.
  destruct (checkGridCellsForPressure_spec pressureMatrix a)
    as (Htm & Hlen & Hst & Hev & Hnow & Hthr & Hdeb & Hmode').
  split; [split; [congruence|by apply Hlen]|].
  split; [congruence|]. split.
  - intros g timer Hg. rewrite Htm in Hg.
    destruct (gridRegions !! g) as [region|] eqn:Hr.
    + injection Hg as <-. by rewrite Hnow, Hdeb.
    + apply lookup_ge_None_1 in Hr.
      unfold arrayGet in Hg. rewrite lookup_ge_None_2 in Hg; [done|].
      rewrite Ht. exact Hr.
  - repeat (split; [done|]).
    intros g region Hr. by rewrite Htm, Hr.
Qed.

(** Before the debounce window is over nothing runs. *)
Lemma advance_early t a :
  freshlyScheduled a → t < now a + pressureDebounceMs a →
  ∀ j, pendingDue t a j = None.
Proof.
  intros Hf Ht j. unfold pendingDue.
  destruct (arrayGet None (gridCellDebounceTimers a) j) as [timer|] eqn:Hj; [|done].
  rewrite (Hf _ _ Hj). destruct (Z.leb_spec (now a + pressureDebounceMs a) t); [lia|done].
Qed.

Lemma flat_map_nil {A B} (f : A → list B) (l : list A) :
  (∀ x, f x = []) → flat_map f l = [].
Proof. intros H. induction l as [|x l IH]; simpl; [done|]. by rewrite H, IH. Qed.

Lemma array_ext {A} (d : A) (l1 l2 : list A) :
  length l1 = length l2 → (∀ j, arrayGet d l1 j = arrayGet d l2 j) → l1 = l2.
Proof.
  intros Hlen Hget. apply list_eq. intros j.
  destruct (Nat.lt_ge_cases j (length l1)) as [Hj|Hj].
  - specialize (Hget j). unfold arrayGet in Hget.
    destruct (lookup_lt_is_Some_2 l1 j Hj) as [x1 H1].
    destruct (lookup_lt_is_Some_2 l2 j ltac:(lia)) as [x2 H2].
    rewrite H1, H2 in Hget |- *. simpl in Hget. by subst.
  - rewrite !lookup_ge_None_2 by lia. done.
Qed.

(** Before the window of the last frame is over the event loop changes
    nothing. *)
Lemma advance_before_window t a :
  wellFormed a → freshlyScheduled a → t < now a + pressureDebounceMs a →
  gridCellPressureState (advance t a) = gridCellPressureState a
  ∧ events (advance t a) = events a.
Proof.
  intros Hwf Hfresh Ht.
  pose proof (advance_early t a Hfresh Ht) as Hnone.
  destruct (advance_spec t a) as (Hst & _ & Hev & _).
  pose proof (advance_wellFormed t a Hwf) as Hwf'.
  split.
  - apply (array_ext false); [destruct Hwf, Hwf'; congruence|].
    intros j. by rewrite Hst, Hnone.
  - rewrite Hev, flat_map_nil; [by rewrite app_nil_r|].
    intros j. by rewrite Hnone.
Qed.

(** A frame that arrives before the window of the frame before it is over:
    no timer runs, and every slot is filled anew. *)
Lemma feed_step gap pressureMatrix a :
  wellFormed a → currentMode a = PERFORM → freshlyScheduled a →
  0 <= gap < pressureDebounceMs a →
  let a' := step a (now a + gap, SerialData pressureMatrix) in
  wellFormed a' ∧ currentMode a' = PERFORM ∧ freshlyScheduled a'
  ∧ gridCellPressureState a' = gridCellPressureState a
  ∧ events a' = events a
  ∧ pressureDebounceMs a' = pressureDebounceMs a
  ∧ pressureThreshold a' = pressureThreshold a
  ∧ ∀ g region, gridRegions !! g = Some region →
      ∃ timer, arrayGet None (gridCellDebounceTimers a') g = Some timer
        ∧ deadline timer = now a' + pressureDebounceMs a'
        ∧ isPressed timer
          = greater (regionMax pressureMatrix region) (pressureThreshold a).
Proof.
  intros Hwf Hmode Hfresh Hgap a'. subst a'. unfold step. cbn [fst snd handle].
  destruct (advance_before_window (now a + gap) a Hwf Hfresh ltac:(lia))
    as [Hstates Hevents].
  destruct (advance_spec (now a + gap) a)
    as (_ & _ & _ & Hnow & Hthr & Hdeb & Hmode').
  pose proof (advance_wellFormed (now a + gap) a Hwf) as Hwf'.
  set (a0 := advance (now a + gap) a) in *.
  destruct (performFrame_spec pressureMatrix a0 Hwf' ltac:(congruence))
    as (Hwf1 & Hmode1 & Hfresh1 & Hst1 & Hev1 & Hnow1 & Hdeb1 & Hthr1 & Htm1).
  repeat (split; [first [assumption|congruence]|]).
  intros g region Hr. eexists. split; [by apply Htm1|].
  unfold scheduled. cbn [deadline isPressed].
  split; [by rewrite Hnow1, Hdeb1|]. by rewrite Hthr.
Qed.

Lemma last_cons {A} (x d : A) (l : list A) :
  List.last (x :: l) d = List.last l x.
Proof.
  revert x d. induction l as [|y l IH]; intros x d; [done|].
  change (List.last (x :: y :: l) d) with (List.last (y :: l) d).
  rewrite IH. symmetry. apply IH.
Qed.

Lemma feed_spec rest frame a :
  wellFormed a → currentMode a = PERFORM → freshlyScheduled a →
  Forall (fun gf : Z * list Z => 0 <= gf.1 < pressureDebounceMs a) rest →
  (∀ g region, gridRegions !! g = Some region →
     ∃ timer, arrayGet None (gridCellDebounceTimers a) g = Some timer
       ∧ deadline timer = now a + pressureDebounceMs a
       ∧ isPressed timer = greater (regionMax frame region) (pressureThreshold a)) →
  let a' := feed rest a in
  gridCellPressureState a' = gridCellPressureState a
  ∧ events a' = events a
  ∧ ∀ g region, gridRegions !! g = Some region →
      ∃ timer, arrayGet None (gridCellDebounceTimers a') g = Some timer
        ∧ deadline timer = now a' + pressureDebounceMs a
        ∧ isPressed timer
          = greater (regionMax (List.last (map snd rest) frame) region)
                    (pressureThreshold a).
Proof.
  revert frame a. induction rest as [|[gap m] rest IH];
    intros frame a Hwf Hmode Hfresh Hgaps Htimers.
  - simpl. done.
  - apply Forall_cons in Hgaps as [Hgap Hgaps]. cbn [fst] in Hgap.
    destruct (feed_step gap m a Hwf Hmode Hfresh Hgap)
      as (Hwf1 & Hmode1 & Hfresh1 & Hst1 & Hev1 & Hdeb1 & Hthr1 & Htm1).
    unfold feed. cbn [fold_left fst snd].
    set (a1 := step a (now a + gap, SerialData m)) in *.
    destruct (IH m a1 Hwf1 Hmode1 Hfresh1) as (Hst & Hev & Htm).
    + by rewrite Hdeb1.
    + intros g region Hr. destruct (Htm1 g region Hr) as (timer & ? & ? & ?).
      exists timer. rewrite Hthr1. done.
    + unfold feed in Hst, Hev, Htm.
      split; [congruence|]. split; [congruence|].
      intros g region Hr. destruct (Htm g region Hr) as (timer & Hg & Hd & Hp).
      exists timer. split; [done|]. rewrite <- Hdeb1, <- Hthr1.
      split; [done|]. rewrite Hp. cbn [map snd]. by rewrite last_cons.
Qed.

(** C4.  A frame fills the slot of every region with a new timer, whatever
    was pending there, due one debounce window later, and until that window
    is over without another frame the committed states do not change.  When
    further frames follow, each less than a window after the one before,
    whatever their values (alternating around the threshold or not), no
    timer ever runs: no transition is made, the committed states stay as
    they were, and the one timer pending for a region is that of the last
    frame. *)
Theorem flicker_absorbed (a : AudioRugApp) (first : list Z)
    (rest : list (Z * list Z)) :
  wellFormed a → currentMode a = PERFORM →
  Forall (fun gf : Z * list Z => 0 <= gf.1 < pressureDebounceMs a) rest →
  let a1 := handleSerialData first a in
  let a2 := feed rest a1 in
  (∀ g region, gridRegions !! g = Some region →
     arrayGet None (gridCellDebounceTimers a1) g
     = Some {| deadline := now a + pressureDebounceMs a;
               isPressed := instantaneous (pressureThreshold a) first g;
               maxPressureInRegion := regionMax first region |})
  ∧ (∀ t, gridCellPressureState (advance t a1) ≠ gridCellPressureState a1 →
       now a + pressureDebounceMs a <= t)
  ∧ events a2 = events a
  ∧ gridCellPressureState a2 = gridCellPressureState a
  ∧ ∀ g region, gridRegions !! g = Some region →
      ∃ timer, arrayGet None (gridCellDebounceTimers a2) g = Some timer
        ∧ deadline timer = now a2 + pressureDebounceMs a
        ∧ isPressed timer
          = instantaneous (pressureThreshold a) (List.last (map snd rest) first) g.
Proof.
  intros Hwf Hmode Hgaps a1 a2.
  destruct (performFrame_spec first a Hwf Hmode)
    as (Hwf1 & Hmode1 & Hfresh1 & Hst1 & Hev1 & Hnow1 & Hdeb1 & Hthr1 & Htm1).
  fold a1 in Hwf1, Hmode1, Hfresh1, Hst1, Hev1, Hnow1, Hdeb1, Hthr1, Htm1.
  split.
  { intros g region Hr. rewrite (Htm1 g region Hr).
    unfold scheduled, instantaneous. by rewrite Hr. }
  split.
  { intros t Hchanged.
    destruct (Z.lt_ge_cases t (now a1 + pressureDebounceMs a1)) as [Hlt|Hge];
      [|lia].
    by destruct (advance_before_window t a1 Hwf1 Hfresh1 Hlt). }
  destruct (feed_spec rest first a1 Hwf1 Hmode1 Hfresh1) as (Hst & Hev & Htm).
  - by rewrite Hdeb1.
  - intros g region Hr. eexists. split; [by apply Htm1|].
    unfold scheduled. cbn [deadline isPressed].
    split; [by rewrite Hnow1, Hdeb1|]. by rewrite Hthr1.
  - fold a2 in Hst, Hev, Htm.
    split; [congruence|]. split; [congruence|].
    intros g region Hr. destruct (Htm g region Hr) as (timer & Hg & Hd & Hp).
    exists timer. split; [done|]. rewrite <- Hdeb1, <- Hthr1.
    split; [done|]. unfold instantaneous. by rewrite Hr.
Qed.

Lemma flicker_absorbed_witness :
  wellFormed performing ∧ currentMode performing = PERFORM
  ∧ Forall (fun gf : Z * list Z => 0 <= gf.1 < pressureDebounceMs performing)
      [(20, below); (20, above); (20, below); (20, above)]
  ∧ let a2 := feed [(20, below); (20, above); (20, below); (20, above)]
                (handleSerialData above performing) in
    events a2 = [] ∧ gridCellPressureState a2 = replicate 9 false.
Proof.
  assert (wellFormed performing) as Hwf by done.
  assert (currentMode performing = PERFORM) as Hmode by done.
  assert (Forall (fun gf : Z * list Z => 0 <= gf.1 < pressureDebounceMs performing)
            [(20, below); (20, above); (20, below); (20, above)]) as Hgaps
    by (repeat constructor; simpl; lia).
  repeat (split; [assumption|]).
  destruct (flicker_absorbed performing above _ Hwf Hmode Hgaps)
    as (_ & _ & Hev & Hst & _).
  split; [exact Hev|exact Hst].
Defined.

(** C3 as the design document states it fails.  Region 0 reads 30 under a
    threshold of 25, so its timer captures "pressed"; the threshold is
    raised to 40 before the timer runs.  At fire time the latest frame
    shows the region unpressed, which is also its committed state, so an
    evaluation that read the instantaneous state again would do nothing.
    The callback makes the ON transition and commits "pressed". *)
Lemma debounce_does_not_reread :
  let frame := 30 :: replicate 99 0 in
  let a := run [(0, SwitchMode PERFORM); (0, SerialData frame);
                (10, Sensitivity 40)] constructed in
  instantaneous (pressureThreshold a) frame 0 = false
  ∧ arrayGet false (gridCellPressureState a) 0 = false
  ∧ events a = []
  ∧ events (advance 50 a) = [GridCellPressureChange 0 true (Some 30)]
  ∧ arrayGet false (gridCellPressureState (advance 50 a)) 0 = true
  ∧ ∃ timer, arrayGet None (gridCellDebounceTimers a) 0 = Some timer
      ∧ deadline timer = 50
      ∧ events (fireTimerRereading frame 0 timer a) = [].
Proof.
  intros frame a.
  repeat (split; [by vm_compute|]).
  eexists. split; [vm_compute; reflexivity|]. by vm_compute.
Qed.

(** C3, amended.  The evaluation uses the pressed state captured when it
    was scheduled: the one the frame showed under the threshold of that
    moment, whatever the threshold has become since.  When it runs, it
    compares that state with the committed state of its region, and makes
    the transition call and commits the captured state only if the two
    differ. *)
Theorem debounce_commits_captured_state (a : AudioRugApp) (frame : list Z)
    (value later : Z) :
  wellFormed a → currentMode a = PERFORM →
  now a + pressureDebounceMs a <= later →
  let a1 := handleSerialData frame a in
  let a2 := updateSensitivity value a1 in
  let a3 := advance later a2 in
  (∀ g, (g < 9)%nat →
     arrayGet false (gridCellPressureState a3) g
     = instantaneous (pressureThreshold a) frame g)
  ∧ events a3 = events a ++ transitions a frame.
Proof.
  intros Hwf Hmode Hlater a1 a2 a3.
  destruct (performFrame_spec frame a Hwf Hmode)
    as (Hwf1 & Hmode1 & Hfresh1 & Hst1 & Hev1 & Hnow1 & Hdeb1 & Hthr1 & Htm1).
  fold a1 in Hwf1, Hmode1, Hfresh1, Hst1, Hev1, Hnow1, Hdeb1, Hthr1, Htm1.
  destruct (advance_spec later a2) as (Hst & _ & Hev & _). fold a3 in Hst, Hev.
  assert (∀ g region, gridRegions !! g = Some region →
            pendingDue later a2 g = Some (scheduled a frame region)) as Hdue.
  { intros g region Hr. unfold pendingDue.
    change (gridCellDebounceTimers a2) with (gridCellDebounceTimers a1).
    rewrite (Htm1 g region Hr). cbn [scheduled deadline].
    destruct (Z.leb_spec (now a + pressureDebounceMs a) later); [done|lia]. }
  destruct Hwf1 as [_ Hlen].
  split.
  - intros g Hg. rewrite Hst.
    destruct (lookup_lt_is_Some_2 gridRegions g Hg) as [region Hr].
    rewrite (Hdue g region Hr). unfold instantaneous. by rewrite Hr.
  - rewrite Hev. change (events a2) with (events a1). rewrite Hev1. f_equal.
    change (gridCellDebounceTimers a2) with (gridCellDebounceTimers a1).
    rewrite Hlen. unfold transitions. apply flat_map_ext. intros g.
    destruct (gridRegions !! g) as [region|] eqn:Hr.
    + rewrite (Hdue g region Hr). unfold transition, instantaneous.
      change (gridCellPressureState a2) with (gridCellPressureState a1).
      rewrite Hst1, Hr. done.
    + unfold pendingDue, arrayGet.
      rewrite lookup_ge_None_2; [done|].
      change (gridCellDebounceTimers a2) with (gridCellDebounceTimers a1).
      rewrite Hlen. by apply lookup_ge_None_1 in Hr.
Qed.

Lemma debounce_commits_captured_state_witness :
  let frame := 30 :: replicate 99 0 in
  wellFormed performing ∧ currentMode performing = PERFORM
  ∧ now performing + pressureDebounceMs performing <= 50
  ∧ let a3 := advance 50 (updateSensitivity 40
                            (handleSerialData frame performing)) in
    arrayGet false (gridCellPressureState a3) 0 = true
    ∧ events a3 = [GridCellPressureChange 0 true (Some 30)].
Proof.
  intros frame.
  assert (wellFormed performing) as Hwf by done.
  assert (currentMode performing = PERFORM) as Hmode by done.
  assert (now performing + pressureDebounceMs performing <= 50) as Hlater
    by (vm_compute; discriminate).
  repeat (split; [assumption|]).
  destruct (debounce_commits_captured_state performing frame 40 50 Hwf Hmode Hlater)
    as (Hst & Hev).
  split.
  - rewrite (Hst 0%nat) by lia. by vm_compute.
  - rewrite Hev. by vm_compute.
Defined.

(** *** Recording trigger *)

(** C5 as the design document states it fails.  RECORD mode is entered by
    [switchMode] with a microphone selected; no frame has been seen, yet the
    gate is open, and the first frame, with the whole mat pressed, starts a
    recording. *)
Lemma pressed_mat_at_mode_entry_records :
  let entered := run [(0, MicrophoneChange true); (0, SwitchMode RECORD)]
                   constructed in
  let a := step entered (100, SerialData (replicate 100 255)) in
  recordingReady entered = true
  ∧ recordingState entered = idle
  ∧ events entered = []
  ∧ pressureThreshold entered < totalPressure (replicate 100 255)
  ∧ recordingState a = recording
  ∧ events a = [RecordingStarted].
Proof. intros entered a. by vm_compute. Qed.

Lemma advance_settings t a :
  let a' := advance t a in
  currentMode a' = currentMode a
  ∧ recordingState a' = recordingState a
  ∧ isRecordingOnCooldown a' = isRecordingOnCooldown a
  ∧ recordingReady a' = recordingReady a
  ∧ pressureThreshold a' = pressureThreshold a
  ∧ lastPressureState a' = lastPressureState a
  ∧ pressureDebounceMs a' = pressureDebounceMs a
  ∧ microphoneSelected a' = microphoneSelected a.
Proof.
  unfold advance.
  destruct (runDue_prefix t a (length (gridCellDebounceTimers a)))
    as (_ & _ & _ & Hsame).
  unfold sameSettings in Hsame. cbn [withNow currentMode recordingState
    isRecordingOnCooldown recordingReady pressureThreshold lastPressureState
    pressureDebounceMs microphoneSelected]. intuition.
Qed.

Lemma advance_waiting t a : waiting a → waiting (advance t a).
Proof.
  intros (Hready & Hmode).
  destruct (advance_settings t a) as (Hm & _ & _ & Hr & _).
  split; congruence.
Qed.

Lemma handleRecordingPressure_gate total a :
  recordingReady a = false →
  (pressureThreshold a < total →
     handleRecordingPressure total a = withLastPressure true a)
  ∧ (recordingReady (handleRecordingPressure total a) = true →
     total <= pressureThreshold a).
Proof.
  intros Hready. unfold handleRecordingPressure. rewrite Hready.
  destruct (Z.ltb_spec (pressureThreshold a) total) as [Hlt|Hge].
  - cbn [negb andb]. rewrite Hready, andb_false_r. split; [done|].
    cbn [withLastPressure recordingReady]. congruence.
  - split; [lia|done].
Qed.

(** The record button, a failed start and the cooldown callback leave the
    gate as it is or close it. *)
Lemma startRecording_gate a :
  recordingReady (startRecording a) = recordingReady a
  ∧ currentMode (startRecording a) = currentMode a.
Proof.
  unfold startRecording.
  destruct (recordingState a), (isRecordingOnCooldown a), (microphoneSelected a);
    done.
Qed.

Lemma stopRecording_gate a :
  (recordingReady a = false → recordingReady (stopRecording a) = false)
  ∧ currentMode (stopRecording a) = currentMode a.
Proof. unfold stopRecording. by destruct (recordingState a). Qed.

Lemma checkGridCellsForPressure_ready pressureMatrix a :
  recordingReady (checkGridCellsForPressure pressureMatrix a) = recordingReady a.
Proof.
  unfold checkGridCellsForPressure.
  generalize (imap pair gridRegions). intros l. revert a.
  induction l as [|[g region] l IH]; intros a; [done|].
  cbn [fold_left]. by rewrite IH.
Qed.

Lemma handle_gate i a :
  recordingReady a = false → recordingReady (handle i a) = true →
  (∃ mode, i = SwitchMode mode)
  ∨ (∃ m, i = SerialData m ∧ currentMode a = RECORD
          ∧ totalPressure m <= pressureThreshold a).
Proof.
  intros Hready Hopen.
  destruct i as [m|v|mode| |b| |]; cbn [handle] in Hopen.
  - right. exists m. split; [done|]. unfold handleSerialData in Hopen.
    destruct (currentMode a) eqn:Hmode.
    + split; [done|]. by apply (handleRecordingPressure_gate _ a Hready).
    + rewrite checkGridCellsForPressure_ready in Hopen. congruence.
  - cbn in Hopen. congruence.
  - left. by exists mode.
  - unfold handleManualRecordToggle in Hopen.
    destruct (isRecordingOnCooldown a); [congruence|].
    destruct (recordingState a).
    + destruct (startRecording_gate a) as [Hr _]. congruence.
    + destruct (stopRecording_gate a) as [Hr _]. rewrite Hr in Hopen; done.
  - cbn in Hopen. congruence.
  - cbn in Hopen. congruence.
  - cbn in Hopen. congruence.
Qed.

Lemma handle_mode i a :
  (∀ mode, i ≠ SwitchMode mode) → currentMode (handle i a) = currentMode a.
Proof.
  intros Hi. destruct i as [m|v|mode| |b| |]; cbn [handle]; try done.
  - unfold handleSerialData. destruct (currentMode a) eqn:Hmode; rewrite <- Hmode.
    + unfold handleRecordingPressure. cbn [withLastPressure currentMode].
      repeat match goal with
             | |- context [if ?c then _ else _] => destruct c
             | |- context [match recordingState ?x with _ => _ end] =>
                 destruct (recordingState x) eqn:?
             end;
        rewrite ?(proj2 (startRecording_gate _)), ?(proj2 (stopRecording_gate _));
        done.
    + apply checkGridCellsForPressure_spec.
  - by destruct (Hi mode).
  - unfold handleManualRecordToggle.
    destruct (isRecordingOnCooldown a); [done|].
    destruct (recordingState a);
      [apply startRecording_gate|apply stopRecording_gate].
Qed.

Lemma step_waiting ti a :
  waiting a →
  match ti.2 with
  | SerialData m => pressureThreshold (advance ti.1 a) < totalPressure m
  | SwitchMode _ => False
  | _ => True
  end →
  waiting (step a ti).
Proof.
  intros Hw Hin. unfold step.
  pose proof (advance_waiting ti.1 a Hw) as (Hready & Hmode).
  set (a0 := advance ti.1 a) in *.
  split.
  - destruct (recordingReady (handle ti.2 a0)) eqn:Hopen; [|done]. exfalso.
    destruct (handle_gate _ _ Hready Hopen) as [[mode Hi]|(m & Hi & _ & Hle)];
      rewrite Hi in Hin; [done|lia].
  - rewrite handle_mode; [done|]. intros mode Hi. by rewrite Hi in Hin.
Qed.

Lemma run_waiting trace a :
  waiting a → matPressedThroughout trace a → waiting (run trace a).
Proof.
  revert a. induction trace as [|ti trace IH]; intros a Hw Hp; [done|].
  destruct Hp as [Hin Hp]. unfold run. cbn [fold_left]. apply IH; [|done].
  by apply step_waiting.
Qed.

Lemma matPressedThroughout_app pre ti post a :
  matPressedThroughout (pre ++ ti :: post) a →
  matPressedThroughout pre a
  ∧ match ti.2 with
    | SerialData m => pressureThreshold (advance ti.1 (run pre a)) < totalPressure m
    | SwitchMode _ => False
    | _ => True
    end.
Proof.
  revert a. induction pre as [|x pre IH]; intros a Hp.
  - destruct Hp as [Hin _]. done.
  - destruct Hp as [Hx Hp]. destruct (IH _ Hp) as [Hpre Hti]. done.
Qed.

(** C5, amended.  The gate starts closed at construction.  While frames are
    handled it opens only on a frame that shows the mat unpressed; every
    mode switch opens it directly; nothing else opens it.  From
    construction on, as long as the mode is not switched, frames that all
    show the mat pressed never start a recording, whatever else happens
    (the record button, sensitivity and microphone changes, failures and
    cooldown callbacks): the gate stays closed, and every such frame,
    rising edge or not, leaves the recording state and the calls made as
    they were. *)
Theorem recording_waits_for_unpressed_mat (trace : list (Z * Input)) :
  matPressedThroughout trace constructed →
  recordingReady constructed = false
  ∧ recordingReady (run trace constructed) = false
  ∧ (∀ pre t m post, trace = pre ++ (t, SerialData m) :: post →
       let b := advance t (run pre constructed) in
       let b' := handle (SerialData m) b in
       recordingState b' = recordingState b ∧ events b' = events b
       ∧ recordingReady b' = false)
  ∧ (∀ b i, recordingReady b = false → recordingReady (handle i b) = true →
       (∃ mode, i = SwitchMode mode)
       ∨ (∃ m, i = SerialData m ∧ currentMode b = RECORD
               ∧ totalPressure m <= pressureThreshold b))
  ∧ (∀ b t, recordingReady (advance t b) = recordingReady b)
  ∧ ∀ b mode, recordingReady (switchMode mode b) = true.
Proof.
  intros Hpressed.
  assert (waiting constructed) as Hw0 by done.
  split; [done|]. split; [by apply run_waiting|]. split.
  - intros pre t m post -> b b'.
    destruct (matPressedThroughout_app _ _ _ _ Hpressed) as [Hpre Hlt].
    cbn [fst snd] in Hlt. fold b in Hlt.
    pose proof (advance_waiting t _ (run_waiting pre _ Hw0 Hpre)) as [Hready Hmode].
    fold b in Hready, Hmode.
    subst b'. cbn [handle]. unfold handleSerialData. rewrite Hmode.
    destruct (handleRecordingPressure_gate (totalPressure m) b Hready) as [-> _];
      done.
  - split; [intros b i; apply handle_gate|]. split.
    + intros b t. by destruct (advance_settings t b) as (_ & _ & _ & -> & _).
    + intros b mode. unfold switchMode. done.
Qed.

Lemma recording_waits_for_unpressed_mat_witness :
  let pre := [(0, MicrophoneChange true); (50, ManualRecordToggle)] in
  let pressed := replicate 100 255 in
  let trace := pre ++ [(100, SerialData pressed); (150, Sensitivity 10);
                       (200, SerialData (200 :: replicate 99 0))] in
  let b := advance 100 (run pre constructed) in
  matPressedThroughout trace constructed
  ∧ lastPressureState b = false
  ∧ pressureThreshold b < totalPressure pressed
  ∧ recordingState (handle (SerialData pressed) b) = recording
  ∧ events (handle (SerialData pressed) b) = [RecordingStarted]
  ∧ recordingReady (run trace constructed) = false.
Proof.
  intros pre pressed trace b.
  assert (matPressedThroughout trace constructed) as Hpressed
    by (cbn [matPressedThroughout trace pre app snd]; repeat split; by vm_compute).
  split; [exact Hpressed|].
  destruct (recording_waits_for_unpressed_mat trace Hpressed)
    as (_ & Hclosed & Hframes & _).
  destruct (Hframes pre 100 pressed _ eq_refl) as (Hstate & Hev & _).
  fold b in Hstate, Hev.
  split; [by vm_compute|]. split; [by vm_compute|].
  split; [rewrite Hstate; by vm_compute|].
  split; [rewrite Hev; by vm_compute|exact Hclosed].
Defined.

(** *** Performance recorder *)

Lemma only_recorder_removed (X : gset nat) (r : nat) :
  X ⊆ {[r]} → X ∖ {[r]} = ∅.
Proof.
  intros Hsub. apply set_eq. intros x.
  rewrite elem_of_difference, elem_of_empty. split; [|done].
  intros [Hx Hne]. by apply Hsub in Hx.
Qed.

Lemma only_recorder_absent (X : gset nat) (r : nat) :
  X ⊆ {[r]} → r ∉ X → X = ∅.
Proof.
  intros Hsub Hr. apply set_eq. intros x. rewrite elem_of_empty. split; [|done].
  intros Hx. pose proof (Hsub x Hx) as Hxr. apply elem_of_singleton in Hxr.
  by subst.
Qed.

Lemma no_recorder (X : gset nat) : X ⊆ ∅ → X = ∅.
Proof.
  intros Hsub. apply set_eq. intros x. rewrite elem_of_empty. split; [|done].
  intros Hx. by apply Hsub in Hx.
Qed.

Lemma togglePerformanceRecording_oneCapture ok s :
  oneCapture s → oneCapture (togglePerformanceRecording ok s).
Proof.
  intros [Hsub Hdown]. unfold togglePerformanceRecording, oneCapture.
  destruct (isPerformanceRecording s) eqn:Hflag.
  - unfold stopPerformanceRecording. rewrite Hflag.
    cbn [isPerformanceRecording audioEngine].
    unfold Engine.stopPerformanceRecording.
    destruct (Engine.performanceRecorder (audioEngine s)) as [r|] eqn:Hr.
    + case_decide as Hin; cbn [Engine.setRecorder Engine.capturing
                                 Engine.performanceRecorder]; rewrite ?Hr.
      * rewrite (only_recorder_removed _ r Hsub). split; [|done].
        apply empty_subseteq.
      * rewrite (only_recorder_absent _ r Hsub Hin). split; [|done].
        apply empty_subseteq.
    + rewrite Hr, (no_recorder _ Hsub). split; [apply empty_subseteq|done].
  - unfold startPerformanceRecording. cbn [isPerformanceRecording audioEngine].
    unfold Engine.startPerformanceRecording.
    destruct ok; cbn [fst Engine.setRecorder Engine.capturing
                        Engine.performanceRecorder].
    + rewrite (Hdown eq_refl), union_empty_r_L. done.
    + rewrite (Hdown eq_refl). split; [apply empty_subseteq|done].
Qed.

(** C8, amended.  The engine does not reject a second start; the
    application does not make one.  Whatever the sequence of toggles, at most one recorder captures the
    master bus; when the flag of the application is up a toggle stops the
    capture instead of starting another, and when it is down no recorder is
    capturing. *)
Theorem toggle_keeps_one_capture (recorderOks : list bool) (ok : bool) :
  let s := toggles recorderOks session in
  (size (Engine.capturing (audioEngine s)) ≤ 1)%nat
  ∧ if isPerformanceRecording s
    then Engine.capturing (audioEngine (togglePerformanceRecording ok s)) = ∅
    else Engine.capturing (audioEngine s) = ∅.
Proof.
  intros s.
  assert (oneCapture s) as Hone.
  { subst s. unfold toggles.
    assert (oneCapture session) as H0 by (split; [done|done]).
    revert H0. generalize session.
    induction recorderOks as [|b l IH]; intros s0 H0; [done|].
    cbn [fold_left]. by apply IH, togglePerformanceRecording_oneCapture. }
  split.
  - destruct Hone as [Hsub _].
    destruct (Engine.performanceRecorder (audioEngine s)) as [r|].
    + apply subseteq_size in Hsub. rewrite size_singleton in Hsub. lia.
    + apply subseteq_size in Hsub. rewrite size_empty in Hsub. lia.
  - destruct (isPerformanceRecording s) eqn:Hflag.
    + pose proof (togglePerformanceRecording_oneCapture ok s Hone) as [_ Hdown].
      apply Hdown. unfold togglePerformanceRecording, stopPerformanceRecording.
      by rewrite Hflag.
    + destruct Hone as [_ Hdown]. by apply Hdown.
Qed.
(** *** Regions *)

Lemma cellsOf_region g region :
  gridRegions !! g = Some region → cellsOf g = regionCells region.
Proof. intros H. unfold cellsOf. by rewrite H. Qed.

Lemma sensors_covered :
  Forall (fun i => Exists (fun g => i ∈ cellsOf g) (seq 0 9)) (seq 0 100).
Proof. refine (bool_decide_unpack _ _); vm_compute; exact I. Qed.

Lemma cells_in_matrix :
  Forall (fun g => Forall (fun i => (i < 100)%nat) (cellsOf g)) (seq 0 9).
Proof. refine (bool_decide_unpack _ _); vm_compute; exact I. Qed.

Lemma regions_disjoint :
  Forall (fun g1 =>
            Forall (fun g2 => g1 = g2 ∨ Forall (fun i => i ∉ cellsOf g2) (cellsOf g1))
                   (seq 0 9))
         (seq 0 9).
Proof. refine (bool_decide_unpack _ _); vm_compute; exact I. Qed.

(** X11.  The nine regions partition the matrix: every sensor index below
    100, and no other index, is read for exactly one region. *)
Theorem gridRegions_partition (i : nat) :
  ((i < 100)%nat
   ↔ ∃ g region, gridRegions !! g = Some region ∧ i ∈ regionCells region)
  ∧ ∀ g1 g2 region1 region2,
      gridRegions !! g1 = Some region1 → gridRegions !! g2 = Some region2 →
      i ∈ regionCells region1 → i ∈ regionCells region2 → g1 = g2.
Proof.
  split; [split|].
  - intros Hi.
    pose proof sensors_covered as Hcov. rewrite Forall_forall in Hcov.
    specialize (Hcov i). rewrite elem_of_seq in Hcov.
    destruct (proj1 (Exists_exists _ _) (Hcov ltac:(lia))) as (g & Hg & Hcell).
    unfold cellsOf in Hcell. destruct (gridRegions !! g) as [region|] eqn:Hr.
    + by exists g, region.
    + by apply elem_of_nil in Hcell.
  - intros (g & region & Hr & Hcell).
    pose proof cells_in_matrix as Hin. rewrite Forall_forall in Hin.
    specialize (Hin g). rewrite elem_of_seq in Hin.
    pose proof (lookup_lt_Some _ _ _ Hr) as Hg. simpl in Hg.
    specialize (Hin ltac:(lia)). rewrite (cellsOf_region _ _ Hr) in Hin.
    rewrite Forall_forall in Hin. by apply Hin.
  - intros g1 g2 region1 region2 Hr1 Hr2 Hc1 Hc2.
    pose proof regions_disjoint as Hdis. rewrite Forall_forall in Hdis.
    pose proof (lookup_lt_Some _ _ _ Hr1) as Hg1.
    pose proof (lookup_lt_Some _ _ _ Hr2) as Hg2. simpl in Hg1, Hg2.
    specialize (Hdis g1). rewrite elem_of_seq in Hdis.
    specialize (Hdis ltac:(lia)). rewrite Forall_forall in Hdis.
    specialize (Hdis g2). rewrite elem_of_seq in Hdis.
    destruct (Hdis ltac:(lia)) as [Heq|Hno]; [done|].
    rewrite (cellsOf_region _ _ Hr1), (cellsOf_region _ _ Hr2) in Hno.
    rewrite Forall_forall in Hno. by destruct (Hno i Hc1).
Qed.

Lemma gridRegions_partition_witness :
  ∃ g region, gridRegions !! g = Some region ∧ 57%nat ∈ regionCells region.
Proof.
  apply (proj1 (proj1 (gridRegions_partition 57))). lia.
Defined.

(** The running maximum of the two loops. *)
Lemma fold_mathMax_Some (pressureMatrix : list Z) (cells : list nat) (acc : Z) :
  Forall (fun i => (i < length pressureMatrix)%nat) cells →
  ∃ v, fold_left (fun a i => mathMax a (pressureMatrix !! i)) cells (Some acc) = Some v
       ∧ acc <= v
       ∧ (∀ i x, i ∈ cells → pressureMatrix !! i = Some x → x <= v)
       ∧ (v = acc ∨ ∃ i, i ∈ cells ∧ pressureMatrix !! i = Some v).
Proof.
  intros Hin. revert acc. induction Hin as [|i cells Hi _ IH]; intros acc.
  - exists acc. simpl. split; [done|]. split; [lia|]. split; [|by left].
    intros i x Hi. by apply elem_of_nil in Hi.
  - simpl. destruct (lookup_lt_is_Some_2 _ _ Hi) as [x Hx]. rewrite Hx. simpl.
    destruct (IH (Z.max acc x)) as (v & Hv & Hge & Hall & Hwhere).
    exists v. split; [done|]. split; [lia|]. split.
    + intros j y Hj Hy. apply elem_of_cons in Hj as [->|Hj].
      * assert (y = x) as -> by congruence. lia.
      * by apply (Hall j).
    + destruct Hwhere as [->|(j & Hj & Hjv)].
      * destruct (Z.max_spec acc x) as [[_ ->]|[_ ->]].
        -- right. exists i. split; [apply elem_of_cons; by left|done].
        -- by left.
      * right. exists j. split; [apply elem_of_cons; by right|done].
Qed.

Lemma fold_mathMax_None (pressureMatrix : list Z) (cells : list nat) :
  fold_left (fun a i => mathMax a (pressureMatrix !! i)) cells None = None.
Proof. induction cells as [|i cells IH]; simpl; [done|exact IH]. Qed.

Lemma fold_mathMax_short (pressureMatrix : list Z) (cells : list nat)
    (acc : option Z) (i : nat) :
  i ∈ cells → (length pressureMatrix <= i)%nat →
  fold_left (fun a i => mathMax a (pressureMatrix !! i)) cells acc = None.
Proof.
  intros Hi Hlen. revert acc. induction cells as [|j cells IH]; intros acc.
  - by apply elem_of_nil in Hi.
  - simpl. apply elem_of_cons in Hi as [<-|Hi].
    + rewrite (lookup_ge_None_2 _ _ Hlen).
      assert (mathMax acc None = None) as -> by by destruct acc.
      apply fold_mathMax_None.
    + by apply IH.
Qed.

(** X12.  The pressure of a region is the largest reading among its sensors,
    and never less than 0, the value the maximum starts from; a region is
    pressed when that exceeds the threshold, that is when one of its
    sensors does or the threshold is negative.  When the matrix is too
    short for one of the sensors of the region, the pressure is not a
    number and the region counts as not pressed. *)
Theorem regionMax_largest_reading (pressureMatrix : list Z) (region : Region)
    (threshold : Z) :
  (Forall (fun i => (i < length pressureMatrix)%nat) (regionCells region) →
   ∃ v, regionMax pressureMatrix region = Some v
     ∧ 0 <= v
     ∧ (∀ i x, i ∈ regionCells region → pressureMatrix !! i = Some x → x <= v)
     ∧ (v = 0 ∨ ∃ i, i ∈ regionCells region ∧ pressureMatrix !! i = Some v)
     ∧ (greater (regionMax pressureMatrix region) threshold = true
        ↔ threshold < 0
          ∨ ∃ i x, i ∈ regionCells region ∧ pressureMatrix !! i = Some x
                   ∧ threshold < x))
  ∧ (∀ i, i ∈ regionCells region → (length pressureMatrix <= i)%nat →
       regionMax pressureMatrix region = None
       ∧ greater (regionMax pressureMatrix region) threshold = false).
Proof.
  split.
  - intros Hin. unfold regionMax.
    destruct (fold_mathMax_Some pressureMatrix (regionCells region) 0 Hin)
      as (v & Hv & Hge & Hall & Hwhere).
    exists v. rewrite Hv. repeat split; try done.
    + simpl. intros Hgt. apply Z.ltb_lt in Hgt.
      destruct Hwhere as [->|(i & Hi & Hiv)]; [by left|].
      right. by exists i, v.
    + simpl. intros [Hneg|(i & x & Hi & Hx & Hgt)]; apply Z.ltb_lt; [lia|].
      specialize (Hall i x Hi Hx). lia.
  - intros i Hi Hlen. unfold regionMax.
    by rewrite (fold_mathMax_short _ _ _ i Hi Hlen).
Qed.

Lemma regionMax_largest_reading_witness :
  ∃ v, regionMax above {| minX := 0; maxX := 2; minY := 0; maxY := 2 |} = Some v
       ∧ 0 <= v.
Proof.
  destruct (regionMax_largest_reading above
              {| minX := 0; maxX := 2; minY := 0; maxY := 2 |} 25) as [H _].
  destruct H as (v & Hv & Hge & _).
  - refine (bool_decide_unpack _ _); vm_compute; exact I.
  - by exists v.
Defined.

(** *** The recording state machine *)

Lemma startRecording_cases a :
  (startRecording a = a)
  ∨ (recordingState a = idle ∧ isRecordingOnCooldown a = false
     ∧ microphoneSelected a = true
     ∧ startRecording a
       = emit RecordingStarted
           (withRecording recording (isRecordingOnCooldown a) (recordingReady a) a)).
Proof.
  unfold startRecording.
  destruct (recordingState a) eqn:Hs; [|by left].
  destruct (isRecordingOnCooldown a) eqn:Hc; [by left|].
  destruct (microphoneSelected a) eqn:Hm; [|by left].
  by right.
Qed.

Lemma stopRecording_cases a :
  (recordingState a = idle ∧ stopRecording a = a)
  ∨ (recordingState a = recording
     ∧ stopRecording a = emit RecordingStopped (withRecording idle true false a)).
Proof.
  unfold stopRecording. destruct (recordingState a); [by left|by right].
Qed.

Lemma recordingStep_same a a' :
  events a' = events a →
  (recordingState a' = recording → recordingState a = recording) →
  recordingStep a a' [].
Proof.
  intros He Hs. split; try done; [by rewrite He, app_nil_r|by left].
Qed.

Lemma startRecording_step a : ∃ new, recordingStep a (startRecording a) new.
Proof.
  destruct (startRecording_cases a) as [->|(Hs & Hc & Hm & ->)].
  - exists []. by apply recordingStep_same.
  - exists [RecordingStarted]. split; try done. right. by left.
Qed.

Lemma stopRecording_step a : ∃ new, recordingStep a (stopRecording a) new.
Proof.
  destruct (stopRecording_cases a) as [[Hs ->]|[Hs ->]].
  - exists []. by apply recordingStep_same.
  - exists [RecordingStopped]. split; try done. right. by right.
Qed.

(** A call on a state that differs in fields the call keeps. *)
Lemma recordingStep_from a0 a a' new :
  events a = events a0 → recordingState a = recordingState a0 →
  isRecordingOnCooldown a = isRecordingOnCooldown a0 →
  microphoneSelected a = microphoneSelected a0 →
  recordingStep a a' new → recordingStep a0 a' new.
Proof.
  intros He Hs Hc Hm [H1 H2 H3 H4 H5].
  split; rewrite <- ?He, <- ?Hs, <- ?Hc, <- ?Hm; done.
Qed.

Lemma recordingStep_to a a' a'' new :
  events a'' = events a' → recordingState a'' = recordingState a' →
  recordingStep a a' new → recordingStep a a'' new.
Proof.
  intros He Hs [H1 H2 H3 H4 H5].
  split; rewrite ?He, ?Hs; done.
Qed.

Lemma handleRecordingPressure_step total a :
  ∃ new, recordingStep a (handleRecordingPressure total a) new.
Proof.
  unfold handleRecordingPressure.
  set (pressed := pressureThreshold a <? total).
  set (a1 := if negb (recordingReady a) && negb pressed
             then withRecording (recordingState a) (isRecordingOnCooldown a) true a
             else a).
  assert (events a1 = events a ∧ recordingState a1 = recordingState a
          ∧ isRecordingOnCooldown a1 = isRecordingOnCooldown a
          ∧ microphoneSelected a1 = microphoneSelected a) as (He & Hs & Hc & Hm).
  { subst a1. by destruct (negb (recordingReady a) && negb pressed). }
  assert (∃ new, recordingStep a1
            (if pressed && negb (lastPressureState a1) && recordingReady a1
             then match recordingState a1 with
                  | idle => if isRecordingOnCooldown a1 then a1 else startRecording a1
                  | recording => stopRecording a1
                  end
             else a1) new) as [new Hnew].
  { destruct (pressed && negb (lastPressureState a1) && recordingReady a1).
    - destruct (recordingState a1) eqn:Hs1.
      + destruct (isRecordingOnCooldown a1).
        * exists []. by apply recordingStep_same.
        * apply startRecording_step.
      + apply stopRecording_step.
    - exists []. by apply recordingStep_same. }
  exists new. eapply recordingStep_from; [exact He|exact Hs|exact Hc|exact Hm|].
  eapply recordingStep_to; [| |exact Hnew]; done.
Qed.

Lemma scheduleRegion_recording pressureMatrix a gr :
  let a' := scheduleRegion pressureMatrix a gr in
  recordingState a' = recordingState a
  ∧ isRecordingOnCooldown a' = isRecordingOnCooldown a
  ∧ microphoneSelected a' = microphoneSelected a
  ∧ recordingReady a' = recordingReady a
  ∧ lastPressureState a' = lastPressureState a
  ∧ events a' = events a.
Proof. by destruct gr. Qed.

Lemma checkGridCellsForPressure_recording pressureMatrix a :
  let a' := checkGridCellsForPressure pressureMatrix a in
  recordingState a' = recordingState a
  ∧ isRecordingOnCooldown a' = isRecordingOnCooldown a
  ∧ microphoneSelected a' = microphoneSelected a
  ∧ recordingReady a' = recordingReady a
  ∧ lastPressureState a' = lastPressureState a
  ∧ events a' = events a.
Proof.
  unfold checkGridCellsForPressure.
  generalize (imap pair gridRegions). intros l. revert a.
  induction l as [|gr l IH]; intros a; [done|].
  cbn [fold_left].
  destruct (IH (scheduleRegion pressureMatrix a gr)) as (H1 & H2 & H3 & H4 & H5 & H6).
  destruct (scheduleRegion_recording pressureMatrix a gr)
    as (G1 & G2 & G3 & G4 & G5 & G6).
  cbv zeta in *. repeat split; congruence.
Qed.

Lemma switchMode_fields mode a :
  let a' := switchMode mode a in
  currentMode a' = mode ∧ recordingState a' = idle
  ∧ isRecordingOnCooldown a' = false ∧ recordingReady a' = true
  ∧ lastPressureState a' = false
  ∧ gridCellPressureState a' = replicate (length (gridCellPressureState a)) false
  ∧ gridCellDebounceTimers a' = replicate (length (gridCellDebounceTimers a)) None
  ∧ events a' = events a ++ match recordingState a with
                            | recording => [RecordingStopped]
                            | idle => []
                            end
  ∧ pressureThreshold a' = pressureThreshold a
  ∧ pressureDebounceMs a' = pressureDebounceMs a
  ∧ microphoneSelected a' = microphoneSelected a
  ∧ now a' = now a.
Proof.
  unfold switchMode, stopRecording.
  change (recordingState (withMode mode a)) with (recordingState a).
  destruct (recordingState a); cbn; rewrite ?app_nil_r; done.
Qed.

Lemma switchMode_step mode a : ∃ new, recordingStep a (switchMode mode a) new.
Proof.
  destruct (switchMode_fields mode a) as (_ & Hs & _ & _ & _ & _ & _ & He & _).
  destruct (recordingState a) eqn:Hrec.
  - exists []. apply recordingStep_same; [by rewrite He, app_nil_r|].
    by rewrite Hs.
  - exists [RecordingStopped]. split; try done. right. by right.
Qed.

Lemma handle_step i a : ∃ new, recordingStep a (handle i a) new.
Proof.
  destruct i as [m|v|mode| |b| |]; cbn [handle].
  - unfold handleSerialData. destruct (currentMode a).
    + apply handleRecordingPressure_step.
    + exists []. destruct (checkGridCellsForPressure_recording m a)
        as (H1 & _ & _ & _ & _ & H6).
      apply recordingStep_same; [done|]. by rewrite H1.
  - exists []. by apply recordingStep_same.
  - apply switchMode_step.
  - unfold handleManualRecordToggle. destruct (isRecordingOnCooldown a).
    + exists []. by apply recordingStep_same.
    + destruct (recordingState a) eqn:Hs.
      * apply startRecording_step.
      * apply stopRecording_step.
  - exists []. by apply recordingStep_same.
  - exists []. by apply recordingStep_same.
  - exists []. by apply recordingStep_same.
Qed.

Lemma transition_gridEvents a g timer : gridEvents (transition a g timer).
Proof.
  unfold transition, gridEvents. case_bool_decide; repeat constructor; done.
Qed.

Lemma advance_gridEvents t a :
  ∃ new, events (advance t a) = events a ++ new ∧ gridEvents new.
Proof.
  destruct (advance_spec t a) as (_ & _ & He & _).
  eexists. split; [exact He|].
  unfold gridEvents. apply Forall_flat_map, Forall_forall. intros j _.
  destruct (pendingDue t a j); [apply transition_gridEvents|constructor].
Qed.

Lemma recorderProtocol_gridEvents evs open :
  gridEvents evs → fold_left recorderProtocol evs open = open.
Proof.
  intros H. revert open. induction H as [|ev evs [H1 H2] _ IH]; intros open; [done|].
  simpl. rewrite <- (IH open) at 2. f_equal.
  destruct open as [[]|], ev; done.
Qed.

(** X13.  In every run of the application from its constructor, whatever the
    inputs (frames, sensitivity changes, mode switches, button presses,
    microphone changes, failures, cooldown callbacks) and their times, the
    recorder is asked to stop only when a recording was started and has not
    been stopped since; and while the state is 'recording' the last
    recording call was a start. *)
Theorem stop_follows_start (trace : list (Z * Input)) :
  let a := run trace constructed in
  ∃ open, fold_left recorderProtocol (events a) (Some false) = Some open
          ∧ (recordingState a = recording → open = true).
Proof.
  intros a. subst a. unfold run.
  assert (∃ open, fold_left recorderProtocol (events constructed) (Some false)
                  = Some open
                  ∧ (recordingState constructed = recording → open = true)) as Hinit.
  { by exists false. }
  revert Hinit. generalize constructed.
  induction trace as [|[t i] trace IH]; intros a Hinv; [exact Hinv|].
  cbn [fold_left]. apply IH. clear IH.
  destruct Hinv as (open & Hopen & Hrec).
  unfold step. cbn [fst snd].
  destruct (advance_gridEvents t a) as (new1 & He1 & Hgrid).
  destruct (advance_settings t a) as (_ & Hs1 & _).
  destruct (handle_step i (advance t a)) as [new [He Hstarted Hstopped Hsilent Hshape]].
  rewrite He, He1, !fold_left_app, Hopen, (recorderProtocol_gridEvents _ _ Hgrid).
  rewrite Hs1 in *.
  destruct Hshape as [->|[->| ->]].
  - exists open. split; [done|]. intros H. apply Hrec. by apply Hsilent.
  - exists true. by destruct open.
  - destruct (Hstopped eq_refl) as [Hwas Hnow]. rewrite (Hrec Hwas).
    exists false. split; [done|]. by rewrite Hnow.
Qed.

Lemma startRecording_keeps a :
  isRecordingOnCooldown (startRecording a) = isRecordingOnCooldown a
  ∧ microphoneSelected (startRecording a) = microphoneSelected a.
Proof. by destruct (startRecording_cases a) as [->|(_ & _ & _ & ->)]. Qed.

Lemma stopRecording_keeps a :
  (isRecordingOnCooldown a = true → isRecordingOnCooldown (stopRecording a) = true)
  ∧ microphoneSelected (stopRecording a) = microphoneSelected a.
Proof. by destruct (stopRecording_cases a) as [[_ ->]|[_ ->]]. Qed.

Lemma handleRecordingPressure_keeps total a :
  (isRecordingOnCooldown a = true →
   isRecordingOnCooldown (handleRecordingPressure total a) = true)
  ∧ microphoneSelected (handleRecordingPressure total a) = microphoneSelected a.
Proof.
  unfold handleRecordingPressure.
  set (pressed := pressureThreshold a <? total).
  set (a1 := if negb (recordingReady a) && negb pressed
             then withRecording (recordingState a) (isRecordingOnCooldown a) true a
             else a).
  assert (isRecordingOnCooldown a1 = isRecordingOnCooldown a
          ∧ microphoneSelected a1 = microphoneSelected a) as [Hc Hm].
  { subst a1. by destruct (negb (recordingReady a) && negb pressed). }
  cbn [isRecordingOnCooldown microphoneSelected withLastPressure].
  rewrite <- Hc, <- Hm.
  destruct (pressed && negb (lastPressureState a1) && recordingReady a1); [|done].
  destruct (recordingState a1).
  - destruct (isRecordingOnCooldown a1) eqn:Hc1; [done|]. rewrite <- Hc1.
    destruct (startRecording_keeps a1) as [-> ->]. done.
  - apply stopRecording_keeps.
Qed.

Lemma handle_cooldown i a :
  keepsCooldown i → isRecordingOnCooldown a = true →
  isRecordingOnCooldown (handle i a) = true.
Proof.
  intros Hi Hc. destruct i as [m|v|mode| |b| |]; cbn [handle]; try done.
  - unfold handleSerialData. destruct (currentMode a).
    + by apply handleRecordingPressure_keeps.
    + by destruct (checkGridCellsForPressure_recording m a) as (_ & -> & _).
  - unfold handleManualRecordToggle. by rewrite Hc.
Qed.

Lemma handle_microphone i a :
  keepsMicrophoneOff i → microphoneSelected a = false →
  microphoneSelected (handle i a) = false.
Proof.
  intros Hi Hm. destruct i as [m|v|mode| |b| |]; cbn [handle]; try done.
  - unfold handleSerialData. destruct (currentMode a).
    + destruct (handleRecordingPressure_keeps (totalPressure m) a) as [_ ->]. done.
    + by destruct (checkGridCellsForPressure_recording m a) as (_ & _ & -> & _).
  - destruct (switchMode_fields mode a) as (_ & _ & _ & _ & _ & _ & _ & _ & _ & _ & -> & _).
    done.
  - unfold handleManualRecordToggle. destruct (isRecordingOnCooldown a); [done|].
    destruct (recordingState a).
    + by destruct (startRecording_keeps a) as [_ ->].
    + by destruct (stopRecording_keeps a) as [_ ->].
Qed.

(** A run during which recordings cannot start. *)
Lemma run_without_start (blocked : AudioRugApp → Prop) (allowed : Input → Prop)
    (trace : list (Z * Input)) (a : AudioRugApp) :
  (∀ a, blocked a →
     isRecordingOnCooldown a = true ∨ microphoneSelected a = false) →
  (∀ t a, blocked a → blocked (advance t a)) →
  (∀ i a, allowed i → blocked a → blocked (handle i a)) →
  blocked a → Forall (fun ti => allowed ti.2) trace →
  blocked (run trace a)
  ∧ ∃ new, events (run trace a) = events a ++ new ∧ RecordingStarted ∉ new.
Proof.
  intros Hblocked Hadvance Hhandle Ha Htrace. revert a Ha.
  induction Htrace as [|[t i] trace Hi _ IH]; intros a Ha.
  - split; [done|]. exists []. split; [by rewrite app_nil_r|apply not_elem_of_nil].
  - unfold run. cbn [fold_left]. fold (run trace (step a (t, i))).
    unfold step. cbn [fst snd] in *.
    pose proof (Hadvance t a Ha) as Ha1.
    pose proof (Hhandle i _ Hi Ha1) as Ha2.
    destruct (IH _ Ha2) as [Hend (new3 & He3 & Hno3)]. split; [done|].
    destruct (advance_gridEvents t a) as (new1 & He1 & Hgrid).
    destruct (handle_step i (advance t a))
      as [new2 [He2 Hstarted _ _ Hshape]].
    exists (new1 ++ new2 ++ new3). split.
    + rewrite He3, He2, He1, <- !app_assoc. done.
    + rewrite !not_elem_of_app. split; [|split; [|done]].
      * intros Hin. unfold gridEvents in Hgrid. rewrite Forall_forall in Hgrid.
        by destruct (Hgrid _ Hin).
      * destruct Hshape as [->|[->| ->]].
        -- apply not_elem_of_nil.
        -- destruct (Hstarted eq_refl) as (_ & Hc & Hm & _).
           destruct (Hblocked _ Ha1); congruence.
        -- intros Hin. apply list_elem_of_singleton in Hin. done.
Qed.

(** X14.  Stopping a recording arms the cooldown, and while the cooldown is
    armed no recording starts, neither from the mat nor from the record
    button: only the cooldown callback or a mode switch disarm it. *)
Theorem cooldown_blocks_recording (a : AudioRugApp) (trace : list (Z * Input)) :
  (recordingState a = recording → isRecordingOnCooldown (stopRecording a) = true)
  ∧ (isRecordingOnCooldown a = true →
     Forall (fun ti => keepsCooldown ti.2) trace →
     isRecordingOnCooldown (run trace a) = true
     ∧ ∃ new, events (run trace a) = events a ++ new ∧ RecordingStarted ∉ new).
Proof.
  split.
  - intros Hs. unfold stopRecording. by rewrite Hs.
  - intros Hc Htrace.
    apply (run_without_start (fun a => isRecordingOnCooldown a = true) keepsCooldown);
      try done.
    + intros b Hb. by left.
    + intros t b Hb. by destruct (advance_settings t b) as (_ & _ & -> & _).
    + intros i b. apply handle_cooldown.
Qed.

Lemma cooldown_blocks_recording_witness :
  let a := run [(0, MicrophoneChange true); (0, SwitchMode RECORD);
                (10, ManualRecordToggle); (500, ManualRecordToggle)] constructed in
  let trace := [(600, ManualRecordToggle); (700, SerialData below);
                (800, SerialData above); (900, ManualRecordToggle)] in
  events a = [RecordingStarted; RecordingStopped]
  ∧ ∃ new, events (run trace a) = events a ++ new ∧ RecordingStarted ∉ new.
Proof.
  intros a trace. split; [reflexivity|].
  apply (cooldown_blocks_recording a trace); [reflexivity|].
  repeat constructor.
Defined.

(** X15.  While no microphone is selected no recording starts, whatever the
    mat and the record button do. *)
Theorem no_microphone_no_recording (a : AudioRugApp) (trace : list (Z * Input)) :
  microphoneSelected a = false →
  Forall (fun ti => keepsMicrophoneOff ti.2) trace →
  microphoneSelected (run trace a) = false
  ∧ ∃ new, events (run trace a) = events a ++ new ∧ RecordingStarted ∉ new.
Proof.
  intros Hm Htrace.
  apply (run_without_start (fun a => microphoneSelected a = false) keepsMicrophoneOff);
    try done.
  - intros b Hb. by right.
  - intros t b Hb. by destruct (advance_settings t b) as (_ & _ & _ & _ & _ & _ & _ & ->).
  - intros i b. apply handle_microphone.
Qed.

Lemma no_microphone_no_recording_witness :
  let trace := [(0, SwitchMode RECORD); (100, SerialData below);
                (200, SerialData above); (300, ManualRecordToggle)] in
  ∃ new, events (run trace constructed) = events constructed ++ new
         ∧ RecordingStarted ∉ new.
Proof.
  intros trace.
  apply (no_microphone_no_recording constructed trace); [reflexivity|].
  repeat constructor.
Defined.

Lemma withLastPressure_same a :
  withLastPressure (lastPressureState a) a = a.
Proof. by destruct a. Qed.

Lemma handleRecordingPressure_held total a :
  lastPressureState a = true → pressureThreshold a < total →
  handleRecordingPressure total a = a.
Proof.
  intros Hlast Hgt. unfold handleRecordingPressure.
  apply Z.ltb_lt in Hgt. rewrite Hgt, andb_false_r. cbn [negb andb].
  rewrite Hlast. cbn [negb andb]. rewrite <- Hlast at 1.
  apply withLastPressure_same.
Qed.

(** X16.  Recording is toggled on the rising edge of the total pressure
    only.  While the mat stays pressed, however many frames arrive, the
    state does not change and nothing is called; a frame with the mat
    unpressed starts and stops nothing, and opens the gate; and a pressed
    frame after an unpressed one, with the gate open, starts a recording
    when idle (no cooldown, a microphone selected) and stops it when
    recording. *)
Theorem recording_edge_triggered (a : AudioRugApp) (totals : list Z) (total : Z) :
  (lastPressureState a = true →
   Forall (fun total => pressureThreshold a < total) totals →
   recordingPressures totals a = a)
  ∧ (total <= pressureThreshold a →
     let a' := handleRecordingPressure total a in
     recordingState a' = recordingState a ∧ events a' = events a
     ∧ recordingReady a' = true ∧ lastPressureState a' = false)
  ∧ (pressureThreshold a < total → lastPressureState a = false →
     recordingReady a = true →
     let a' := handleRecordingPressure total a in
     lastPressureState a' = true
     ∧ match recordingState a with
       | idle =>
           if isRecordingOnCooldown a || negb (microphoneSelected a)
           then recordingState a' = idle ∧ events a' = events a
           else recordingState a' = recording
                ∧ events a' = events a ++ [RecordingStarted]
       | recording =>
           recordingState a' = idle ∧ events a' = events a ++ [RecordingStopped]
           ∧ isRecordingOnCooldown a' = true ∧ recordingReady a' = false
       end).
Proof.
  split; [|split].
  - intros Hlast Hall. unfold recordingPressures.
    induction Hall as [|t totals Ht _ IH]; [done|].
    cbn [fold_left]. by rewrite handleRecordingPressure_held.
  - intros Hle. unfold handleRecordingPressure.
    assert ((pressureThreshold a <? total) = false) as -> by by apply Z.ltb_ge.
    cbn [negb andb]. rewrite andb_true_r.
    by destruct (recordingReady a) eqn:Hr.
  - intros Hgt Hlast Hready. unfold handleRecordingPressure.
    apply Z.ltb_lt in Hgt. rewrite Hgt, andb_false_r. cbn [negb andb].
    rewrite Hlast, Hready. cbn [negb andb].
    split; [done|].
    destruct (recordingState a) eqn:Hs.
    + destruct (isRecordingOnCooldown a) eqn:Hc; cbn [orb].
      * cbn. by rewrite Hs.
      * unfold startRecording. rewrite Hs, Hc.
        destruct (microphoneSelected a); cbn; [done|]. by rewrite Hs.
    + unfold stopRecording. rewrite Hs. by cbn.
Qed.

Lemma recording_edge_triggered_witness :
  let a := run [(0, MicrophoneChange true); (0, SwitchMode RECORD);
                (100, SerialData above)] constructed in
  events a = [RecordingStarted]
  ∧ recordingPressures [200; 300; 26] a = a.
Proof.
  intros a. split; [reflexivity|].
  apply (proj1 (recording_edge_triggered a [200; 300; 26] 0)); [reflexivity|].
  repeat constructor.
Defined.

Lemma arrayGet_replicate {A} (d : A) (n j : nat) :
  arrayGet d (replicate n d) j = d.
Proof.
  unfold arrayGet. destruct (replicate n d !! j) as [x|] eqn:Hx; [|done].
  apply lookup_replicate in Hx as [-> _]. done.
Qed.

(** X17.  A mode switch resets both state machines: no recording is in
    progress afterwards (one that was is stopped, with one stop call), the
    cooldown is disarmed, every region is committed as unpressed, and the
    debounce evaluations that were pending are cancelled, so that none of
    them runs at any later time. *)
Theorem switchMode_resets (mode : Mode) (a : AudioRugApp) (t : Z) :
  wellFormed a →
  let a' := switchMode mode a in
  currentMode a' = mode
  ∧ recordingState a' = idle ∧ isRecordingOnCooldown a' = false
  ∧ lastPressureState a' = false
  ∧ events a' = events a ++ match recordingState a with
                            | recording => [RecordingStopped]
                            | idle => []
                            end
  ∧ gridCellPressureState a' = replicate 9 false
  ∧ (∀ g, arrayGet None (gridCellDebounceTimers a') g = None)
  ∧ events (advance t a') = events a'
  ∧ gridCellPressureState (advance t a') = replicate 9 false.
Proof.
  intros [Hlen1 Hlen2] a'.
  destruct (switchMode_fields mode a)
    as (Hm & Hs & Hc & _ & Hl & Hst & Htm & He & _).
  fold a' in Hm, Hs, Hc, Hl, Hst, Htm, He.
  rewrite Hlen1 in Hst. rewrite Hlen2 in Htm.
  assert (∀ g, arrayGet None (gridCellDebounceTimers a') g = None) as Hnone.
  { intros g. rewrite Htm. apply arrayGet_replicate. }
  assert (∀ j, pendingDue t a' j = None) as Hdue.
  { intros j. unfold pendingDue. by rewrite Hnone. }
  assert (wellFormed a') as Hwf by (split; [by rewrite Hst|by rewrite Htm]).
  destruct (advance_spec t a') as (Hstates & _ & Hev & _).
  pose proof (advance_wellFormed t a' Hwf) as [Hlen1' _].
  repeat split; try done.
  - rewrite Hev, flat_map_nil; [by rewrite app_nil_r|].
    intros j. by rewrite Hdue.
  - rewrite <- Hst. apply (array_ext false); [destruct Hwf; congruence|].
    intros j. by rewrite Hstates, Hdue.
Qed.

Lemma switchMode_resets_witness :
  let a := handleSerialData above performing in
  (∃ timer, arrayGet None (gridCellDebounceTimers a) 0 = Some timer)
  ∧ events (advance 1000 (switchMode RECORD a)) = []
  ∧ gridCellPressureState (advance 1000 (switchMode RECORD a)) = replicate 9 false.
Proof.
  intros a. split; [eexists; vm_compute; reflexivity|].
  destruct (switchMode_resets RECORD a 1000) as (_ & _ & _ & _ & He & _ & _ & Hev & Hst).
  - split; reflexivity.
  - split; [|exact Hst]. rewrite Hev, He. reflexivity.
Defined.

(** A frame in PERFORM mode and the full window after it. *)
Lemma advance_after_frame frame later a :
  wellFormed a → currentMode a = PERFORM →
  now a + pressureDebounceMs a <= later →
  let a' := advance later (handleSerialData frame a) in
  (∀ g, (g < 9)%nat →
     arrayGet false (gridCellPressureState a') g
     = instantaneous (pressureThreshold a) frame g)
  ∧ events a' = events a ++ transitions a frame
  ∧ wellFormed a' ∧ currentMode a' = PERFORM.
Proof.
  intros Hwf Hmode Hlater a'.
  destruct (performFrame_spec frame a Hwf Hmode)
    as (Hwf1 & Hmode1 & Hfresh1 & Hst1 & Hev1 & Hnow1 & Hdeb1 & Hthr1 & Htm1).
  set (a1 := handleSerialData frame a) in *.
  destruct (advance_spec later a1) as (Hst & _ & Hev & _ & _ & _ & Hmode').
  fold a' in Hst, Hev, Hmode'.
  assert (∀ g region, gridRegions !! g = Some region →
            pendingDue later a1 g = Some (scheduled a frame region)) as Hdue.
  { intros g region Hr. unfold pendingDue.
    rewrite (Htm1 g region Hr). cbn [scheduled deadline].
    destruct (Z.leb_spec (now a + pressureDebounceMs a) later); [done|lia]. }
  pose proof (advance_wellFormed later a1 Hwf1) as Hwf'.
  destruct Hwf1 as [_ Hlen].
  split; [|split; [|split; [done|congruence]]].
  - intros g Hg. rewrite Hst.
    destruct (lookup_lt_is_Some_2 gridRegions g Hg) as [region Hr].
    rewrite (Hdue g region Hr). unfold instantaneous. by rewrite Hr.
  - rewrite Hev, Hev1. f_equal.
    rewrite Hlen. unfold transitions. apply flat_map_ext. intros g.
    destruct (gridRegions !! g) as [region|] eqn:Hr.
    + rewrite (Hdue g region Hr). unfold transition, instantaneous.
      rewrite Hst1, Hr. done.
    + unfold pendingDue, arrayGet.
      rewrite lookup_ge_None_2; [done|].
      rewrite Hlen. by apply lookup_ge_None_1 in Hr.
Qed.

(** *** The transitions of a region alternate *)

Lemma regionProtocol_recording g evs last :
  Forall (fun ev => ev = RecordingStarted ∨ ev = RecordingStopped) evs →
  fold_left (regionProtocol g) evs last = last.
Proof.
  intros H. revert last. induction H as [|ev evs Hev _ IH]; intros last; [done|].
  simpl. rewrite <- (IH last) at 2. f_equal.
  destruct last as [b|]; [|done]. by destruct Hev as [-> | ->].
Qed.

Lemma regionProtocol_transition g a j timer b :
  arrayGet false (gridCellPressureState a) g = b →
  fold_left (regionProtocol g) (transition a j timer) (Some b)
  = Some (if decide (j = g) then isPressed timer else b).
Proof.
  intros Hb. unfold transition. destruct (decide (j = g)) as [->|Hne].
  - rewrite Hb. case_bool_decide as Heq; simpl; [by rewrite Heq|].
    rewrite Nat.eqb_refl.
    by destruct (Bool.eqb_spec (isPressed timer) b).
  - case_bool_decide as Heq; simpl; [done|].
    by destruct (Nat.eqb_spec j g).
Qed.

(** The timers that run, slot by slot. *)
Lemma regionProtocol_runDue g t a k :
  fold_left (regionProtocol g)
    (flat_map (fun j => match pendingDue t a j with
                        | Some timer => transition a j timer
                        | None => []
                        end) (seq 0 k))
    (Some (arrayGet false (gridCellPressureState a) g))
  = Some (match (if decide (g < k)%nat then pendingDue t a g else None) with
          | Some timer => isPressed timer
          | None => arrayGet false (gridCellPressureState a) g
          end).
Proof.
  induction k as [|k IH].
  - cbn [seq flat_map fold_left]. case_decide; [lia|done].
  - rewrite seq_S, flat_map_app, fold_left_app, IH. simpl. rewrite app_nil_r.
    destruct (pendingDue t a k) as [timer|] eqn:Hk.
    + destruct (decide (k = g)) as [->|Hne].
      * destruct (decide (g < g)%nat); [lia|].
        destruct (decide (g < S g)%nat); [|lia]. rewrite Hk.
        rewrite (regionProtocol_transition g a g timer _ eq_refl).
        by rewrite decide_True.
      * unfold transition. case_bool_decide as Heq; simpl.
        -- repeat case_decide; try lia; done.
        -- destruct (Nat.eqb_spec k g); [done|].
           repeat case_decide; try lia; done.
    + simpl. repeat case_decide; try lia; try done.
      assert (k = g) as -> by lia. by rewrite Hk.
Qed.

Lemma advance_regionProtocol g t a :
  fold_left (regionProtocol g) (events a) (Some false)
  = Some (arrayGet false (gridCellPressureState a) g) →
  fold_left (regionProtocol g) (events (advance t a)) (Some false)
  = Some (arrayGet false (gridCellPressureState (advance t a)) g).
Proof.
  intros Hinv. destruct (advance_spec t a) as (Hst & _ & Hev & _).
  rewrite Hev, fold_left_app, Hinv, regionProtocol_runDue, Hst.
  case_decide as Hg; [done|].
  rewrite pendingDue_beyond by lia. done.
Qed.

Lemma handle_regionProtocol g i a :
  keepsMode i →
  fold_left (regionProtocol g) (events a) (Some false)
  = Some (arrayGet false (gridCellPressureState a) g) →
  fold_left (regionProtocol g) (events (handle i a)) (Some false)
  = Some (arrayGet false (gridCellPressureState (handle i a)) g).
Proof.
  intros Hi Hinv.
  assert (gridCellPressureState (handle i a) = gridCellPressureState a) as ->.
  { destruct i as [m|v|mode| |b| |]; cbn [handle]; try done.
    - unfold handleSerialData. destruct (currentMode a).
      + unfold handleRecordingPressure.
        repeat match goal with
               | |- context [if ?c then _ else _] => destruct c
               | |- context [match recordingState ?x with _ => _ end] =>
                   destruct (recordingState x) eqn:?
               end; cbn; try done;
          unfold startRecording, stopRecording; cbn;
          repeat match goal with
                 | H : recordingState _ = _ |- _ => rewrite H
                 | |- context [if ?c then _ else _] => destruct c
                 | |- context [match recordingState ?x with _ => _ end] =>
                     destruct (recordingState x) eqn:?
                 end; cbn; done.
      + by destruct (checkGridCellsForPressure_spec m a) as (_ & _ & -> & _).
    - unfold handleManualRecordToggle, startRecording, stopRecording.
      repeat match goal with
             | |- context [if ?c then _ else _] => destruct c
             | |- context [match recordingState ?x with _ => _ end] =>
                 destruct (recordingState x) eqn:?
             end; cbn; done. }
  destruct (handle_step i a) as [new [He _ _ _ Hshape]].
  rewrite He, fold_left_app, Hinv.
  apply regionProtocol_recording.
  destruct Hshape as [->|[->| ->]];
    [constructor | constructor; [by left|constructor]
     | constructor; [by right|constructor]].
Qed.

(** X18.  Between mode switches the transition calls of a region alternate.
    In every run with no mode switch, from a state whose log is in order
    for the region and ends at its committed state (the constructed
    application, with an empty log, for one), the region is never reported
    pressed twice without a release in between, nor released twice, the
    first call reports a press, and the state of the last call is the
    committed state of the region. *)
Theorem transitions_alternate (g : nat) (trace : list (Z * Input)) (a : AudioRugApp) :
  fold_left (regionProtocol g) (events a) (Some false)
  = Some (arrayGet false (gridCellPressureState a) g) →
  Forall (fun ti => keepsMode ti.2) trace →
  fold_left (regionProtocol g) (events (run trace a)) (Some false)
  = Some (arrayGet false (gridCellPressureState (run trace a)) g).
Proof.
  intros Hinv Htrace. revert a Hinv.
  induction Htrace as [|[t i] trace Hi _ IH]; intros a Hinv; [done|].
  unfold run. cbn [fold_left]. apply IH. unfold step. cbn [fst snd] in *.
  by apply handle_regionProtocol, advance_regionProtocol.
Qed.

Lemma transitions_alternate_witness :
  let trace := [(0, SerialData above); (60, SerialData above);
                (120, SerialData below); (130, SerialData above);
                (200, Sensitivity 10)] in
  events (run trace performing)
  = [GridCellPressureChange 0 true (Some 200)]
  ∧ fold_left (regionProtocol 0) (events (run trace performing)) (Some false)
    = Some true.
Proof.
  intros trace. split; [vm_compute; reflexivity|].
  rewrite (transitions_alternate 0 trace performing);
    [vm_compute; reflexivity|reflexivity|repeat constructor].
Defined.

End AppFacts.

(** ** Sample player *)

Module PerformFacts.
Import Perform.

(** *** The map of the cells that play *)

Lemma mapHas_keys {A} (k : nat) (m : list (nat * A)) :
  mapHas k m = true ↔ k ∈ map fst m.
Proof.
  unfold mapHas. rewrite existsb_exists, list_elem_of_In, in_map_iff.
  split.
  - intros ([k' v] & Hin & Hk). apply Nat.eqb_eq in Hk. simpl in Hk. subst.
    by exists (k, v).
  - intros ([k' v] & Hk & Hin). simpl in Hk. subst.
    exists (k, v). split; [done|]. apply Nat.eqb_refl.
Qed.

Lemma mapHas_false {A} (k : nat) (m : list (nat * A)) :
  mapHas k m = false ↔ k ∉ map fst m.
Proof.
  rewrite <- mapHas_keys. destruct (mapHas k m); split; try done;
    intros H; by destruct H.
Qed.

Lemma mapDelete_keys {A} (k : nat) (m : list (nat * A)) :
  map fst (mapDelete k m) = List.filter (fun k' => negb (Nat.eqb k' k)) (map fst m).
Proof.
  unfold mapDelete. induction m as [|[k' v] m IH]; [done|].
  simpl. destruct (Nat.eqb k' k); simpl; by rewrite IH.
Qed.

Lemma mapHas_mapDelete {A} (k k' : nat) (m : list (nat * A)) :
  mapHas k' (mapDelete k m) = mapHas k' m && negb (Nat.eqb k' k).
Proof.
  apply eq_true_iff_eq. rewrite andb_true_iff, !mapHas_keys, mapDelete_keys.
  rewrite !list_elem_of_In, filter_In. rewrite negb_true_iff. tauto.
Qed.

Lemma NoDup_mapDelete {A} (k : nat) (m : list (nat * A)) :
  NoDup (map fst m) → NoDup (map fst (mapDelete k m)).
Proof.
  rewrite mapDelete_keys. rewrite !NoDup_ListNoDup. apply List.NoDup_filter.
Qed.

Lemma mapGet_mapDelete {A} (k k' : nat) (m : list (nat * A)) :
  mapGet k' (mapDelete k m) = if Nat.eqb k' k then None else mapGet k' m.
Proof.
  unfold mapGet, mapDelete. induction m as [|[k0 v] m IH]; simpl.
  - by destruct (Nat.eqb k' k).
  - destruct (Nat.eqb_spec k0 k) as [->|Hne]; simpl.
    + rewrite IH. destruct (Nat.eqb_spec k' k) as [->|Hne'].
      * done.
      * destruct (Nat.eqb_spec k k'); [congruence|done].
    + destruct (Nat.eqb_spec k0 k') as [->|Hne'].
      * destruct (Nat.eqb_spec k' k); [congruence|done].
      * exact IH.
Qed.

Lemma mapSet_new {A} (k : nat) (v : A) (m : list (nat * A)) :
  mapHas k m = false → mapSet k v m = m ++ [(k, v)].
Proof. intros H. unfold mapSet. by rewrite H. Qed.

Lemma mapHas_snoc {A} (k k' : nat) (v : A) (m : list (nat * A)) :
  mapHas k' (m ++ [(k, v)]) = mapHas k' m || Nat.eqb k k'.
Proof. unfold mapHas. rewrite existsb_app. simpl. by rewrite orb_false_r. Qed.

Lemma mapGet_snoc {A} (k k' : nat) (v : A) (m : list (nat * A)) :
  mapHas k m = false →
  mapGet k' (m ++ [(k, v)]) = if Nat.eqb k k' then Some v else mapGet k' m.
Proof.
  unfold mapGet, mapHas. induction m as [|[k0 v0] m IH]; simpl.
  - intros _. by destruct (Nat.eqb k k').
  - intros H. apply orb_false_iff in H as [H0 H].
    destruct (Nat.eqb_spec k0 k') as [->|Hne]; simpl.
    + apply Nat.eqb_neq in H0. destruct (Nat.eqb_spec k k'); [congruence|done].
    + by apply IH.
Qed.

Lemma mapGet_has {A} (k : nat) (m : list (nat * A)) (v : A) :
  mapGet k m = Some v → mapHas k m = true.
Proof.
  unfold mapGet, mapHas. intros H.
  destruct (List.find _ m) as [[k' v']|] eqn:Hf; [|done].
  apply find_some in Hf as [Hin Hk]. apply existsb_exists. eauto.
Qed.

(** *** What the application tracks *)

Lemma updateGridCellVisual_fields g isActive isError p :
  let p' := updateGridCellVisual g isActive isError p in
  activeSampleSources p' = activeSampleSources p
  ∧ audioEngine p' = audioEngine p
  ∧ machine p' = machine p
  ∧ samples p' = samples p
  ∧ effectsEnabled p' = effectsEnabled p
  ∧ length (cells p') = length (cells p).
Proof.
  unfold updateGridCellVisual. destruct (cells p !! g); [|done].
  cbn. by rewrite length_insert.
Qed.

Lemma tracks_same p p' :
  activeSampleSources p' = activeSampleSources p →
  audioEngine p' = audioEngine p →
  tracks p → tracks p'.
Proof. unfold tracks. by intros -> ->. Qed.

Lemma tracks_absent p g :
  tracks p → mapHas g (activeSampleSources p) = false →
  Engine.activeLoopedSources (audioEngine p) !! Z.of_nat g = None.
Proof.
  intros (_ & Hdom & _) Hno.
  destruct (Engine.activeLoopedSources (audioEngine p) !! Z.of_nat g) eqn:Hv; [|done].
  destruct (proj1 (Hdom (Z.of_nat g)) ltac:(eauto)) as (g' & Hg & Hhas).
  apply Nat2Z.inj in Hg. subst g'. congruence.
Qed.

(** Removing a key on both sides. *)
Lemma tracks_delete p g e' :
  tracks p →
  Engine.activeLoopedSources e'
  = delete (Z.of_nat g) (Engine.activeLoopedSources (audioEngine p)) →
  tracks (withSources (mapDelete g (activeSampleSources p)) (withEngine e' p)).
Proof.
  intros (Hnd & Hdom & Heff) Hm. unfold tracks.
  cbn [activeSampleSources audioEngine withSources withEngine]. rewrite Hm.
  split; [by apply NoDup_mapDelete|]. split.
  - intros z. rewrite lookup_delete_is_Some, Hdom. split.
    + intros [Hne (g' & -> & Hhas)]. exists g'. split; [done|].
      rewrite mapHas_mapDelete, Hhas. simpl.
      destruct (Nat.eqb_spec g' g); [congruence|done].
    + intros (g' & -> & Hhas). rewrite mapHas_mapDelete in Hhas.
      apply andb_true_iff in Hhas as [Hhas Hne].
      apply negb_true_iff, Nat.eqb_neq in Hne.
      split; [lia|]. by exists g'.
  - intros g' t v Hget Hv. rewrite mapGet_mapDelete in Hget.
    destruct (Nat.eqb_spec g' g); [done|].
    apply lookup_delete_Some in Hv as [_ Hv]. by apply (Heff g' t).
Qed.

(** Adding a key on both sides. *)
Lemma tracks_insert p g entry voice e' :
  tracks p → mapHas g (activeSampleSources p) = false →
  Engine.activeLoopedSources e'
  = <[Z.of_nat g := voice]> (Engine.activeLoopedSources (audioEngine p)) →
  Engine.effectName voice = None
  ∨ Engine.effectName voice = Some (effectName entry) →
  tracks (withSources (mapSet g entry (activeSampleSources p)) (withEngine e' p)).
Proof.
  intros (Hnd & Hdom & Heff) Hno Hm Hvoice. unfold tracks.
  cbn [activeSampleSources audioEngine withSources withEngine].
  rewrite Hm, mapSet_new by done.
  split; [|split].
  - rewrite map_app. simpl. apply NoDup_app. split; [done|]. split.
    + intros k Hk Hk'. apply list_elem_of_singleton in Hk'. subst.
      by apply mapHas_false in Hno.
    + apply NoDup_singleton.
  - intros z. rewrite lookup_insert_is_Some, Hdom. split.
    + intros [<-|[Hne (g' & -> & Hhas)]].
      * exists g. split; [done|]. by rewrite mapHas_snoc, Nat.eqb_refl, orb_true_r.
      * exists g'. split; [done|]. by rewrite mapHas_snoc, Hhas.
    + intros (g' & -> & Hhas). rewrite mapHas_snoc in Hhas.
      destruct (Nat.eqb_spec g g') as [->|Hne]; [by left|].
      right. split; [lia|]. exists g'. split; [done|].
      by rewrite orb_false_r in Hhas.
  - intros g' t v Hget Hv. rewrite mapGet_snoc in Hget by done.
    destruct (Nat.eqb_spec g g') as [->|Hne].
    + rewrite lookup_insert_eq in Hv. by simplify_eq.
    + rewrite lookup_insert_ne in Hv by lia. by apply (Heff g' t).
Qed.

Lemma stopSampleWithEffect_tracks g p : tracks p → tracks (stopSampleWithEffect g p).
Proof.
  intros Ht. unfold stopSampleWithEffect.
  destruct (mapHas g (activeSampleSources p)); [|done].
  apply tracks_delete; [done|].
  apply EngineFacts.stopLoopedSampleWithEffect_voices.
Qed.

(** The engine is driven by calls. *)
Lemma stopSampleWithEffect_calls g p :
  ∃ cs, audioEngine (stopSampleWithEffect g p) = Engine.calls cs (audioEngine p).
Proof.
  unfold stopSampleWithEffect.
  destruct (mapHas g (activeSampleSources p)).
  - by exists [Engine.Stop (Z.of_nat g)].
  - by exists [].
Qed.

Lemma stopSampleWithEffect_fields g p :
  let p' := stopSampleWithEffect g p in
  machine p' = machine p ∧ samples p' = samples p ∧ cells p' = cells p
  ∧ effectsEnabled p' = effectsEnabled p
  ∧ mapHas g (activeSampleSources p') = false
  ∧ activeSampleSources p' = mapDelete g (activeSampleSources p).
Proof.
  unfold stopSampleWithEffect.
  destruct (mapHas g (activeSampleSources p)) eqn:Hhas;
    cbn [machine samples cells effectsEnabled activeSampleSources
         withSources withEngine].
  - repeat split. by rewrite mapHas_mapDelete, Nat.eqb_refl, andb_false_r.
  - repeat split; [done|]. unfold mapDelete. symmetry.
    apply mapHas_false in Hhas.
    induction (activeSampleSources p) as [|[k v] m IH]; [done|].
    simpl in *. apply not_elem_of_cons in Hhas as [Hne Hm].
    destruct (Nat.eqb_spec k g); [congruence|]. simpl. f_equal. by apply IH.
Qed.

(** What a start that is let to finish does. *)
Lemma startSampleWithEffect_cases setup g i name p :
  let z := Z.of_nat g in
  let given := if effectsEnabled p then Some name else None in
  let r := Engine.startLoopedSampleWithEffect z setup given 1.0 (audioEngine p) in
  let p' := startSampleWithEffect setup g i name p in
  machine p' = machine p ∧ samples p' = samples p
  ∧ effectsEnabled p' = effectsEnabled p
  ∧ length (cells p') = length (cells p)
  ∧ ((samples p !! i ≫= blob = None
      ∧ activeSampleSources p' = activeSampleSources p
      ∧ audioEngine p' = audioEngine p)
     ∨ (is_Some (samples p !! i ≫= blob)
        ∧ mapHas g (activeSampleSources p) = true ∧ p' = p)
     ∨ (is_Some (samples p !! i ≫= blob)
        ∧ mapHas g (activeSampleSources p) = false
        ∧ if r.2
          then activeSampleSources p'
               = mapSet g {| sampleIndex := i; effectName := name |}
                   (activeSampleSources p)
               ∧ audioEngine p' = r.1
          else activeSampleSources p' = activeSampleSources p
               ∧ audioEngine p' = Engine.stopLoopedSampleWithEffect z r.1)).
Proof.
  intros z given r p'. subst p'.
  unfold startSampleWithEffect, startSampleWithEffectBegin.
  destruct (samples p !! i ≫= blob) as [b|] eqn:Hs.
  2:{ destruct (updateGridCellVisual_fields g true true p)
        as (H1 & H2 & H3 & H4 & H5 & H6).
      repeat split; try done. by left. }
  destruct (mapHas g (activeSampleSources p)) eqn:Hhas.
  { repeat split; try done. right. left. eauto. }
  unfold startSampleWithEffectEnd.
  cbn [gridIndex entry Perform.passed audioEngine withEngine].
  change (Engine.startLoopedSampleWithEffectEnd (Z.of_nat g) setup
            (if effectsEnabled p then Some name else None) 1.0
            (Engine.startLoopedSampleWithEffectBegin (Z.of_nat g) (audioEngine p)))
    with r.
  destruct r as [e ok]. cbn [fst snd].
  destruct ok.
  - match goal with
    | |- context [updateGridCellVisual g true false ?q] =>
        destruct (updateGridCellVisual_fields g true false q)
          as (H1 & H2 & H3 & H4 & H5 & H6)
    end.
    cbv zeta in *. rewrite H1, H2, H3, H4, H5, H6.
    cbn [machine samples effectsEnabled cells activeSampleSources audioEngine
         withEngine withSources].
    repeat split; try done. right. right. eauto.
  - match goal with
    | |- context [updateGridCellVisual g true true ?q] =>
        destruct (updateGridCellVisual_fields g true true q)
          as (H1 & H2 & H3 & H4 & H5 & H6)
    end.
    cbv zeta in *.
    cbn [machine samples effectsEnabled cells activeSampleSources audioEngine
         withEngine withSources].
    rewrite H1, H2, H3, H4, H5, H6.
    cbn [machine samples effectsEnabled cells activeSampleSources audioEngine
         withEngine withSources].
    repeat split; try done. right. right. eauto.
Qed.

Lemma tracks_voices p p' :
  activeSampleSources p' = activeSampleSources p →
  Engine.activeLoopedSources (audioEngine p')
  = Engine.activeLoopedSources (audioEngine p) →
  tracks p → tracks p'.
Proof. unfold tracks. by intros -> ->. Qed.

Lemma startLoopedSampleWithEffect_free z setup name volume e :
  Engine.activeLoopedSources e !! z = None →
  let r := Engine.startLoopedSampleWithEffect z setup name volume e in
  if r.2
  then ∃ voice, Engine.effectName voice = name
         ∧ Engine.activeLoopedSources r.1
           = <[z := voice]> (Engine.activeLoopedSources e)
  else Engine.activeLoopedSources r.1 = Engine.activeLoopedSources e
       ∧ Engine.activeLoopedSources (Engine.stopLoopedSampleWithEffect z r.1)
         = Engine.activeLoopedSources e.
Proof.
  intros Hfree r. subst r. rewrite EngineFacts.start_two_parts.
  rewrite EngineFacts.startLoopedSampleWithEffectBegin_stop.
  rewrite (EngineFacts.stopLoopedSampleWithEffect_absent z e Hfree).
  pose proof (EngineFacts.startLoopedSampleWithEffectEnd_voices z setup name volume e)
    as H.
  cbv zeta in H. destruct setup.
  - destruct H as (-> & voice & Hname & _ & Hm & _). eauto.
  - destruct H as (-> & Hm & _). split; [done|].
    rewrite EngineFacts.stopLoopedSampleWithEffect_voices, Hm.
    by apply delete_id.
  - destruct H as (-> & Hm & _). split; [done|].
    rewrite EngineFacts.stopLoopedSampleWithEffect_voices, Hm.
    by apply delete_id.
Qed.

Lemma startSampleWithEffect_tracks setup g i name p :
  tracks p → tracks (startSampleWithEffect setup g i name p).
Proof.
  intros Ht.
  destruct (startSampleWithEffect_cases setup g i name p)
    as (_ & _ & _ & _ & [(_ & Hm & He)|[(_ & _ & ->)|(_ & Hno & Hcase)]]);
    [apply (tracks_voices p); [done|by rewrite He|done]|done|].
  pose proof (startLoopedSampleWithEffect_free (Z.of_nat g) setup
                (if effectsEnabled p then Some name else None) 1.0 (audioEngine p)
                (tracks_absent p g Ht Hno)) as Hfree.
  cbv zeta in Hfree, Hcase.
  destruct (Engine.startLoopedSampleWithEffect _ _ _ _ _).2.
  - destruct Hcase as [Hm He]. destruct Hfree as (voice & Hname & Hvoices).
    eapply (tracks_voices
              (withSources (mapSet g {| sampleIndex := i; effectName := name |}
                              (activeSampleSources p))
                 (withEngine _ p))); [exact Hm|by rewrite He|].
    apply (tracks_insert p g _ voice); [done|done|exact Hvoices|].
    rewrite Hname. cbn [effectName]. destruct (effectsEnabled p); eauto.
  - destruct Hcase as [Hm He]. destruct Hfree as [_ Hvoices].
    apply (tracks_voices p); [done| |done]. by rewrite He.
Qed.

Lemma startSampleWithEffect_calls setup g i name p :
  ∃ cs, audioEngine (startSampleWithEffect setup g i name p)
        = Engine.calls cs (audioEngine p).
Proof.
  destruct (startSampleWithEffect_cases setup g i name p)
    as (_ & _ & _ & _ & [(_ & _ & He)|[(_ & _ & ->)|(_ & _ & Hcase)]]).
  - exists []. by rewrite He.
  - by exists [].
  - cbv zeta in Hcase.
    destruct (Engine.startLoopedSampleWithEffect _ _ _ _ _).2.
    + destruct Hcase as [_ ->].
      by exists [Engine.Start (Z.of_nat g) setup
                   (if effectsEnabled p then Some name else None) 1.0].
    + destruct Hcase as [_ ->].
      by exists [Engine.Start (Z.of_nat g) setup
                   (if effectsEnabled p then Some name else None) 1.0;
                 Engine.Stop (Z.of_nat g)].
Qed.

Lemma startSampleWithEffectEnd_fields c setup p :
  let r := Engine.startLoopedSampleWithEffectEnd (Z.of_nat (gridIndex c)) setup
             (passed c) 1.0 (audioEngine p) in
  let p' := startSampleWithEffectEnd c setup p in
  machine p' = machine p ∧ samples p' = samples p
  ∧ effectsEnabled p' = effectsEnabled p
  ∧ length (cells p') = length (cells p)
  ∧ activeSampleSources p'
    = (if r.2 then mapSet (gridIndex c) (entry c) (activeSampleSources p)
       else activeSampleSources p)
  ∧ audioEngine p'
    = (if r.2 then r.1
       else Engine.stopLoopedSampleWithEffect (Z.of_nat (gridIndex c)) r.1).
Proof.
  intros r p'. subst p'. unfold startSampleWithEffectEnd. fold r.
  destruct r as [e ok]. cbn [fst snd]. destruct ok.
  - match goal with
    | |- context [updateGridCellVisual ?g true false ?q] =>
        destruct (updateGridCellVisual_fields g true false q)
          as (H1 & H2 & H3 & H4 & H5 & H6)
    end.
    cbv zeta in *. by rewrite H1, H2, H3, H4, H5, H6.
  - match goal with
    | |- context [updateGridCellVisual ?g true true ?q] =>
        destruct (updateGridCellVisual_fields g true true q)
          as (H1 & H2 & H3 & H4 & H5 & H6)
    end.
    cbv zeta in *.
    cbn [machine samples effectsEnabled cells activeSampleSources audioEngine
         withEngine withSources].
    by rewrite H1, H2, H3, H4, H5, H6.
Qed.

Lemma startSampleWithEffectBegin_fields g i name p :
  let r := startSampleWithEffectBegin g i name p in
  machine r.1 = machine p ∧ samples r.1 = samples p
  ∧ effectsEnabled r.1 = effectsEnabled p
  ∧ length (cells r.1) = length (cells p)
  ∧ activeSampleSources r.1 = activeSampleSources p.
Proof.
  unfold startSampleWithEffectBegin.
  destruct (samples p !! i ≫= blob).
  - by destruct (mapHas g (activeSampleSources p)).
  - destruct (updateGridCellVisual_fields g true true p)
      as (H1 & H2 & H3 & H4 & H5 & H6). done.
Qed.

(** The voices and the map after a change of pressure are those of the
    start or of the stop it makes. *)
Lemma handleGridCellPressureChange_cases setup g isPressed p :
  let p' := handleGridCellPressureChange setup g isPressed p in
  let q :=
    match cells p !! g, App.currentMode (machine p) with
    | Some cell, App.PERFORM =>
        if isPressed
        then startSampleWithEffect setup g (sample cell) (effect cell) p
        else stopSampleWithEffect g p
    | _, _ => p
    end in
  machine p' = machine p ∧ samples p' = samples p
  ∧ effectsEnabled p' = effectsEnabled p
  ∧ length (cells p') = length (cells p)
  ∧ activeSampleSources p' = activeSampleSources q
  ∧ audioEngine p' = audioEngine q.
Proof.
  intros p' q. subst p' q.
  unfold handleGridCellPressureChange, handleGridCellPressureChangeBegin.
  destruct (cells p !! g) as [cell|]; [|done].
  destruct (App.currentMode (machine p)).
  { destruct (updateGridCellVisual_fields g isPressed false p)
      as (H1 & H2 & H3 & H4 & H5 & H6). done. }
  destruct isPressed.
  - unfold startSampleWithEffect.
    destruct (startSampleWithEffectBegin_fields g (sample cell) (effect cell) p)
      as (B1 & B2 & B3 & B4 & B5).
    destruct (startSampleWithEffectBegin g (sample cell) (effect cell) p)
      as [p1 [c|]]; cbn [fst] in B1, B2, B3, B4, B5.
    + destruct (updateGridCellVisual_fields g true false p1)
        as (H1 & H2 & H3 & H4 & H5 & H6).
      destruct (startSampleWithEffectEnd_fields c setup
                  (updateGridCellVisual g true false p1))
        as (G1 & G2 & G3 & G4 & G5 & G6).
      destruct (startSampleWithEffectEnd_fields c setup p1)
        as (F1 & F2 & F3 & F4 & F5 & F6).
      cbv zeta in *.
      rewrite G1, G2, G3, G4, G5, G6, F5, F6, H1, H2, H3, H4, H5, H6.
      by rewrite B1, B2, B3, B4.
    + destruct (updateGridCellVisual_fields g true false p1)
        as (H1 & H2 & H3 & H4 & H5 & H6).
      cbv zeta in *. by rewrite H1, H2, H3, H4, H5, H6, B1, B2, B3, B4.
  - destruct (updateGridCellVisual_fields g false false (stopSampleWithEffect g p))
      as (H1 & H2 & H3 & H4 & H5 & H6).
    destruct (stopSampleWithEffect_fields g p) as (S1 & S2 & S3 & S4 & _).
    cbv zeta in *. by rewrite H1, H2, H3, H4, H5, H6, S1, S2, S3, S4.
Qed.

Lemma handleGridCellPressureChange_tracks setup g isPressed p :
  tracks p → tracks (handleGridCellPressureChange setup g isPressed p).
Proof.
  intros Ht.
  destruct (handleGridCellPressureChange_cases setup g isPressed p)
    as (_ & _ & _ & _ & Hm & He).
  cbv zeta in Hm, He.
  eapply tracks_voices; [exact Hm|by rewrite He|].
  destruct (cells p !! g) as [cell|]; [|done].
  destruct (App.currentMode (machine p)); [done|].
  destruct isPressed.
  - by apply startSampleWithEffect_tracks.
  - by apply stopSampleWithEffect_tracks.
Qed.

Lemma handleGridCellPressureChange_calls setup g isPressed p :
  ∃ cs, audioEngine (handleGridCellPressureChange setup g isPressed p)
        = Engine.calls cs (audioEngine p).
Proof.
  destruct (handleGridCellPressureChange_cases setup g isPressed p)
    as (_ & _ & _ & _ & _ & He).
  cbv zeta in He. rewrite He.
  destruct (cells p !! g) as [cell|]; [|by exists []].
  destruct (App.currentMode (machine p)); [by exists []|].
  destruct isPressed.
  - apply startSampleWithEffect_calls.
  - apply stopSampleWithEffect_calls.
Qed.

Lemma changeGridCellEffect_fields g newEffect p :
  let p' := changeGridCellEffect g newEffect p in
  let q := match cells p !! g with
           | Some _ => stopSampleWithEffect g p
           | None => p
           end in
  machine p' = machine p ∧ samples p' = samples p
  ∧ effectsEnabled p' = effectsEnabled p
  ∧ length (cells p') = length (cells p)
  ∧ activeSampleSources p' = activeSampleSources q
  ∧ audioEngine p' = audioEngine q.
Proof.
  unfold changeGridCellEffect.
  destruct (cells p !! g) as [cell|] eqn:Hc; [|done].
  assert ((if mapHas g (activeSampleSources p) then stopSampleWithEffect g p else p)
          = stopSampleWithEffect g p) as ->.
  { unfold stopSampleWithEffect. by destruct (mapHas g (activeSampleSources p)). }
  destruct (stopSampleWithEffect_fields g p) as (S1 & S2 & S3 & S4 & _).
  cbv zeta in *. rewrite S3, Hc. cbn. rewrite length_insert. by rewrite S1, S2, S4.
Qed.

Lemma fold_stopSampleWithEffect_tracks (l : list (nat * Tracked)) p :
  tracks p → tracks (fold_left (fun q kv => stopSampleWithEffect kv.1 q) l p).
Proof.
  revert p. induction l as [|kv l IH]; intros p Ht; [done|].
  simpl. by apply IH, stopSampleWithEffect_tracks.
Qed.

Lemma fold_restart_tracks setup (l : list (nat * Tracked)) p :
  tracks p → tracks (fold_left (restart setup) l p).
Proof.
  revert p. induction l as [|kv l IH]; intros p Ht; [done|].
  simpl. by apply IH, startSampleWithEffect_tracks.
Qed.

Lemma calls_app cs1 cs2 e :
  Engine.calls (cs1 ++ cs2) e = Engine.calls cs2 (Engine.calls cs1 e).
Proof. unfold Engine.calls. apply fold_left_app. Qed.

Lemma fold_calls {A} (f : Performer → A → Performer) (l : list A) p :
  (∀ q x, ∃ cs, audioEngine (f q x) = Engine.calls cs (audioEngine q)) →
  ∃ cs, audioEngine (fold_left f l p) = Engine.calls cs (audioEngine p).
Proof.
  intros Hf. revert p. induction l as [|x l IH]; intros p; [by exists []|].
  simpl. destruct (IH (f p x)) as [cs2 H2]. destruct (Hf p x) as [cs1 H1].
  exists (cs1 ++ cs2). by rewrite H2, H1, calls_app.
Qed.

Lemma fold_stop_voices (l : list (nat * Tracked)) e z :
  is_Some (Engine.activeLoopedSources
             (fold_left (fun e kv => Engine.stopLoopedSampleWithEffect (Z.of_nat kv.1) e)
                        l e) !! z)
  ↔ is_Some (Engine.activeLoopedSources e !! z)
    ∧ ∀ kv, kv ∈ l → z ≠ Z.of_nat kv.1.
Proof.
  revert e. induction l as [|kv l IH]; intros e.
  - simpl. split; [|tauto]. intros H. split; [done|].
    intros kv Hkv. by apply elem_of_nil in Hkv.
  - simpl. rewrite IH, EngineFacts.stopLoopedSampleWithEffect_voices.
    rewrite lookup_delete_is_Some. split.
    + intros [[Hne Hs] Hl]. split; [done|]. intros kv' Hin.
      apply elem_of_cons in Hin as [->|Hin]; [done|by apply Hl].
    + intros [Hs Hl]. split; [split; [|done]|].
      * intros Heq. apply (Hl kv); [apply elem_of_cons; by left|done].
      * intros kv' Hin. apply Hl. apply elem_of_cons. by right.
Qed.

Lemma clearAllActiveEffectsAndSamples_fields p :
  let p' := clearAllActiveEffectsAndSamples p in
  activeSampleSources p' = []
  ∧ audioEngine p'
    = fold_left (fun e kv => Engine.stopLoopedSampleWithEffect (Z.of_nat kv.1) e)
                (activeSampleSources p) (audioEngine p)
  ∧ samples p' = samples p ∧ effectsEnabled p' = effectsEnabled p
  ∧ cells p' = map (setVisual false Blank) (cells p)
  ∧ machine p' = App.clearAllActiveEffectsAndSamples (machine p).
Proof. done. Qed.

Lemma clearAllActiveEffectsAndSamples_silent p :
  tracks p →
  Engine.activeLoopedSources (audioEngine (clearAllActiveEffectsAndSamples p)) = ∅.
Proof.
  intros (_ & Hdom & _).
  destruct (clearAllActiveEffectsAndSamples_fields p) as (_ & -> & _).
  apply map_empty. intros z. apply eq_None_not_Some. rewrite fold_stop_voices.
  intros [Hs Hl]. apply Hdom in Hs as (g & -> & Hhas).
  apply mapHas_keys, list_elem_of_fmap in Hhas as ([g' t] & Hg & Hin).
  simpl in Hg. subst g'. by apply (Hl (g, t)).
Qed.

Lemma tracks_nothing p :
  activeSampleSources p = [] →
  Engine.activeLoopedSources (audioEngine p) = ∅ → tracks p.
Proof.
  intros Hm He. unfold tracks. rewrite Hm, He. split; [constructor|]. split.
  - intros z. rewrite lookup_empty. split; [by intros []|].
    by intros (g & _ & Hhas).
  - intros g t v Hget. done.
Qed.

Lemma switchMode_tracks mode p : tracks p → tracks (switchMode mode p).
Proof.
  intros Ht. apply tracks_nothing; [done|].
  by apply (clearAllActiveEffectsAndSamples_silent p).
Qed.

Lemma switchMode_calls mode p :
  ∃ cs, audioEngine (switchMode mode p) = Engine.calls cs (audioEngine p).
Proof.
  exists (map (fun kv : nat * Tracked => Engine.Stop (Z.of_nat kv.1))
              (activeSampleSources p)).
  unfold switchMode. cbn [audioEngine withMachine].
  destruct (clearAllActiveEffectsAndSamples_fields p) as (_ & -> & _).
  unfold Engine.calls. generalize (audioEngine p).
  induction (activeSampleSources p) as [|kv l IH]; intros e; [done|].
  simpl. apply IH.
Qed.

Lemma updateSamplesList_fields p :
  let p' := updateSamplesList p in
  activeSampleSources p' = activeSampleSources p
  ∧ audioEngine p' = audioEngine p
  ∧ machine p' = machine p ∧ samples p' = samples p
  ∧ effectsEnabled p' = effectsEnabled p
  ∧ length (cells p') = length (cells p).
Proof.
  unfold updateSamplesList. destruct (samples p) eqn:Hs; [done|].
  unfold updateGridSampleTitles. cbn. by rewrite length_imap.
Qed.

Lemma op_tracks o p : tracks p → tracks (op p o).
Proof.
  intros Ht. destruct o as [g isPressed setup|g newEffect|setup|mode|s|sampleId|];
    cbn [op].
  - by apply handleGridCellPressureChange_tracks.
  - destruct (changeGridCellEffect_fields g newEffect p)
      as (_ & _ & _ & _ & Hm & He). cbv zeta in Hm, He.
    eapply tracks_voices; [exact Hm|by rewrite He|].
    destruct (cells p !! g); [by apply stopSampleWithEffect_tracks|done].
  - unfold toggleEffects.
    apply fold_restart_tracks, fold_stopSampleWithEffect_tracks.
    by apply (tracks_voices p).
  - by apply switchMode_tracks.
  - unfold sampleRecorded.
    destruct (updateSamplesList_fields (withSamples (samples p ++ [s]) p))
      as (Hm & He & _).
    by apply (tracks_voices p); [| rewrite He|].
  - unfold deleteSample.
    match goal with
    | |- tracks (updateSamplesList ?q) =>
        destruct (updateSamplesList_fields q) as (Hm & He & _)
    end.
    by apply (tracks_voices p); [| rewrite He|].
  - unfold clearSamples.
    destruct (updateSamplesList_fields (withSamples [] p)) as (Hm & He & _).
    by apply (tracks_voices p); [| rewrite He|].
Qed.

Lemma op_calls o p : ∃ cs, audioEngine (op p o) = Engine.calls cs (audioEngine p).
Proof.
  destruct o as [g isPressed setup|g newEffect|setup|mode|s|sampleId|]; cbn [op].
  - apply handleGridCellPressureChange_calls.
  - destruct (changeGridCellEffect_fields g newEffect p)
      as (_ & _ & _ & _ & _ & He). cbv zeta in He. rewrite He.
    destruct (cells p !! g); [apply stopSampleWithEffect_calls|by exists []].
  - unfold toggleEffects.
    destruct (fold_calls (restart setup)
                (activeSampleSources (withEffectsEnabled (negb (effectsEnabled p)) p))
                (fold_left (fun q kv => stopSampleWithEffect kv.1 q)
                   (activeSampleSources
                      (withEffectsEnabled (negb (effectsEnabled p)) p))
                   (withEffectsEnabled (negb (effectsEnabled p)) p)))
      as [cs2 H2].
    { intros q kv. apply startSampleWithEffect_calls. }
    destruct (fold_calls (fun q (kv : nat * Tracked) => stopSampleWithEffect kv.1 q)
                (activeSampleSources (withEffectsEnabled (negb (effectsEnabled p)) p))
                (withEffectsEnabled (negb (effectsEnabled p)) p))
      as [cs1 H1].
    { intros q kv. apply stopSampleWithEffect_calls. }
    exists (cs1 ++ cs2). by rewrite H2, H1, calls_app.
  - apply switchMode_calls.
  - exists []. unfold sampleRecorded.
    by destruct (updateSamplesList_fields (withSamples (samples p ++ [s]) p))
      as (_ & -> & _).
  - exists []. unfold deleteSample.
    match goal with
    | |- audioEngine (updateSamplesList ?q) = _ =>
        by destruct (updateSamplesList_fields q) as (_ & -> & _)
    end.
  - exists []. unfold clearSamples.
    by destruct (updateSamplesList_fields (withSamples [] p)) as (_ & -> & _).
Qed.

Lemma ops_tracks os p : tracks p → tracks (ops os p).
Proof.
  unfold ops. revert p. induction os as [|o os IH]; intros p Ht; [done|].
  simpl. by apply IH, op_tracks.
Qed.

Lemma ops_calls os p : ∃ cs, audioEngine (ops os p) = Engine.calls cs (audioEngine p).
Proof. apply fold_calls. intros q o. apply op_calls. Qed.

Lemma loaded_tracks effects : tracks (loaded effects).
Proof. by apply tracks_nothing. Qed.

(** X19.  However the player is driven (changes of pressure on the cells
    with starts that complete or fail, changes of effect, the effects
    switch, mode switches, samples recorded and deleted), each operation
    running to its end before the next, what the application tracks is
    what the engine plays: the cells in [activeSampleSources] are the
    regions with a registered voice, the engine has been driven by start
    and stop calls only, and the sources that play are those of the
    registered voices.  So the release of a cell in PERFORM mode always
    silences it: the cell is no longer tracked, the engine has no voice
    for it and no source plays for it. *)
Theorem player_tracks_engine (os : list Op) (effects : list string)
    (setup : Engine.Setup) (g : nat) :
  let p := ops os (loaded effects) in
  tracks p
  ∧ (∃ cs, audioEngine p = Engine.calls cs Engine.initial)
  ∧ Engine.voicesPlaying (audioEngine p)
  ∧ (App.currentMode (machine p) = App.PERFORM → is_Some (cells p !! g) →
     let p' := handleGridCellPressureChange setup g false p in
     mapHas g (activeSampleSources p') = false
     ∧ Engine.activeLoopedSources (audioEngine p') !! Z.of_nat g = None
     ∧ ∀ id, Engine.playing (audioEngine p') !! id ≠ Some (Z.of_nat g)).
Proof.
  intros p.
  assert (∀ os, Engine.voicesPlaying (audioEngine (ops os (loaded effects))))
    as Hplaying.
  { intros os'. destruct (ops_calls os' (loaded effects)) as [cs ->].
    apply EngineFacts.calls_voicesPlaying, EngineFacts.initial_voicesPlaying. }
  split; [apply ops_tracks, loaded_tracks|].
  split; [apply ops_calls|]. split; [apply Hplaying|].
  intros Hmode [cell Hcell] p'.
  assert (p' = ops (os ++ [PressureChange g false setup]) (loaded effects)) as Hp'.
  { unfold ops. by rewrite fold_left_app. }
  assert (mapHas g (activeSampleSources p') = false) as Hno.
  { subst p'.
    destruct (handleGridCellPressureChange_cases setup g false p)
      as (_ & _ & _ & _ & -> & _).
    rewrite Hcell, Hmode. apply stopSampleWithEffect_fields. }
  assert (tracks p') as Ht' by (rewrite Hp'; apply ops_tracks, loaded_tracks).
  pose proof (tracks_absent p' g Ht' Hno) as Hvoice.
  split; [done|]. split; [done|].
  intros id Hid.
  assert (Engine.voicesPlaying (audioEngine p')) as (_ & Hsrc & _)
    by (rewrite Hp'; apply Hplaying).
  destruct (Hsrc id _ Hid) as (v & Hv & _). congruence.
Qed.

Lemma player_tracks_engine_witness :
  let p := ops [SampleRecorded {| id := 1; blob := Some 0%nat |};
                SwitchMode App.PERFORM;
                PressureChange 4 true Engine.Completes]
             (loaded (replicate 9 "vibrato"%string)) in
  mapHas 4 (activeSampleSources p) = true
  ∧ let p' := handleGridCellPressureChange Engine.Completes 4 false p in
    mapHas 4 (activeSampleSources p') = false
    ∧ Engine.activeLoopedSources (audioEngine p') !! 4 = None.
Proof.
  intros p. split; [vm_compute; reflexivity|].
  destruct (player_tracks_engine
              [SampleRecorded {| id := 1; blob := Some 0%nat |};
               SwitchMode App.PERFORM;
               PressureChange 4 true Engine.Completes]
              (replicate 9 "vibrato"%string) Engine.Completes 4)
    as (_ & _ & _ & Hrelease).
  destruct Hrelease as (Hno & Hvoice & _).
  - vm_compute. reflexivity.
  - eexists. vm_compute. reflexivity.
  - split; [exact Hno|exact Hvoice].
Defined.

(** *** Samples on the grid *)

Lemma sampleIndexFor_range n g :
  (0 < n)%nat → (g < 9)%nat → (sampleIndexFor n g < n)%nat.
Proof.
  intros Hn Hg. unfold sampleIndexFor.
  destruct (Nat.leb_spec 9 n); [lia|].
  destruct (Nat.ltb_spec 3 n).
  - destruct (Nat.ltb_spec g n); [done|]. apply Nat.mod_upper_bound. lia.
  - rewrite Nat.max_r by lia. apply Nat.mod_upper_bound. lia.
Qed.

Lemma sampleIndexFor_reaches n i :
  (i < n)%nat → (i < 9)%nat →
  ∃ g, (g < 9)%nat ∧ sampleIndexFor n g = i.
Proof.
  intros Hn Hi. unfold sampleIndexFor.
  destruct (Nat.leb_spec 9 n); [by exists i|].
  destruct (Nat.ltb_spec 3 n).
  - exists i. split; [done|]. destruct (Nat.ltb_spec i n); [done|lia].
  - exists (3 * i)%nat. split; [lia|].
    rewrite Nat.max_r by lia.
    rewrite Nat.mul_comm, Nat.div_mul by lia. apply Nat.mod_small. lia.
Qed.

(** The index a cell is given, case by case. *)
Lemma sampleIndexFor_cases n g :
  (0 < n)%nat → (g < 9)%nat →
  (n ≤ 3 → sampleIndexFor n g = (g / 3) mod n)%nat
  ∧ (3 < n → g < n → sampleIndexFor n g = g)%nat
  ∧ (3 < n → n ≤ g → sampleIndexFor n g = g mod n)%nat.
Proof.
  intros Hn Hg. unfold sampleIndexFor.
  destruct (Nat.leb_spec 9 n); [repeat split; lia|].
  destruct (Nat.ltb_spec 3 n).
  - destruct (Nat.ltb_spec g n); repeat split; lia.
  - rewrite Nat.max_r by lia. repeat split; lia.
Qed.

(** X20.  Whenever the list of samples is shown and is not empty, every cell
    of the grid is given a sample that exists: with three samples or fewer
    the cells of a row share one, row r taking sample r modulo the number
    of samples; with more than three, cell g takes sample g when there is
    one and sample g modulo the number of samples otherwise.  Each of the
    first nine samples is given to at least one cell.  With no sample at
    all the cells keep the index they had. *)
Theorem updateSamplesList_assigns (p : Performer) :
  length (cells p) = 9%nat →
  let p' := updateSamplesList p in
  let n := length (samples p) in
  (samples p ≠ [] →
   (∀ g cell, cells p' !! g = Some cell →
      (n ≤ 3 → sample cell = (g / 3) mod n)%nat
      ∧ (3 < n → g < n → sample cell = g)%nat
      ∧ (3 < n → n ≤ g → sample cell = g mod n)%nat
      ∧ is_Some (samples p' !! sample cell))
   ∧ (∀ i, (i < n)%nat → (i < 9)%nat →
        ∃ g cell, cells p' !! g = Some cell ∧ sample cell = i))
  ∧ (samples p = [] → p' = p).
Proof.
  intros Hcells p' n. subst p' n. unfold updateSamplesList. split.
  - intros Hne. destruct (samples p) as [|s ss] eqn:Hs; [done|].
    unfold updateGridSampleTitles. cbn [cells samples withCells]. rewrite Hs.
    assert (0 < length (s :: ss))%nat as Hpos by (simpl; lia).
    split.
    + intros g cell Hg. rewrite list_lookup_imap in Hg.
      destruct (cells p !! g) as [cell0|] eqn:Hc; [|done].
      simpl in Hg. injection Hg as <-. cbn [sample setSample].
      assert (g < 9)%nat as Hg9 by (apply lookup_lt_Some in Hc; lia).
      destruct (sampleIndexFor_cases _ g Hpos Hg9) as (H1 & H2 & H3).
      split; [exact H1|]. split; [exact H2|]. split; [exact H3|].
      apply lookup_lt_is_Some. by apply sampleIndexFor_range.
    + intros i Hi Hi9.
      destruct (sampleIndexFor_reaches _ i Hi Hi9) as (g & Hg & Hidx).
      destruct (lookup_lt_is_Some_2 (cells p) g ltac:(lia)) as [cell0 Hc].
      exists g, (setSample (sampleIndexFor (length (s :: ss)) g) cell0).
      split; [|done]. rewrite list_lookup_imap, Hc. done.
  - by intros ->.
Qed.

Lemma updateSamplesList_assigns_witness :
  let p := withSamples [ {| id := 1; blob := Some 0%nat |};
                         {| id := 2; blob := Some 1%nat |};
                         {| id := 3; blob := Some 2%nat |} ]
             (loaded (replicate 9 "ringmod"%string)) in
  (∀ cell, cells (updateSamplesList p) !! 1%nat = Some cell → sample cell = 0%nat)
  ∧ (∀ cell, cells (updateSamplesList p) !! 4%nat = Some cell → sample cell = 1%nat)
  ∧ ∃ g cell, cells (updateSamplesList p) !! g = Some cell ∧ sample cell = 2%nat.
Proof.
  intros p.
  destruct (updateSamplesList_assigns p eq_refl) as [Hassign _].
  destruct Hassign as [Hindex Hreach]; [done|].
  split; [|split].
  - intros cell Hc. destruct (Hindex _ _ Hc) as (H3 & _). apply H3. simpl. lia.
  - intros cell Hc. destruct (Hindex _ _ Hc) as (H3 & _). apply H3. simpl. lia.
  - apply (Hreach 2%nat); simpl; lia.
Defined.

(** *** What the cells show *)

Lemma updateGridCellVisual_cell g isActive isError p cell :
  cells p !! g = Some cell →
  cells (updateGridCellVisual g isActive isError p) !! g
  = Some (if isActive
          then setVisual true (if isError then NO_SAMPLE else PLAYING) cell
          else setVisual false Blank cell).
Proof.
  intros Hc. unfold updateGridCellVisual. rewrite Hc. cbn [cells withCells].
  rewrite list_lookup_insert_eq; [done|]. by apply lookup_lt_Some in Hc.
Qed.

Lemma updateGridCellVisual_present g g' isActive isError p :
  is_Some (cells p !! g') →
  is_Some (cells (updateGridCellVisual g isActive isError p) !! g').
Proof.
  intros Hc. apply lookup_lt_is_Some.
  destruct (updateGridCellVisual_fields g isActive isError p)
    as (_ & _ & _ & _ & _ & ->).
  by apply lookup_lt_is_Some.
Qed.

(** X21.  A cell shows PLAYING as soon as a press on it has been handled,
    also when nothing has been started: in RECORD mode, or when the cell
    has no sample, where the NO SAMPLE text set just before is
    overwritten, the engine and the map are untouched and no start is
    waiting. *)
Theorem pressed_cell_shows_playing (p : Performer) (g : nat) (cell : Cell) :
  cells p !! g = Some cell →
  let r := handleGridCellPressureChangeBegin g true p in
  (∃ cell', cells r.1 !! g = Some cell'
     ∧ status cell' = PLAYING ∧ active cell' = true)
  ∧ (App.currentMode (machine p) = App.RECORD
     ∨ samples p !! sample cell ≫= blob = None →
     r.2 = None ∧ audioEngine r.1 = audioEngine p
     ∧ activeSampleSources r.1 = activeSampleSources p).
Proof.
  intros Hc r. subst r. unfold handleGridCellPressureChangeBegin. rewrite Hc.
  set (r1 := match App.currentMode (machine p) with
             | App.PERFORM =>
                 startSampleWithEffectBegin g (sample cell) (effect cell) p
             | App.RECORD => (p, None)
             end).
  assert (is_Some (cells r1.1 !! g)) as [cell1 Hc1].
  { apply lookup_lt_is_Some. subst r1.
    destruct (App.currentMode (machine p)); [by apply lookup_lt_is_Some; eauto|].
    destruct (startSampleWithEffectBegin_fields g (sample cell) (effect cell) p)
      as (_ & _ & _ & -> & _).
    apply lookup_lt_is_Some. eauto. }
  destruct r1 as [p1 starting] eqn:Hr1. cbn [fst snd] in *. split.
  - eexists. split; [by apply updateGridCellVisual_cell|]. done.
  - intros Hnothing.
    destruct (updateGridCellVisual_fields g true false p1) as (-> & -> & _).
    subst r1. destruct (App.currentMode (machine p)) eqn:Hmode.
    + by injection Hr1 as <- <-.
    + destruct Hnothing as [|Hnone]; [done|].
      unfold startSampleWithEffectBegin in Hr1. rewrite Hnone in Hr1.
      injection Hr1 as <- <-.
      by destruct (updateGridCellVisual_fields g true true p) as (-> & -> & _).
Qed.

Lemma pressed_cell_shows_playing_witness :
  let p := switchMode App.PERFORM (loaded (replicate 9 "ringmod"%string)) in
  let r := handleGridCellPressureChangeBegin 0 true p in
  (∃ cell', cells r.1 !! 0%nat = Some cell' ∧ status cell' = PLAYING)
  ∧ r.2 = None ∧ audioEngine r.1 = Engine.initial.
Proof.
  intros p r.
  destruct (pressed_cell_shows_playing p 0
              {| sample := 0; effect := "ringmod"; active := false; status := Blank |}
              eq_refl) as [(cell' & Hc & Hs & _) Hnothing].
  split; [by exists cell'|].
  destruct Hnothing as (H1 & H2 & _); [by right|]. split; [exact H1|exact H2].
Defined.

(** *** A release while the sample is decoded *)

(** X22.  A release that is handled while the start of the cell waits for
    its sample to be decoded is lost: it finds nothing to stop, and when
    the start completes the voice is registered, tracked, shown as PLAYING
    and its source plays, although the last change of pressure on the cell
    was a release. *)
Theorem release_while_decoding_is_lost (p : Performer) (g : nat) (cell : Cell)
    (b : nat) (setup : Engine.Setup) :
  tracks p → App.currentMode (machine p) = App.PERFORM →
  cells p !! g = Some cell → samples p !! sample cell ≫= blob = Some b →
  mapHas g (activeSampleSources p) = false →
  let r := handleGridCellPressureChangeBegin g true p in
  ∃ c, r.2 = Some c
    ∧ let p2 := handleGridCellPressureChange setup g false r.1 in
      let p3 := startSampleWithEffectEnd c Engine.Completes p2 in
      activeSampleSources p2 = activeSampleSources p
      ∧ audioEngine p2 = audioEngine p
      ∧ mapHas g (activeSampleSources p3) = true
      ∧ (∃ v, Engine.activeLoopedSources (audioEngine p3) !! Z.of_nat g = Some v
           ∧ Engine.playing (audioEngine p3) !! Engine.source v = Some (Z.of_nat g))
      ∧ ∃ cell', cells p3 !! g = Some cell' ∧ status cell' = PLAYING.
Proof.
  intros Ht Hmode Hc Hs Hno r. subst r.
  pose proof (tracks_absent p g Ht Hno) as Hfree.
  unfold handleGridCellPressureChangeBegin. rewrite Hc, Hmode.
  unfold startSampleWithEffectBegin. rewrite Hs, Hno.
  rewrite EngineFacts.startLoopedSampleWithEffectBegin_stop.
  rewrite (EngineFacts.stopLoopedSampleWithEffect_absent _ _ Hfree).
  cbn [fst snd]. eexists. split; [done|].
  set (p1 := updateGridCellVisual g true false (withEngine (audioEngine p) p)).
  destruct (updateGridCellVisual_fields g true false (withEngine (audioEngine p) p))
    as (H1 & H2 & H3 & H4 & H5 & H6). fold p1 in H1, H2, H3, H4, H5, H6.
  cbn [activeSampleSources audioEngine machine withEngine] in H1, H2, H3.
  assert (is_Some (cells p1 !! g)) as [cell1 Hc1].
  { apply updateGridCellVisual_present. cbn [cells withEngine]. eauto. }
  set (p2 := handleGridCellPressureChange setup g false p1).
  set (c := {| gridIndex := g;
               entry := {| sampleIndex := sample cell; effectName := effect cell |};
               passed := if effectsEnabled p then Some (effect cell) else None |}).
  set (p3 := startSampleWithEffectEnd c Engine.Completes p2).
  destruct (handleGridCellPressureChange_cases setup g false p1)
    as (G1 & G2 & G3 & G4 & G5 & G6).
  fold p2 in G1, G2, G3, G4, G5, G6. cbv zeta in G5, G6.
  rewrite Hc1, H3, Hmode in G5, G6.
  unfold stopSampleWithEffect in G5, G6. rewrite H1, Hno in G5, G6.
  rewrite H1 in G5. rewrite H2 in G6.
  split; [done|]. split; [done|].
  destruct (startSampleWithEffectEnd_fields c Engine.Completes p2)
    as (_ & _ & _ & F4 & F5 & F6).
  fold p3 in F4, F5, F6. cbv zeta in F5, F6.
  destruct (EngineFacts.startLoopedSampleWithEffectEnd_voices
              (Z.of_nat (gridIndex c)) Engine.Completes (passed c) 1.0
              (audioEngine p2))
    as (Hok & voice & _ & Hsrc & Hvoices & Hplaying & _).
  rewrite Hok in F5, F6.
  split; [|split].
  - rewrite F5, G5, mapSet_new by done. by rewrite mapHas_snoc, Nat.eqb_refl, orb_true_r.
  - exists voice. rewrite F6, Hvoices, Hplaying, Hsrc.
    split; apply lookup_insert_eq.
  - assert (is_Some (cells p2 !! g)) as [cell2 Hc2].
    { apply lookup_lt_is_Some. rewrite G4. apply lookup_lt_is_Some. eauto. }
    subst p3. unfold startSampleWithEffectEnd.
    destruct (Engine.startLoopedSampleWithEffectEnd _ _ _ _ _) as [e ok].
    cbn [snd] in Hok. subst ok.
    eexists. split; [apply updateGridCellVisual_cell; exact Hc2|done].
Qed.

Lemma release_while_decoding_is_lost_witness :
  let p := ops [SampleRecorded {| id := 1; blob := Some 0%nat |};
                SwitchMode App.PERFORM]
             (loaded (replicate 9 "vibrato"%string)) in
  let r := handleGridCellPressureChangeBegin 4 true p in
  ∃ c, r.2 = Some c
    ∧ mapHas 4 (activeSampleSources
                  (startSampleWithEffectEnd c Engine.Completes
                     (handleGridCellPressureChange Engine.Completes 4 false r.1)))
      = true.
Proof.
  intros p r.
  destruct (release_while_decoding_is_lost p 4
              {| sample := 0; effect := "vibrato"; active := false; status := Blank |}
              0%nat Engine.Completes)
    as (c & Hc & _ & _ & Hhas & _).
  - apply ops_tracks, loaded_tracks.
  - reflexivity.
  - reflexivity.
  - reflexivity.
  - reflexivity.
  - exists c. split; [exact Hc|exact Hhas].
Defined.

(** *** Mode switches and the effects switch *)

Lemma fold_stop_invariants (l : list (nat * Tracked)) e :
  Engine.wellFormed e → Engine.consistent e → Engine.voicesPlaying e →
  let e' := fold_left
              (fun e kv => Engine.stopLoopedSampleWithEffect (Z.of_nat kv.1) e) l e in
  Engine.wellFormed e' ∧ Engine.consistent e' ∧ Engine.voicesPlaying e'
  ∧ ∀ name, is_Some (Engine.webAudioEffects e !! name) →
            is_Some (Engine.webAudioEffects e' !! name).
Proof.
  revert e. induction l as [|kv l IH]; intros e Hw Hc Hv; [done|].
  simpl.
  destruct (IH (Engine.stopLoopedSampleWithEffect (Z.of_nat kv.1) e))
    as (Hw' & Hc' & Hv' & Hreg').
  - by apply EngineFacts.stopLoopedSampleWithEffect_wellFormed.
  - by apply EngineFacts.stopLoopedSampleWithEffect_consistent.
  - by apply EngineFacts.stopLoopedSampleWithEffect_voicesPlaying.
  - split; [done|]. split; [done|]. split; [done|].
    intros name Hname. apply Hreg'.
    by apply EngineFacts.stopLoopedSampleWithEffect_registered.
Qed.

(** X23.  A mode switch silences the player: no cell is tracked, the engine
    has no voice and no source plays, every effect is off and off the bus,
    and every cell is shown idle. *)
Theorem switchMode_silences (mode : App.Mode) (p : Performer) (name : string) :
  tracks p → Engine.wellFormed (audioEngine p) →
  Engine.consistent (audioEngine p) → Engine.voicesPlaying (audioEngine p) →
  let p' := switchMode mode p in
  activeSampleSources p' = []
  ∧ Engine.activeLoopedSources (audioEngine p') = ∅
  ∧ Engine.playing (audioEngine p') = ∅
  ∧ (is_Some (Engine.webAudioEffects (audioEngine p) !! name) →
     Engine.isEffectActive name (audioEngine p') = false
     ∧ Engine.disconnected name (audioEngine p'))
  ∧ Forall (fun cell => active cell = false ∧ status cell = Blank) (cells p')
  ∧ machine p' = App.switchMode mode (machine p).
Proof.
  intros Ht Hw Hc Hv p'.
  pose proof (clearAllActiveEffectsAndSamples_silent p Ht) as Hsilent.
  destruct (clearAllActiveEffectsAndSamples_fields p) as (_ & He & _).
  destruct (fold_stop_invariants (activeSampleSources p) (audioEngine p) Hw Hc Hv)
    as (Hw' & Hc' & Hv' & Hreg').
  rewrite <- He in Hw', Hc', Hv', Hreg'.
  change (audioEngine (clearAllActiveEffectsAndSamples p))
    with (audioEngine p') in *.
  split; [done|]. split; [done|]. split; [|split; [|split; [|done]]].
  - apply map_empty. intros id.
    destruct (Engine.playing (audioEngine p') !! id) as [z|] eqn:Hid; [|done].
    destruct Hv' as (_ & Hsrc & _). destruct (Hsrc id z Hid) as (v & Hvoice & _).
    rewrite Hsilent in Hvoice. by rewrite lookup_empty in Hvoice.
  - intros Hname.
    destruct (EngineFacts.isEffectActive_consistent name (audioEngine p') Hc'
                (Hreg' name Hname)) as (Hused & _ & Hoff).
    assert (Engine.isEffectActive name (audioEngine p') = false) as Hinactive.
    { destruct (Engine.isEffectActive name (audioEngine p')); [|done].
      destruct (proj1 Hused eq_refl) as [z Hz].
      unfold Engine.voiceName in Hz. rewrite Hsilent, lookup_empty in Hz. done. }
    split; [done|]. by apply Hoff.
  - subst p'. unfold switchMode, clearAllActiveEffectsAndSamples.
    cbn [cells withMachine withCells]. apply SerialFacts.Forall_map_all. done.
Qed.

Lemma switchMode_silences_witness :
  let p := ops [SampleRecorded {| id := 1; blob := Some 0%nat |};
                SwitchMode App.PERFORM;
                PressureChange 4 true Engine.Completes]
             (loaded (replicate 9 "vibrato"%string)) in
  Engine.isEffectActive "vibrato" (audioEngine p) = true
  ∧ Engine.isEffectActive "vibrato" (audioEngine (switchMode App.RECORD p)) = false
  ∧ Engine.playing (audioEngine (switchMode App.RECORD p)) = ∅.
Proof.
  intros p. split; [vm_compute; reflexivity|].
  assert (audioEngine p
          = Engine.voiceOps [Engine.StartVoice 4 (Some "vibrato"%string) 1]
              Engine.initial) as He by (vm_compute; reflexivity).
  destruct (EngineFacts.voiceOps_invariant
              [Engine.StartVoice 4 (Some "vibrato"%string) 1] Engine.initial
              EngineFacts.initial_wellFormed EngineFacts.initial_consistent)
    as [Hw Hc].
  destruct (switchMode_silences App.RECORD p "vibrato")
    as (_ & _ & Hplaying & Heffect & _).
  - apply ops_tracks, loaded_tracks.
  - by rewrite He.
  - by rewrite He.
  - rewrite He. apply (EngineFacts.calls_voicesPlaying
                         [Engine.Start 4 Engine.Completes (Some "vibrato"%string) 1]).
    apply EngineFacts.initial_voicesPlaying.
  - split; [|exact Hplaying]. apply Heffect. eexists. vm_compute. reflexivity.
Defined.



Lemma startLoopedSampleWithEffect_completes_ok z name volume e :
  (Engine.startLoopedSampleWithEffect z Engine.Completes name volume e).2 = true.
Proof. by rewrite EngineFacts.start_completes. Qed.




(** *** From a frame to the voices *)

Lemma updateGridCellVisual_samples g isActive isError p g' :
  sample <$> cells (updateGridCellVisual g isActive isError p) !! g'
  = sample <$> cells p !! g'.
Proof.
  unfold updateGridCellVisual. destruct (cells p !! g) as [cell|] eqn:Hc; [|done].
  cbn [cells withCells]. destruct (decide (g = g')) as [<-|Hne].
  - rewrite list_lookup_insert_eq by by apply lookup_lt_Some in Hc.
    rewrite Hc. by destruct isActive.
  - by rewrite list_lookup_insert_ne.
Qed.

Lemma startSampleWithEffectEnd_samples c setup p g' :
  sample <$> cells (startSampleWithEffectEnd c setup p) !! g'
  = sample <$> cells p !! g'.
Proof.
  unfold startSampleWithEffectEnd.
  destruct (Engine.startLoopedSampleWithEffectEnd _ _ _ _ _) as [e ok].
  destruct ok.
  - by rewrite updateGridCellVisual_samples.
  - cbn [cells withEngine]. by rewrite updateGridCellVisual_samples.
Qed.

Lemma handleGridCellPressureChange_samples setup g isPressed p g' :
  sample <$> cells (handleGridCellPressureChange setup g isPressed p) !! g'
  = sample <$> cells p !! g'.
Proof.
  unfold handleGridCellPressureChange, handleGridCellPressureChangeBegin.
  destruct (cells p !! g) as [cell|]; [|done].
  assert (∀ r : Performer * option Starting,
            (sample <$> cells r.1 !! g' = sample <$> cells p !! g') →
            sample <$> cells
              (match (let '(p1, starting) := r in
                      (updateGridCellVisual g isPressed false p1, starting)) with
               | (p1, Some c) => startSampleWithEffectEnd c setup p1
               | (p1, None) => p1
               end) !! g' = sample <$> cells p !! g') as Hgen.
  { intros [p1 [c|]] H1; cbn [fst] in H1.
    - by rewrite startSampleWithEffectEnd_samples, updateGridCellVisual_samples.
    - by rewrite updateGridCellVisual_samples. }
  apply Hgen.
  destruct (App.currentMode (machine p)); [done|].
  destruct isPressed.
  - unfold startSampleWithEffectBegin.
    destruct (samples p !! sample cell ≫= blob).
    + by destruct (mapHas g (activeSampleSources p)).
    + cbn [fst]. by rewrite updateGridCellVisual_samples.
  - cbn [fst]. by destruct (stopSampleWithEffect_fields g p) as (_ & _ & -> & _).
Qed.

Lemma handleGridCellPressureChange_playable setup g isPressed p :
  playable p → playable (handleGridCellPressureChange setup g isPressed p).
Proof.
  intros Hp g' cell' Hc'.
  destruct (handleGridCellPressureChange_cases setup g isPressed p)
    as (_ & -> & _).
  pose proof (handleGridCellPressureChange_samples setup g isPressed p g') as Hs.
  rewrite Hc' in Hs. simpl in Hs.
  destruct (cells p !! g') as [cell|] eqn:Hc; [|done].
  simpl in Hs. injection Hs as ->. by apply (Hp g').
Qed.

(** The map after a press with a sample and a start that completes, or a
    release. *)
Lemma handleGridCellPressureChange_has g isPressed p g' :
  tracks p → App.currentMode (machine p) = App.PERFORM → playable p →
  is_Some (cells p !! g) → mapHas g (activeSampleSources p) = negb isPressed →
  mapHas g' (activeSampleSources
               (handleGridCellPressureChange Engine.Completes g isPressed p))
  = if Nat.eqb g g' then isPressed else mapHas g' (activeSampleSources p).
Proof.
  intros Ht Hmode Hplay [cell Hc] Hhas.
  destruct (handleGridCellPressureChange_cases Engine.Completes g isPressed p)
    as (_ & _ & _ & _ & -> & _).
  rewrite Hc, Hmode. destruct isPressed; simpl in Hhas.
  - destruct (startSampleWithEffect_cases Engine.Completes g (sample cell)
                (effect cell) p)
      as (_ & _ & _ & _ & [(Hnone & _)|[(_ & Hyes & _)|(_ & _ & Hcase)]]).
    + destruct (Hplay g cell Hc) as [b Hb]. congruence.
    + congruence.
    + cbv zeta in Hcase. rewrite startLoopedSampleWithEffect_completes_ok in Hcase.
      destruct Hcase as [-> _]. rewrite mapSet_new by done.
      rewrite mapHas_snoc. destruct (Nat.eqb g g'); [apply orb_true_r|apply orb_false_r].
  - destruct (stopSampleWithEffect_fields g p) as (_ & _ & _ & _ & _ & ->).
    rewrite mapHas_mapDelete.
    destruct (Nat.eqb_spec g g') as [->|Hne].
    + rewrite Nat.eqb_refl. apply andb_false_r.
    + destruct (Nat.eqb_spec g' g); [congruence|apply andb_true_r].
Qed.

Lemma flat_map_ext_on {A B} (f f' : A → list B) (l : list A) :
  (∀ x, x ∈ l → f x = f' x) → flat_map f l = flat_map f' l.
Proof.
  induction l as [|x l IH]; intros H; [done|]. simpl.
  rewrite (H x) by (apply elem_of_cons; by left).
  rewrite IH; [done|]. intros y Hy. apply H. apply elem_of_cons. by right.
Qed.

Lemma dispatch_app setup evs1 evs2 p :
  dispatch setup (evs1 ++ evs2) p = dispatch setup evs2 (dispatch setup evs1 p).
Proof. unfold dispatch. apply fold_left_app. Qed.

(** The calls that bring the cells of [gs] to the target states. *)
Lemma dispatch_to_target (gs : list nat) (target : nat → bool)
    (pressure : nat → option Z) (p : Performer) :
  tracks p → App.currentMode (machine p) = App.PERFORM → playable p →
  NoDup gs → (∀ g, g ∈ gs → is_Some (cells p !! g)) →
  let evs :=
    flat_map (fun g => if bool_decide (target g = mapHas g (activeSampleSources p))
                       then []
                       else [App.GridCellPressureChange g (target g) (pressure g)])
             gs in
  let p' := dispatch Engine.Completes evs p in
  tracks p' ∧ machine p' = machine p
  ∧ ∀ g, mapHas g (activeSampleSources p')
         = if bool_decide (g ∈ gs) then target g
           else mapHas g (activeSampleSources p).
Proof.
  revert p. induction gs as [|g gs IH]; intros p Ht Hmode Hplay Hnd Hcells.
  - unfold dispatch. cbn [flat_map fold_left].
    split; [done|]. split; [done|]. intros g.
    rewrite bool_decide_eq_false_2; [done|apply not_elem_of_nil].
  - apply NoDup_cons in Hnd as [Hg Hnd].
    cbv zeta. cbn [flat_map]. rewrite dispatch_app.
    set (p1 := dispatch Engine.Completes
                 (if bool_decide (target g = mapHas g (activeSampleSources p))
                  then []
                  else [App.GridCellPressureChange g (target g) (pressure g)]) p).
    assert (tracks p1 ∧ machine p1 = machine p ∧ playable p1
            ∧ length (cells p1) = length (cells p)
            ∧ ∀ g', mapHas g' (activeSampleSources p1)
                    = if Nat.eqb g g' then target g
                      else mapHas g' (activeSampleSources p))
      as (Ht1 & Hm1 & Hplay1 & Hlen1 & Hhas1).
    { subst p1. case_bool_decide as Heq.
      - unfold dispatch. cbn [fold_left].
        split; [done|]. split; [done|]. split; [done|]. split; [done|].
        intros g'. destruct (Nat.eqb_spec g g') as [<-|]; done.
      - unfold dispatch. cbn [fold_left].
        destruct (handleGridCellPressureChange_cases Engine.Completes g (target g) p)
          as (Hm & _ & _ & Hlen & _).
        split; [by apply handleGridCellPressureChange_tracks|].
        split; [done|].
        split; [by apply handleGridCellPressureChange_playable|].
        split; [done|]. intros g'.
        apply handleGridCellPressureChange_has; try done.
        + apply Hcells. apply elem_of_cons. by left.
        + destruct (target g), (mapHas g (activeSampleSources p)); done. }
    assert (flat_map
              (fun g0 => if bool_decide (target g0 = mapHas g0 (activeSampleSources p))
                         then []
                         else [App.GridCellPressureChange g0 (target g0) (pressure g0)])
              gs
            = flat_map
                (fun g0 => if bool_decide (target g0 = mapHas g0 (activeSampleSources p1))
                           then []
                           else [App.GridCellPressureChange g0 (target g0)
                                   (pressure g0)])
                gs) as ->.
    { apply flat_map_ext_on. intros g' Hin. rewrite Hhas1.
      by destruct (Nat.eqb_spec g g') as [<-|]. }
    destruct (IH p1) as (Ht' & Hm' & Hhas'); try done.
    { by rewrite Hm1. }
    { intros g' Hin. apply lookup_lt_is_Some. rewrite Hlen1.
      apply lookup_lt_is_Some, Hcells. apply elem_of_cons. by right. }
    cbv zeta in *. split; [done|]. split; [by rewrite Hm'|].
    intros g'. rewrite Hhas', Hhas1.
    destruct (Nat.eqb_spec g g') as [<-|Hne].
    + rewrite (bool_decide_eq_false_2 (g ∈ gs)) by done.
      rewrite bool_decide_eq_true_2; [done|apply elem_of_cons; by left].
    + case_bool_decide as Hin.
      * rewrite bool_decide_eq_true_2; [done|apply elem_of_cons; by right].
      * rewrite bool_decide_eq_false_2; [done|].
        intros Hin'. apply elem_of_cons in Hin' as [->|]; done.
Qed.

Lemma transitions_to_target a frame (has : nat → bool) :
  (∀ g, (g < 9)%nat → has g = App.arrayGet false (App.gridCellPressureState a) g) →
  App.transitions a frame
  = flat_map (fun g =>
                if bool_decide (App.instantaneous (App.pressureThreshold a) frame g
                                = has g)
                then []
                else [App.GridCellPressureChange g
                        (App.instantaneous (App.pressureThreshold a) frame g)
                        (match App.gridRegions !! g with
                         | Some region => App.regionMax frame region
                         | None => None
                         end)])
             (seq 0 9).
Proof.
  intros Hhas. unfold App.transitions. apply flat_map_ext_on. intros g Hg.
  apply elem_of_seq in Hg. rewrite Hhas by lia.
  destruct (App.gridRegions !! g) as [region|] eqn:Hr; [done|].
  apply lookup_ge_None_1 in Hr. simpl in Hr. lia.
Qed.

(** X25.  From a frame to the voices: when the cells that play are the
    regions committed as pressed, every cell has a sample and the starts
    complete, a frame in PERFORM mode followed by a full debounce window
    without another frame leaves exactly the regions the frame shows as
    pressed committed, tracked and with a voice in the engine. *)
Theorem frame_plays_pressed_regions (p : Performer) (frame : list Z) (t : Z) :
  tracks p → agrees p → playable p → length (cells p) = 9%nat →
  App.wellFormed (machine p) → App.currentMode (machine p) = App.PERFORM →
  App.now (machine p) + App.pressureDebounceMs (machine p) <= t →
  let p' := advance Engine.Completes t (handleSerialData frame p) in
  let pressed := App.instantaneous (App.pressureThreshold (machine p)) frame in
  tracks p' ∧ agrees p'
  ∧ ∀ g, (g < 9)%nat →
      App.arrayGet false (App.gridCellPressureState (machine p')) g = pressed g
      ∧ mapHas g (activeSampleSources p') = pressed g
      ∧ (is_Some (Engine.activeLoopedSources (audioEngine p') !! Z.of_nat g)
         ↔ pressed g = true).
Proof.
  intros Ht Hagree Hplay Hcells Hwf Hmode Hlater p' pressed.
  unfold pressed. clear pressed.
  set (pressed := App.instantaneous (App.pressureThreshold (machine p)) frame).
  destruct (AppFacts.advance_after_frame frame t (machine p) Hwf Hmode Hlater)
    as (Hstates & Hevents & Hwf' & Hmode').
  set (m' := App.advance t (App.handleSerialData frame (machine p))) in *.
  assert (App.events (App.handleSerialData frame (machine p))
          = App.events (machine p)) as Hev1.
  { by destruct (AppFacts.performFrame_spec frame (machine p) Hwf Hmode)
      as (_ & _ & _ & _ & -> & _). }
  subst p'. unfold advance, handleSerialData. cbn [machine withMachine]. fold m'.
  rewrite Hev1, Hevents, drop_app_length.
  rewrite (transitions_to_target (machine p) frame
             (fun g => mapHas g (activeSampleSources p))) by exact Hagree.
  fold pressed.
  destruct (dispatch_to_target (seq 0 9) pressed
              (fun g => match App.gridRegions !! g with
                        | Some region => App.regionMax frame region
                        | None => None
                        end)
              (withMachine m' (withMachine (App.handleSerialData frame (machine p)) p)))
    as (Ht' & Hm' & Hhas'); try done.
  { apply NoDup_seq. }
  { intros g Hg. apply elem_of_seq in Hg. apply lookup_lt_is_Some.
    cbn [cells withMachine]. lia. }
  cbv zeta in Ht', Hm', Hhas'.
  cbn [activeSampleSources machine withMachine] in Ht', Hm', Hhas'.
  cbn [activeSampleSources withMachine].
  assert (∀ g, (g < 9)%nat →
            mapHas g (activeSampleSources
                        (dispatch Engine.Completes
                           (flat_map
                              (fun g0 =>
                                 if bool_decide
                                      (pressed g0 = mapHas g0 (activeSampleSources p))
                                 then []
                                 else [App.GridCellPressureChange g0 (pressed g0)
                                         match App.gridRegions !! g0 with
                                         | Some region => App.regionMax frame region
                                         | None => None
                                         end])
                              (seq 0 9))
                           (withMachine m'
                              (withMachine (App.handleSerialData frame (machine p)) p))))
            = pressed g) as Hhas.
  { intros g Hg. rewrite Hhas'. rewrite bool_decide_eq_true_2; [done|].
    apply elem_of_seq. lia. }
  split; [done|]. split.
  - intros g Hg. rewrite Hm', Hstates by done. by apply Hhas.
  - intros g Hg. rewrite Hm'. split; [by apply Hstates|].
    split; [by apply Hhas|].
    destruct Ht' as (_ & Hdom & _). rewrite Hdom. split.
    + intros (g' & Heq & Hyes). apply Nat2Z.inj in Heq. subst g'.
      by rewrite <- (Hhas g Hg).
    + intros Hyes. exists g. split; [done|]. by rewrite Hhas.
Qed.

Lemma frame_plays_pressed_regions_witness :
  let p := ops [SampleRecorded {| id := 1; blob := Some 0%nat |};
                SwitchMode App.PERFORM]
             (loaded (replicate 9 "vibrato"%string)) in
  let p' := advance Engine.Completes 50 (handleSerialData App.above p) in
  mapHas 0 (activeSampleSources p') = true
  ∧ mapHas 1 (activeSampleSources p') = false.
Proof.
  intros p p'.
  destruct (frame_plays_pressed_regions p App.above 50) as (_ & _ & Hregions).
  - apply ops_tracks, loaded_tracks.
  - intros g Hg.
    do 9 (destruct g as [|g]; [vm_compute; reflexivity|]). lia.
  - intros g cell Hc.
    do 9 (destruct g as [|g];
          [vm_compute in Hc; injection Hc as <-; eexists; vm_compute; reflexivity|]).
    vm_compute in Hc. discriminate Hc.
  - vm_compute. reflexivity.
  - split; vm_compute; reflexivity.
  - vm_compute. reflexivity.
  - vm_compute. discriminate.
  - split.
    + destruct (Hregions 0%nat ltac:(lia)) as (_ & Hhas & _).
      unfold p'. rewrite Hhas. vm_compute. reflexivity.
    + destruct (Hregions 1%nat ltac:(lia)) as (_ & Hhas & _).
      unfold p'. rewrite Hhas. vm_compute. reflexivity.
Defined.

End PerformFacts.
